(** * plane-sweep-cuda: the host side of the plane-sweep / TVL1 / TGV engine

    A shallow embedding of [src/planesweep.cpp].  The host code is written once,
    over an interface of floating-point arithmetic, and read at two instances:
    the IEEE-754 formats the program runs on ([binary32] for [float],
    [binary64] for [double], both through the Standard Library's [SpecFloat]),
    and exact rational arithmetic with one undefined value ([exact]), the
    arithmetic the algebraic statements of the specification are about.

    The allocation, release and copy helpers of [inc/memory.h] are embedded
    in the module [Memory].

    The CUDA kernels ([kernels.cu.h]), the image classes ([inc/image.h]) and
    the matrix classes ([helper_structs.h]) are not part of the sources at
    hand; what the host code needs of them is modelled from the
    specification and marked as such. *)

From Stdlib Require Import ZArith QArith Qcanon List Bool Lia SpecFloat.
From Stdlib Require Import Lqa.
From Stdlib Require NsatzTactic.
Import (ltac.notations) NsatzTactic.
Import ListNotations.

Set Implicit Arguments.
Close Scope Qc_scope.
Close Scope Q_scope.
Open Scope nat_scope.

(** ** Arithmetic *)

(** The operations the host code applies to a [float] or a [double].
    [feqb], [fltb] and [fleb] are the C++ operators [==], [<] and [<=];
    [of_int] is the implicit conversion of an integer operand; [ftrunc] is the
    conversion to an integer type (truncation toward zero, [None] where the
    value has no integer part at all). *)
Class Arith (T : Type) : Type := {
  fzero : T;
  fone : T;
  fnan : T;
  fadd : T -> T -> T;
  fsub : T -> T -> T;
  fmul : T -> T -> T;
  fdiv : T -> T -> T;
  fopp : T -> T;
  feqb : T -> T -> bool;
  fltb : T -> T -> bool;
  fleb : T -> T -> bool;
  of_int : Z -> T;
  ftrunc : T -> option Z
}.

(** Conversions between the [float] and the [double] of one arithmetic. *)
Class Widen (F D : Type) : Type := {
  to_double : F -> D;
  to_float : D -> F
}.

Module IEEE.

(** A binary IEEE-754 format with [prec] bits of precision, infinities at
    exponent [emax], rounding to nearest even. *)
Section Format.
Variables prec emax : Z.

Definition of_Z (z : Z) : spec_float := binary_normalize prec emax z 0 false.

Definition trunc (x : spec_float) : option Z :=
  match x with
  | S754_zero _ => Some 0%Z
  | S754_finite s m e => Some (cond_Zopp s (Z.shiftl (Zpos m) e))
  | S754_infinity _ | S754_nan => None
  end.

Definition arith : Arith spec_float := {|
  fzero := S754_zero false;
  fone := of_Z 1;
  fnan := S754_nan;
  fadd := SFadd prec emax;
  fsub := SFsub prec emax;
  fmul := SFmul prec emax;
  fdiv := SFdiv prec emax;
  fopp := SFopp;
  feqb := SFeqb;
  fltb := SFltb;
  fleb := SFleb;
  of_int := of_Z;
  ftrunc := trunc
|}.

(** Rounding of an arbitrary finite value into the format. *)
Definition round (x : spec_float) : spec_float :=
  match x with
  | S754_finite s m e => binary_normalize prec emax (cond_Zopp s (Zpos m)) e s
  | _ => x
  end.
End Format.

Definition binary32 : Arith spec_float := arith 24 128.
Definition binary64 : Arith spec_float := arith 53 1024.

Definition widen : Widen spec_float spec_float := {|
  to_double := round 53 1024;
  to_float := round 24 128
|}.

(** The literal [n/d] rounded to [float], as the compiler reads [0.1f]. *)
Definition lit32 (n d : Z) : spec_float :=
  SFdiv 24 128 (of_Z 24 128 n) (of_Z 24 128 d).

End IEEE.

Module Exact.

(** Exact arithmetic: a rational, or the one undefined value that every
    division by zero produces and every operation propagates. *)
Definition xnum : Type := option Qc.

Definition lift2 (f : Qc -> Qc -> Qc) (x y : xnum) : xnum :=
  match x, y with
  | Some a, Some b => Some (f a b)
  | _, _ => None
  end.

Definition xdiv (x y : xnum) : xnum :=
  match x, y with
  | Some a, Some b => if Qc_eq_dec b 0 then None else Some (a / b)%Qc
  | _, _ => None
  end.

Definition xcmp (x y : xnum) : option comparison :=
  match x, y with
  | Some a, Some b => Some (a ?= b)%Qc
  | _, _ => None
  end.

Definition xeqb (x y : xnum) : bool :=
  match xcmp x y with Some Eq => true | _ => false end.
Definition xltb (x y : xnum) : bool :=
  match xcmp x y with Some Lt => true | _ => false end.
Definition xleb (x y : xnum) : bool :=
  match xcmp x y with Some (Lt | Eq) => true | _ => false end.

Definition xtrunc (x : xnum) : option Z :=
  match x with
  | Some a => Some (Z.quot (Qnum a) (Zpos (Qden a)))
  | None => None
  end.

Definition of_Z (z : Z) : xnum := Some (Q2Qc (inject_Z z)).

Definition arith : Arith xnum := {|
  fzero := of_Z 0;
  fone := of_Z 1;
  fnan := None;
  fadd := lift2 Qcplus;
  fsub := lift2 Qcminus;
  fmul := lift2 Qcmult;
  fdiv := xdiv;
  fopp := option_map Qcopp;
  feqb := xeqb;
  fltb := xltb;
  fleb := xleb;
  of_int := of_Z;
  ftrunc := xtrunc
|}.

Definition widen : Widen xnum xnum := {|
  to_double := fun x => x;
  to_float := fun x => x
|}.

End Exact.

(** ** Poses: [Matrix3D], [Vector3D] and [PlaneSweep::RelativeMatrices] *)

Section Pose.
Context {T : Type} {AT : Arith T}.

Local Notation "x + y" := (fadd x y).
Local Notation "x - y" := (fsub x y).
Local Notation "x * y" := (fmul x y).
Local Notation "x / y" := (fdiv x y).

(** Modelled from the spec: [Vector3D] and [Matrix3D] of [helper_structs.h]
    (absent), the "translation vector t (3x1)" and "rotation matrix R (3x3)"
    of section 3, with the operations [RelativeMatrices] and
    [PlaneSweepThread] apply to them: product, sum, difference, transpose,
    division by a scalar, and the inverse (adjugate over determinant). *)
Record Vector3D : Type := mkV { vx : T; vy : T; vz : T }.

Record Matrix3D : Type := mkM {
  m00 : T; m01 : T; m02 : T;
  m10 : T; m11 : T; m12 : T;
  m20 : T; m21 : T; m22 : T
}.

Definition vsub (a b : Vector3D) : Vector3D :=
  mkV (vx a - vx b) (vy a - vy b) (vz a - vz b).

Definition mzero : Matrix3D :=
  mkM fzero fzero fzero fzero fzero fzero fzero fzero fzero.

Definition makeIdentity : Matrix3D :=
  mkM fone fzero fzero fzero fone fzero fzero fzero fone.

Definition trans (a : Matrix3D) : Matrix3D :=
  mkM (m00 a) (m10 a) (m20 a)
      (m01 a) (m11 a) (m21 a)
      (m02 a) (m12 a) (m22 a).

Definition madd (a b : Matrix3D) : Matrix3D :=
  mkM (m00 a + m00 b) (m01 a + m01 b) (m02 a + m02 b)
      (m10 a + m10 b) (m11 a + m11 b) (m12 a + m12 b)
      (m20 a + m20 b) (m21 a + m21 b) (m22 a + m22 b).

Definition mscale_div (a : Matrix3D) (d : T) : Matrix3D :=
  mkM (m00 a / d) (m01 a / d) (m02 a / d)
      (m10 a / d) (m11 a / d) (m12 a / d)
      (m20 a / d) (m21 a / d) (m22 a / d).

Definition mmul (a b : Matrix3D) : Matrix3D :=
  mkM (m00 a * m00 b + m01 a * m10 b + m02 a * m20 b)
      (m00 a * m01 b + m01 a * m11 b + m02 a * m21 b)
      (m00 a * m02 b + m01 a * m12 b + m02 a * m22 b)
      (m10 a * m00 b + m11 a * m10 b + m12 a * m20 b)
      (m10 a * m01 b + m11 a * m11 b + m12 a * m21 b)
      (m10 a * m02 b + m11 a * m12 b + m12 a * m22 b)
      (m20 a * m00 b + m21 a * m10 b + m22 a * m20 b)
      (m20 a * m01 b + m21 a * m11 b + m22 a * m21 b)
      (m20 a * m02 b + m21 a * m12 b + m22 a * m22 b).

Definition mvmul (a : Matrix3D) (v : Vector3D) : Vector3D :=
  mkV (m00 a * vx v + m01 a * vy v + m02 a * vz v)
      (m10 a * vx v + m11 a * vy v + m12 a * vz v)
      (m20 a * vx v + m21 a * vy v + m22 a * vz v).

Definition det (a : Matrix3D) : T :=
  m00 a * (m11 a * m22 a - m12 a * m21 a)
  - m01 a * (m10 a * m22 a - m12 a * m20 a)
  + m02 a * (m10 a * m21 a - m11 a * m20 a).

Definition adj (a : Matrix3D) : Matrix3D :=
  mkM (m11 a * m22 a - m12 a * m21 a)
      (m02 a * m21 a - m01 a * m22 a)
      (m01 a * m12 a - m02 a * m11 a)
      (m12 a * m20 a - m10 a * m22 a)
      (m00 a * m22 a - m02 a * m20 a)
      (m02 a * m10 a - m00 a * m12 a)
      (m10 a * m21 a - m11 a * m20 a)
      (m01 a * m20 a - m00 a * m21 a)
      (m00 a * m11 a - m01 a * m10 a).

Definition inv (a : Matrix3D) : Matrix3D := mscale_div (adj a) (det a).

(** [tr.row(2) = trel]: the third row of [tr] becomes [v]. *)
Definition set_row2 (a : Matrix3D) (v : Vector3D) : Matrix3D :=
  mkM (m00 a) (m01 a) (m02 a)
      (m10 a) (m11 a) (m12 a)
      (vx v) (vy v) (vz v).

(** [PlaneSweep::RelativeMatrices]: the pose of a source view relative to
    the reference, by the convention the [alternativemethod] flag selects. *)
Definition RelativeMatrices (alternativemethod : bool)
    (Rref : Matrix3D) (tref : Vector3D) (Rsrc : Matrix3D) (tsrc : Vector3D)
    : Matrix3D * Vector3D :=
  if negb alternativemethod then
    let Rrel := mmul Rsrc (inv Rref) in
    (Rrel, vsub tsrc (mvmul Rrel tref))
  else
    (mmul (trans Rsrc) Rref, mvmul (trans Rsrc) (vsub tref tsrc)).

(** The homography of one depth hypothesis, as [PlaneSweepThread] computes
    it: [H = K * (Rrel + tr / d) * invK; H = H / H(2,2)]. *)
Definition homography (K invK Rrel tr : Matrix3D) (d : T) : Matrix3D :=
  let H := mmul (mmul K (madd Rrel (mscale_div tr d))) invK in
  mscale_div H (m22 H).

End Pose.

Arguments Vector3D T : clear implicits.
Arguments Matrix3D T : clear implicits.

(** ** Images and kernels *)

(** An 8-bit pixel: a byte, or [None] where the conversion that produced it
    has no defined result in C++ (a value that is not a number, or one whose
    integer part is not a byte). *)
Definition uchar : Type := option Z.
Definition UCHAR_MAX : Z := 255.

(** Modelled from the spec: [CamImage<T>] of [inc/image.h] (absent), "width W,
    height H, single-channel intensity buffer (row-major, arbitrary pitch)" of
    section 3.  The pitch is a matter of memory layout and is left out: pixel
    [(x, y)] is element [x + y * width] of [data], as [ConvertDepthtoUChar]
    indexes it. *)
Record CamImage (T : Type) : Type := mkImage {
  width : nat;
  height : nat;
  data : list T
}.

(** Modelled from the spec: [CamImage::reset(w, h)], "created empty sized to
    the reference image" (section 3): the old pixels are gone and the new
    buffer holds [w * h] times the blank value. *)
Definition reset {T : Type} (blank : T) (w h : nat) : CamImage T :=
  mkImage w h (repeat blank (w * h)).

(** [a[i] = v]; the host code never writes past the end of a buffer. *)
Fixpoint store {T : Type} (i : nat) (v : T) (l : list T) : list T :=
  match l, i with
  | [], _ => []
  | _ :: l', O => v :: l'
  | x :: l', S i' => x :: store i' v l'
  end.

Section Kernels.
Context {F : Type} {AF : Arith F}.

(** A device buffer of [w * h] floats. *)
Definition Image : Type := list F.

Definition px (a : Image) (p : nat) : F := nth p a fzero.

(** One thread per pixel: thread [p] computes element [p] of the output. *)
Definition per_pixel (n : nat) (f : nat -> F) : Image := map f (seq 0 n).

(** Modelled from the spec: [update_arrays] of [kernels.cu.h] (absent), "if
    NCC at a pixel exceeds the running best, store (best=NCC, depth=d)"
    (section 4.2). *)
Definition update_arrays (depth bestNCC ncc : Image) (d : F) (w h : nat)
    : Image * Image :=
  (per_pixel (w * h)
     (fun p => if fltb (px bestNCC p) (px ncc p) then d else px depth p),
   per_pixel (w * h)
     (fun p => if fltb (px bestNCC p) (px ncc p) then px ncc p else px bestNCC p)).

(** Modelled from the spec: [sum_depthmap_NCC] of [kernels.cu.h] (absent),
    "if best NCC exceeds the global acceptance threshold, add the depth to
    the running sum and increment the count" (section 4.3). *)
Definition sum_depthmap_NCC (globDepth globN depth bestNCC : Image)
    (nccthresh : F) (w h : nat) : Image * Image :=
  (per_pixel (w * h)
     (fun p => if fltb nccthresh (px bestNCC p)
               then fadd (px globDepth p) (px depth p) else px globDepth p),
   per_pixel (w * h)
     (fun p => if fltb nccthresh (px bestNCC p)
               then fadd (px globN p) fone else px globN p)).

(** Modelled from the spec: [element_rdivide] of [kernels.cu.h] (absent),
    the quotient in "final depth = sum/count" (section 4.3). *)
Definition element_rdivide (a b : Image) (w h : nat) : Image :=
  per_pixel (w * h) (fun p => fdiv (px a p) (px b p)).

(** Modelled from the spec: [set_QNAN_value] of [kernels.cu.h] (absent).
    Section 4.3 has "final depth = sum/count where count > 0, else
  undefined" and section 3 has the undefined depth "encoded as a
  non-finite sentinel": a pixel that is not a number after the division
  holds the sentinel, every other pixel is left as it is.  The
  specification gives the scalar argument no role. *)
Definition set_QNAN_value (a : Image) (value : F) (w h : nat) : Image :=
per_pixel (w * h) (fun p => if feqb (px a p) (px a p) then px a p else fnan).

(** Modelled from the spec: [element_add] and [element_scale] of
  [kernels.cu.h] (absent).  Section 8 has the denoiser with no iteration
  return "the raw depth unchanged", which asks the calls around its loop to
  be an affine map and its inverse: a constant is added to, or multiplied
  into, every pixel. *)
Definition element_add (a : Image) (value : F) (w h : nat) : Image :=
per_pixel (w * h) (fun p => fadd (px a p) value).

Definition element_scale (a : Image) (value : F) (w h : nat) : Image :=
per_pixel (w * h) (fun p => fmul (px a p) value).

(** Modelled from the spec: [set_value] of [kernels.cu.h] (absent): the
  fields "share dimensions (W,H) and are reset at the start of each outer"
  warp iteration (section 3), every pixel to the given value. *)
Definition set_value (value : F) (w h : nat) : Image :=
per_pixel (w * h) (fun _ => value).

(** Modelled from the spec: [subtract] of [kernels.cu.h] (absent), the
  residual "interpolated source minus reference" of section 4.6. *)
Definition subtract (a b : Image) (w h : nat) : Image :=
per_pixel (w * h) (fun p => fsub (px a p) (px b p)).

(** [std::max] and [std::min] as the standard library defines them. *)
Definition std_max (a b : F) : F := if fltb a b then b else a.
Definition std_min (a b : F) : F := if fltb b a then b else a.

(** The conversion [uchar(x)] of a float. *)
Definition to_uchar (x : F) : uchar :=
match ftrunc x with
| Some z => if ((0 <=? z) && (z <=? UCHAR_MAX))%Z then Some z else None
| None => None
end.

(** The body of the loop of [ConvertDepthtoUChar]: the byte of one depth. *)
Definition quantize (znear zfar : F) (v : F) : uchar :=
if feqb v v then
  to_uchar (fmul (of_int UCHAR_MAX)
              (std_min (std_max (fdiv (fsub v znear) (fsub zfar znear)) fzero) fone))
else Some UCHAR_MAX.

(** [PlaneSweep::ConvertDepthtoUChar]: the output is reset to the size of
  the input, then the two loops visit [x] outermost and [y] innermost and
  write pixel [x + y * width]. *)
Definition ConvertDepthtoUChar_column (znear zfar : F) (input : CamImage F)
  (x : nat) (out : list uchar) : list uchar :=
fold_left (fun o y =>
             let i := x + y * width input in
             store i (quantize znear zfar (nth i (data input) fzero)) o)
          (seq 0 (height input)) out.

Definition ConvertDepthtoUChar (znear zfar : F) (input : CamImage F)
  : CamImage uchar :=
let output := reset (Some 0%Z) (width input) (height input) in
mkImage (width output) (height output)
  (fold_left (fun o x => ConvertDepthtoUChar_column znear zfar input x o)
             (seq 0 (width input)) (data output)).

End Kernels.

Arguments Image F : clear implicits.

(** ** The CUDA runtime *)

(** The host buffers that take part in a copy to or from the device. *)
Inductive host_buffer : Type :=
| B_HostRef
| B_HostSrc (index : nat)
| B_depth               (* the sparse depth handed to TGVdenoiseFromSparse *)
| B_depthmap
| B_depthmapdenoised
| B_depthmapTGV
| B_coord_x
| B_coord_y
| B_coord_z.

Inductive transfer : Type :=
| HostToDevice (src : host_buffer)
| DeviceToHost (dst : host_buffer)
| DeviceToDevice.

(** The runtime calls whose status the host code checks: every one of them is
  wrapped in [CHECK_CUDA_ERRORS_AUTO], in [planesweep.cpp] or in
  [MemoryManagement] ([inc/memory.h]), and throws when the call fails. *)
Inductive call : Type :=
| cudaGetDeviceCount
| cudaMalloc
| cudaFree
| cudaMemcpy (what : transfer)
| cudaPeekAtLastError
| cudaDeviceReset.

(** The device as the host sees it: the number of devices
  [cudaGetDeviceCount] reports, the fate of the checked calls to come
  ([true]: the call fails; past the end of the list every call succeeds),
  and the calls made so far with their success, most recent first. *)
Record device : Type := mkDevice {
dev_count : nat;
faults : list bool;
log : list (call * bool)
}.

(** What a computation comes to: a value, a thrown [std::exception], or no
  result at all because a loop does not end. *)
Inductive outcome (A : Type) : Type :=
| Ok (a : A)
| Throw
| Hang.
Arguments Throw {A}.
Arguments Hang {A}.

Section Monad.
Variable St : Type.

Definition M (A : Type) : Type := St -> outcome A * St.

Definition ret {A} (a : A) : M A := fun s => (Ok a, s).

Definition bind {A B} (m : M A) (f : A -> M B) : M B :=
fun s =>
  match m s with
  | (Ok a, s') => f a s'
  | (Throw, s') => (Throw, s')
  | (Hang, s') => (Hang, s')
  end.

Definition throw {A} : M A := fun s => (Throw, s).

(** [try { body } catch (const std::exception &) { handler }] *)
Definition try_catch {A} (body handler : M A) : M A :=
fun s =>
  match body s with
  | (Throw, s') => handler s'
  | r => r
  end.

(** A loop that may not end, run on a bounded number of steps. *)
Definition terminated {A} (o : option A) : M A :=
fun s => match o with Some a => (Ok a, s) | None => (Hang, s) end.

Definition modify (f : St -> St) : M unit := fun s => (Ok tt, f s).
Definition gets {A} (f : St -> A) : M A := fun s => (Ok (f s), s).

(** [for (x : l) acc = body(x, acc);] *)
Fixpoint for_each {X S} (l : list X) (body : X -> S -> M S) (acc : S) : M S :=
match l with
| [] => ret acc
| x :: l' => bind (body x acc) (for_each l' body)
end.

End Monad.

Arguments ret {St A} a.
Arguments bind {St A B} m f.
Arguments throw {St A}.
Arguments try_catch {St A} body handler.
Arguments terminated {St A} o.
Arguments modify {St} f.
Arguments gets {St A} f.
Arguments for_each {St X S} l body acc.

Declare Scope monad_scope.
Delimit Scope monad_scope with monad.
Notation "x <- c1 ;; c2" := (bind c1 (fun x => c2))
(at level 61, c1 at next level, right associativity) : monad_scope.
Notation "' pat <- c1 ;; c2" := (bind c1 (fun x => match x with pat => c2 end))
(at level 61, pat pattern, c1 at next level, right associativity) : monad_scope.
Notation "c1 ;; c2" := (bind c1 (fun _ => c2))
(at level 61, right associativity) : monad_scope.

(** [for (int i = 0; i < n; i++)] *)
Definition for_range {S : Type} (n : nat) (body : nat -> S -> S) (acc : S) : S :=
fold_left (fun a i => body i a) (seq 0 n) acc.

(** [(int) x] on a 32-bit [int]. *)
Definition to_int (x : Z) : Z := ((x + 2 ^ 31) mod 2 ^ 32 - 2 ^ 31)%Z.

(** ** The engine object *)

(** What the host keeps of the device pointer [d_depthmap]. *)
Inductive devptr : Type := null | allocated.

(** The value of [cudaDevInit]. *)
Inductive devinit : Type := NO_CUDA_DEVICE | Device (dev : nat).

Section Engine.
Context {F D : Type} {AF : Arith F} {AD : Arith D} {W : Widen F D}.

Local Open Scope monad_scope.

(** A posed image: the pixels with the rotation and the translation of the
  camera ([HostRef], and every element of [HostSrc]). *)
Record PosedImage : Type := mkPosed {
image : CamImage F;
R : Matrix3D F;
t : Vector3D F
}.

Definition blank_view : PosedImage :=
mkPosed (reset fzero 0 0) mzero (mkV fzero fzero fzero).

(** The members of [PlaneSweep] that the stages read and never write: the
  input images, the intrinsics and the options. *)
Record Settings : Type := mkSettings {
HostRef : PosedImage;
HostSrc : list PosedImage;
K : Matrix3D F;
invK : Matrix3D F;
znear : F;
zfar : F;
numberplanes : Z;
numberimages : Z;
winsize : Z;
nccthresh : F;
stdthresh : F;
alternativemethod : bool
}.

(** The members the stages write: the outputs, the flag that says the raw
  depth map exists, and the device pointer.  The launch geometry
  ([threads], [blocks], [maxThreadsPerBlock]) decides how the pixels are
  shared among threads, not what is computed, and is left out. *)
Record PlaneSweep : Type := mkPlaneSweep {
depthavailable : bool;
depthmap : CamImage F;
depthmap8u : CamImage uchar;
depthmapdenoised : CamImage F;
depthmap8udenoised : CamImage uchar;
depthmapTGV : CamImage F;
depthmap8uTGV : CamImage uchar;
coord_x : CamImage F;
coord_y : CamImage F;
coord_z : CamImage F;
d_depthmap : devptr
}.

Definition set_depthavailable (v : bool) (o : PlaneSweep) : PlaneSweep :=
mkPlaneSweep v (depthmap o) (depthmap8u o) (depthmapdenoised o)
  (depthmap8udenoised o) (depthmapTGV o) (depthmap8uTGV o)
  (coord_x o) (coord_y o) (coord_z o) (d_depthmap o).
Definition set_depthmap (v : CamImage F) (o : PlaneSweep) : PlaneSweep :=
mkPlaneSweep (depthavailable o) v (depthmap8u o) (depthmapdenoised o)
  (depthmap8udenoised o) (depthmapTGV o) (depthmap8uTGV o)
  (coord_x o) (coord_y o) (coord_z o) (d_depthmap o).
Definition set_depthmap8u (v : CamImage uchar) (o : PlaneSweep) : PlaneSweep :=
mkPlaneSweep (depthavailable o) (depthmap o) v (depthmapdenoised o)
  (depthmap8udenoised o) (depthmapTGV o) (depthmap8uTGV o)
  (coord_x o) (coord_y o) (coord_z o) (d_depthmap o).
Definition set_depthmapdenoised (v : CamImage F) (o : PlaneSweep) : PlaneSweep :=
mkPlaneSweep (depthavailable o) (depthmap o) (depthmap8u o) v
  (depthmap8udenoised o) (depthmapTGV o) (depthmap8uTGV o)
  (coord_x o) (coord_y o) (coord_z o) (d_depthmap o).
Definition set_depthmap8udenoised (v : CamImage uchar) (o : PlaneSweep) : PlaneSweep :=
mkPlaneSweep (depthavailable o) (depthmap o) (depthmap8u o) (depthmapdenoised o)
  v (depthmapTGV o) (depthmap8uTGV o)
  (coord_x o) (coord_y o) (coord_z o) (d_depthmap o).
Definition set_depthmapTGV (v : CamImage F) (o : PlaneSweep) : PlaneSweep :=
mkPlaneSweep (depthavailable o) (depthmap o) (depthmap8u o) (depthmapdenoised o)
  (depthmap8udenoised o) v (depthmap8uTGV o)
  (coord_x o) (coord_y o) (coord_z o) (d_depthmap o).
Definition set_depthmap8uTGV (v : CamImage uchar) (o : PlaneSweep) : PlaneSweep :=
mkPlaneSweep (depthavailable o) (depthmap o) (depthmap8u o) (depthmapdenoised o)
  (depthmap8udenoised o) (depthmapTGV o) v
  (coord_x o) (coord_y o) (coord_z o) (d_depthmap o).
Definition set_coord_x (v : CamImage F) (o : PlaneSweep) : PlaneSweep :=
mkPlaneSweep (depthavailable o) (depthmap o) (depthmap8u o) (depthmapdenoised o)
  (depthmap8udenoised o) (depthmapTGV o) (depthmap8uTGV o)
  v (coord_y o) (coord_z o) (d_depthmap o).
Definition set_coord_y (v : CamImage F) (o : PlaneSweep) : PlaneSweep :=
mkPlaneSweep (depthavailable o) (depthmap o) (depthmap8u o) (depthmapdenoised o)
  (depthmap8udenoised o) (depthmapTGV o) (depthmap8uTGV o)
  (coord_x o) v (coord_z o) (d_depthmap o).
Definition set_coord_z (v : CamImage F) (o : PlaneSweep) : PlaneSweep :=
mkPlaneSweep (depthavailable o) (depthmap o) (depthmap8u o) (depthmapdenoised o)
  (depthmap8udenoised o) (depthmapTGV o) (depthmap8uTGV o)
  (coord_x o) (coord_y o) v (d_depthmap o).
Definition set_d_depthmap (v : devptr) (o : PlaneSweep) : PlaneSweep :=
mkPlaneSweep (depthavailable o) (depthmap o) (depthmap8u o) (depthmapdenoised o)
  (depthmap8udenoised o) (depthmapTGV o) (depthmap8uTGV o)
  (coord_x o) (coord_y o) (coord_z o) v.

(** The engine and the device it computes on. *)
Record machine : Type := mkMachine {
obj : PlaneSweep;
gpu : device
}.

Local Abbreviation Run := (M machine).

Definition member {A} (f : PlaneSweep -> A) : Run A := gets (fun s => f (obj s)).
Definition assign (f : PlaneSweep -> PlaneSweep) : Run unit :=
modify (fun s => mkMachine (f (obj s)) (gpu s)).

(** Modelled from the spec: [CHECK_CUDA_ERRORS_AUTO] of [cuda_exception.h]
  (absent), "any parallel-kernel launch or memory operation fails; surfaced
  as an exception-like failure" (section 7): a checked runtime call is logged
  with its success, and throws a [std::exception], which the handlers of
  [planesweep.cpp] catch, when the device says it failed. *)
Definition cuda (c : call) : Run unit :=
fun s =>
  let g := gpu s in
  let failed := hd false (faults g) in
  ((if failed then Throw else Ok tt),
   mkMachine (obj s)
     (mkDevice (dev_count g) (tl (faults g)) ((c, negb failed) :: log g))).

(** Modelled from the spec: [Image<float>(w, h)] of [inc/image.h] (absent): a
  device buffer obtained through [MemoryManagement::Malloc], which throws
  when the allocation fails; the accumulators are "Reset once per
  reconstruction" (section 3), so a new buffer holds zeros. *)
Definition Image_new (w h : nat) : Run (Image F) :=
cuda cudaMalloc ;; ret (repeat fzero (w * h)).

(** [k] declarations [Image<float> a(w, h), b(w, h), ...]. *)
Definition Images_new (k w h : nat) : Run unit :=
for_each (seq 0 k) (fun _ _ => _ <- Image_new w h ;; ret tt) tt.

(** Modelled from the spec: [Image::copyFrom] of [inc/image.h] (absent), the
  "pitch-aware copy between host and compute memory" of section 1. *)
Definition copyFrom (b : host_buffer) (pixels : list F) : Run (Image F) :=
cuda (cudaMemcpy (HostToDevice b)) ;; ret pixels.

(** [PlaneSweep::cudaReset] *)
Definition cudaReset : Run unit :=
cuda cudaDeviceReset ;;
assign (set_d_depthmap null).

(** [PlaneSweep::cudaDevInit]: the device [findCudaDevice] picks among those
  present is of no consequence below.  [findCudaDevice] and
  [checkCudaErrors(cudaSetDevice(dev))] are helpers of the CUDA samples, not
  of this repository; with a device present they are taken to succeed. *)
Definition cudaDevInit : Run devinit :=
cuda cudaGetDeviceCount ;;
Count <- gets (fun s => dev_count (gpu s)) ;;
if Count =? 0 then ret NO_CUDA_DEVICE else ret (Device 0).

(** The kernels of [kernels.cu.h] whose computation no statement below
  depends on: each is an arbitrary function of the buffers and scalars
  the host passes, returning the buffers it writes. *)
Definition Tensor : Type := (Image F * Image F * Image F * Image F)%type.

Record Kernels : Type := mkKernels {
windowed_mean_column : Image F -> Z -> bool -> nat -> nat -> Image F;
windowed_mean_row : Image F -> Z -> bool -> nat -> nat -> Image F;
calculate_STD : Image F -> Image F -> nat -> nat -> Image F;
transform_indexes : Matrix3D F -> nat -> nat -> Image F * Image F;
bilinear_interpolation :
  Image F -> Image F -> Image F -> nat -> nat -> nat -> nat -> Image F;
element_multiply : Image F -> Image F -> nat -> nat -> Image F;
calcNCC :
  Image F -> Image F -> Image F -> Image F -> Image F -> F -> F ->
  nat -> nat -> Image F;
Anisotropic_diffusion_tensor : Image F -> D -> D -> nat -> nat -> Tensor;
denoising_TVL1_calculateP_tensor_weighed :
  Image F -> Image F -> Tensor -> Image F -> D -> nat -> nat ->
  Image F * Image F;
denoising_TVL1_update :
  Image F -> Image F -> Image F -> Image F -> Image F ->
  D -> D -> D -> D -> nat -> nat -> Image F * Image F;
TGV2_transform_coordinates :
  Image F -> Matrix3D F -> Matrix3D F -> Vector3D F -> Matrix3D F ->
  nat -> nat -> Image F * Image F * (Image F * Image F * Image F);
TGV2_calculate_coordinate_derivatives :
  Matrix3D F -> Matrix3D F -> nat -> nat -> Image F * Image F * Image F;
TGV2_calculate_derivativeF :
  Image F * Image F * Image F -> Image F * Image F * Image F ->
  D -> D -> nat -> nat -> Image F * Image F;
TGV2_calculate_Iu : Image F -> Image F -> Image F -> nat -> nat -> Image F;
TGV2_updateP_tensor_weighed :
  Image F * Image F -> Tensor -> Image F -> Image F -> Image F ->
  D -> D -> nat -> nat -> Image F * Image F;
TGV2_updateQ :
  Tensor -> Image F -> Image F -> D -> D -> nat -> nat -> Tensor;
TGV2_updateR :
  Image F -> Image F -> Image F -> Image F -> Image F -> Image F ->
  D -> D -> nat -> nat -> Image F * Image F;
TGV2_updateU_tensor_weighed :
  Image F * Image F * Image F -> Tensor ->
  Image F * Image F * Image F -> Image F * Image F -> Tensor ->
  Image F -> D -> D -> D -> D -> nat -> nat ->
  (Image F * Image F * Image F) * (Image F * Image F * Image F);
calculateWeights_sparseDepth : Image F -> nat -> nat -> Image F;
TGV2_updateU_sparseDepthTensor :
  Image F -> Image F * Image F * Image F -> Tensor ->
  Image F * Image F -> Tensor -> Image F -> Image F ->
  D -> D -> D -> D -> nat -> nat ->
  Image F * (Image F * Image F * Image F);
compute3D :
  Image F * Image F * Image F -> Matrix3D F -> Vector3D F -> Matrix3D F ->
  nat -> nat -> Image F * Image F * Image F;
cv_denoise_TVL1 : list uchar -> D -> nat -> list uchar
}.

Variable kernels : Kernels.
Variable cfg : Settings.

Definition ref_width : nat := width (image (HostRef cfg)).
Definition ref_height : nat := height (image (HostRef cfg)).

(** *** [PlaneSweep::PlaneSweepThread] *)

(** [float dstep = (zfar - znear) / (numberplanes - 1);] *)
Definition dstep : F :=
fdiv (fsub (zfar cfg) (znear cfg)) (of_int (numberplanes cfg - 1)).

(** [for (float d = znear; d <= zfar; d += dstep) acc = body(d, acc);]
  The loop ends only if [d] comes to exceed [zfar], or to be no number. *)
Fixpoint for_depth {A : Type} (fuel : nat) (body : F -> A -> A) (d : F) (acc : A)
  : option A :=
match fuel with
| O => None
| S fuel' =>
    if fleb d (zfar cfg)
    then for_depth fuel' body (fadd d dstep) (body d acc)
    else Some acc
end.

(** The depth hypotheses of one sweep, in the order the loop visits them. *)
Definition depth_hypotheses (fuel : nat) : option (list F) :=
for_depth fuel (fun d visited => visited ++ [d]) (znear cfg) [].

(** The body of the loop over the depth hypotheses: the NCC image of the
  source view warped by the homography of depth [d], folded into the best
  depth and the best score of the view. *)
Definition sweep_step (Ref Refmean Refstd devSrc : Image F)
  (Rrel tr : Matrix3D F) (d : F) (best : Image F * Image F)
  : Image F * Image F :=
let w := ref_width in
let h := ref_height in
let '(devDepth, devbestNCC) := best in
let H := homography (K cfg) (invK cfg) Rrel tr d in
let '(devx, devy) := transform_indexes kernels H w h in
let devWarped := bilinear_interpolation kernels devSrc devx devy w h w h in
let devInter1 := windowed_mean_column kernels devWarped (winsize cfg) false w h in
let devx := windowed_mean_row kernels devInter1 (winsize cfg) false w h in
let devy := windowed_mean_column kernels devWarped (winsize cfg) true w h in
let devInter1 := windowed_mean_row kernels devy (winsize cfg) false w h in
let devy := calculate_STD kernels devx devInter1 w h in
let devInter1 := element_multiply kernels Ref devWarped w h in
let devWarped := windowed_mean_column kernels devInter1 (winsize cfg) false w h in
let devInter1 := windowed_mean_row kernels devWarped (winsize cfg) false w h in
let devNCC :=
  calcNCC kernels devInter1 Refmean devx Refstd devy
    (stdthresh cfg) (stdthresh cfg) w h in
update_arrays devDepth devbestNCC devNCC d w h.

(** The best depth and the best score of source view [index], each pixel
  starting from the zero of a new buffer. *)
Definition view_best (fuel : nat) (Ref Refmean Refstd : Image F) (index : nat)
  : option (Image F * Image F) :=
let w := ref_width in
let h := ref_height in
let src := nth index (HostSrc cfg) blank_view in
let '(Rrel, trel) :=
  RelativeMatrices (alternativemethod cfg)
    (R (HostRef cfg)) (t (HostRef cfg)) (R src) (t src) in
let tr := trans (set_row2 mzero trel) in
for_depth fuel (sweep_step Ref Refmean Refstd (data (image src)) Rrel tr)
  (znear cfg) (repeat fzero (w * h), repeat fzero (w * h)).

Definition PlaneSweepThread (fuel : nat) (globDepth globN Ref Refmean Refstd : Image F)
  (index : nat) : Run (Image F * Image F) :=
let w := ref_width in
let h := ref_height in
_ <- Image_new w h ;;                                (* devSrc *)
Images_new 7 w h ;; (* devNCC, devbestNCC, devDepth, devInter1, devx, devy, devWarped *)
_ <- copyFrom (B_HostSrc index) (data (image (nth index (HostSrc cfg) blank_view))) ;;
'(devDepth, devbestNCC) <- terminated (view_best fuel Ref Refmean Refstd index) ;;
ret (sum_depthmap_NCC globDepth globN devDepth devbestNCC (nccthresh cfg) w h).

(** *** [PlaneSweep::RunAlgorithm] *)

(** [int nimgs = std::min(std::max((int)numberimages, 1), (int)HostSrc.size());] *)
Definition nimgs : Z :=
Z.min (Z.max (to_int (numberimages cfg)) 1)
      (to_int (Z.of_nat (length (HostSrc cfg)))).

(** The windowed mean and standard deviation of the reference image. *)
Definition reference_statistics (deviceRef : Image F) : Image F * Image F :=
let w := ref_width in
let h := ref_height in
let devInter1 := windowed_mean_column kernels deviceRef (winsize cfg) false w h in
let deviceRefmean := windowed_mean_row kernels devInter1 (winsize cfg) false w h in
let devInter1 := windowed_mean_column kernels deviceRef (winsize cfg) true w h in
let deviceRefstd := windowed_mean_row kernels devInter1 (winsize cfg) false w h in
(deviceRefmean, calculate_STD kernels deviceRefmean deviceRefstd w h).

Definition RunAlgorithm (fuel : nat) : Run bool :=
let w := ref_width in
let h := ref_height in
assign (set_depthmap (reset fzero w h)) ;;
try_catch
  (r <- cudaDevInit ;;
   match r with
   | NO_CUDA_DEVICE => cudaReset ;; ret false
   | Device _ =>
       _ <- Image_new w h ;;
       deviceRef <- copyFrom B_HostRef (data (image (HostRef cfg))) ;;
       Images_new 3 w h ;;       (* deviceRefmean, deviceRefstd, devInter1 *)
       let '(deviceRefmean, deviceRefstd) := reference_statistics deviceRef in
       devDepthmap <- Image_new w h ;;
       devN <- Image_new w h ;;
       '(devDepthmap, devN) <-
         for_each (seq 0 (Z.to_nat nimgs))
           (fun i '(globDepth, globN) =>
              PlaneSweepThread fuel globDepth globN
                deviceRef deviceRefmean deviceRefstd i)
           (devDepthmap, devN) ;;
       let devDepthmap := element_rdivide devDepthmap devN w h in
       let devDepthmap := set_QNAN_value devDepthmap (zfar cfg) w h in
       cuda cudaPeekAtLastError ;;
       cuda (cudaMemcpy (DeviceToHost B_depthmap)) ;;
       assign (set_depthmap (mkImage w h devDepthmap)) ;;
       assign (fun o =>
                 set_depthmap8u
                   (ConvertDepthtoUChar (znear cfg) (zfar cfg) (depthmap o)) o) ;;
       assign (set_depthavailable true) ;;
       ret true
   end)
  (cudaReset ;; ret false).

(** *** [PlaneSweep::Denoise]

  The function compiles only with OpenCV at hand; [cv::denoise_TVL1]
  fills the buffer of [depthmap8udenoised] from that of [depthmap8u]. *)
Definition Denoise (niter : nat) (lambda : D) : Run bool :=
available <- member depthavailable ;;
if available then
  raw <- member depthmap ;;
  assign (set_depthmap8udenoised (reset (Some 0%Z) (width raw) (height raw))) ;;
  assign (fun o =>
            set_depthmap8udenoised
              (mkImage (width raw) (height raw)
                 (cv_denoise_TVL1 kernels (data (depthmap8u o)) lambda niter)) o) ;;
  ret true
else ret false.

(** *** [PlaneSweep::CudaDenoise] *)

(** [double currsigma = i == 0 ? 1 + sigma : sigma;] *)
Definition currsigma (sigma : D) (i : nat) : D :=
if i =? 0 then fadd (of_int 1) sigma else sigma.

(** One turn of the loop of [CudaDenoise], on the buffers
  [(d_depthmap, R, (Px, Py))]. *)
Definition TVL1_iteration (T : Tensor) (rawInput : Image F)
  (lambda tau sigma theta : D) (w h : nat) (i : nat)
  (st : Image F * Image F * (Image F * Image F))
  : Image F * Image F * (Image F * Image F) :=
let '(x, Rb, (Px, Py)) := st in
let '(Px, Py) :=
  denoising_TVL1_calculateP_tensor_weighed kernels Px Py T x
    (currsigma sigma i) w h in
let '(x, Rb) :=
  denoising_TVL1_update kernels x Rb Px Py rawInput tau theta lambda sigma w h in
(x, Rb, (Px, Py)).

(** [for (unsigned int i = 0; i < niters; i++) ...] *)
Definition TVL1_loop (T : Tensor) (rawInput : Image F)
  (niters : nat) (lambda tau sigma theta : D) (w h : nat)
  (st : Image F * Image F * (Image F * Image F))
  : Image F * Image F * (Image F * Image F) :=
for_range niters (TVL1_iteration T rawInput lambda tau sigma theta w h) st.

Definition CudaDenoise (niters : nat) (lambda tau sigma theta beta gamma : D)
  : Run bool :=
available <- member depthavailable ;;
if available then
  try_catch
    (r <- cudaDevInit ;;
     match r with
     | NO_CUDA_DEVICE => cudaReset ;; ret false
     | Device _ =>
         raw <- member depthmap ;;
         let h := height raw in
         let w := width raw in
         cuda cudaFree ;;
         cuda cudaMalloc ;;                          (* cudaMallocPitch *)
         assign (set_d_depthmap allocated) ;;
         assign (set_depthmapdenoised (reset fzero w h)) ;;
         assign (set_depthmap8udenoised (reset (Some 0%Z) w h)) ;;
         Rb <- Image_new w h ;;
         Px <- Image_new w h ;;
         Py <- Image_new w h ;;
         Images_new 6 w h ;;           (* rawInput, T11, T12, T21, T22, ref *)
         ref <- copyFrom B_HostRef (data (image (HostRef cfg))) ;;
         x <- copyFrom B_depthmap (data raw) ;;      (* into d_depthmap *)
         rawInput <- copyFrom B_depthmap (data raw) ;;
         let ref := element_scale ref (fdiv (of_int 1) (of_int 255)) w h in
         let T := Anisotropic_diffusion_tensor kernels ref beta gamma w h in
         let x := element_add x (fopp (znear cfg)) w h in
         let rawInput := element_add rawInput (fopp (znear cfg)) w h in
         let xscale : D :=
           to_double (fdiv (of_int 1) (fsub (zfar cfg) (znear cfg))) in
         let inputscale : D :=
           fdiv (fopp sigma) (to_double (fsub (zfar cfg) (znear cfg))) in
         let x := element_scale x (to_float xscale) w h in
         let rawInput := element_scale rawInput (to_float inputscale) w h in
         let '(x, _, _) :=
           TVL1_loop T rawInput niters lambda tau sigma theta w h
             (x, Rb, (Px, Py)) in
         let x := element_scale x (fsub (zfar cfg) (znear cfg)) w h in
         let x := element_add x (znear cfg) w h in
         cuda (cudaMemcpy (DeviceToHost B_depthmapdenoised)) ;;
         assign (set_depthmapdenoised (mkImage w h x)) ;;
         assign (fun o =>
                   set_depthmap8udenoised
                     (ConvertDepthtoUChar (znear cfg) (zfar cfg)
                        (depthmapdenoised o)) o) ;;
         ret true
     end)
    (cudaReset ;; ret false)
else ret false.

(** *** [PlaneSweep::TGV] *)

(** What the refiner keeps of one source view: the normalized image and
  the relative pose, then the residual [It], its derivative [Iu] and the
  auxiliary variable [r] of the current warp. *)
Definition upload_views (n w h : nat)
  : Run (list (Image F * (Matrix3D F * Vector3D F))) :=
for_each (seq 0 n)
  (fun i views =>
     Images_new 4 w h ;;                 (* Src[i], It[i], r[i], Iu[i] *)
     let src := nth i (HostSrc cfg) blank_view in
     Src <- copyFrom (B_HostSrc i) (data (image src)) ;;
     let Src := element_scale Src (fdiv (of_int 1) (of_int 255)) w h in
     ret (views ++
          [(Src, RelativeMatrices (alternativemethod cfg)
                   (R (HostRef cfg)) (t (HostRef cfg)) (R src) (t src))]))
  [].

(** The linearization of one source view around [u0]: [(It, Iu, r)]. *)
Definition TGV_linearize (Ref u0 : Image F) (fx fy : D) (w h : nat)
  (view : Image F * (Matrix3D F * Vector3D F))
  : Image F * Image F * Image F :=
let '(Src, (Rrel, Trel)) := view in
let '(x, y, XYZ) :=
  TGV2_transform_coordinates kernels u0 (K cfg) Rrel Trel (invK cfg) w h in
let dXYZ := TGV2_calculate_coordinate_derivatives kernels (invK cfg) Rrel w h in
let '(dfx, dfy) := TGV2_calculate_derivativeF kernels XYZ dXYZ fx fy w h in
let X := bilinear_interpolation kernels Src x y w h w h in
let Iu := TGV2_calculate_Iu kernels X dfx dfy w h in
let It := subtract X Ref w h in
(It, Iu, set_value fzero w h).

(** [for (int j = 0; j < nimages; j++) TGV2_updateR(r[j], prodsum, ...);] *)
Definition TGV_updateR_all (u u0 : Image F) (sigma lambda : D) (w h : nat)
  (lin : list (Image F * Image F * Image F)) (prodsum : Image F)
  : list (Image F * Image F * Image F) * Image F :=
fold_left
  (fun '(done, prodsum) '(It, Iu, r) =>
     let '(r, prodsum) :=
       TGV2_updateR kernels r prodsum u u0 It Iu sigma lambda w h in
     (done ++ [(It, Iu, r)], prodsum))
  lin ([], prodsum).

Definition TGV_fields : Type :=
((Image F * Image F * Image F) * (Image F * Image F * Image F)
 * (Image F * Image F) * Tensor * list (Image F * Image F * Image F))%type.

(** One primal-dual update of the inner loop. *)
Definition TGV_iteration (T : Tensor) (u0 : Image F)
  (lambda alpha0 alpha1 tau sigma : D) (w h : nat) (i : nat) (st : TGV_fields)
  : TGV_fields :=
let '(us, ubars, P, q, lin) := st in
let '(u, u1x, u1y) := us in
let '(ubar, u1xbar, u1ybar) := ubars in
let P := TGV2_updateP_tensor_weighed kernels P T ubar u1xbar u1ybar alpha1 sigma w h in
let q := TGV2_updateQ kernels q u1xbar u1ybar alpha0 sigma w h in
let prodsum := set_value fzero w h in
let '(lin, prodsum) := TGV_updateR_all u u0 sigma lambda w h lin prodsum in
let '(us, ubars) :=
  TGV2_updateU_tensor_weighed kernels (u, u1x, u1y) T (ubar, u1xbar, u1ybar)
    P q prodsum alpha0 alpha1 tau lambda w h in
(us, ubars, P, q, lin).

(** One warp: the fields other than [u] are reset, every view is
  linearized around the current [u], and [niters] updates follow. *)
Definition TGV_warp (T : Tensor) (Ref : Image F)
  (views : list (Image F * (Matrix3D F * Vector3D F)))
  (niters : nat) (lambda alpha0 alpha1 tau sigma : D) (fx fy : D) (w h : nat)
  (u : Image F) : Image F :=
let u0 := u in
let ubar := u in
let zero := set_value fzero w h in
let lin := map (TGV_linearize Ref u0 fx fy w h) views in
let '(us, _, _, _, _) :=
  for_range niters (TGV_iteration T u0 lambda alpha0 alpha1 tau sigma w h)
    ((u, zero, zero), (ubar, zero, zero), (zero, zero),
     (zero, zero, zero, zero), lin) in
let '(u, _, _) := us in
u.

Definition TGV (niters warps : nat) (lambda alpha0 alpha1 tau sigma beta gamma : D)
  : Run bool :=
try_catch
  (r <- cudaDevInit ;;
   match r with
   | NO_CUDA_DEVICE => cudaReset ;; ret false
   | Device _ =>
       let h := ref_height in
       let w := ref_width in
       assign (set_depthmapTGV (reset fzero w h)) ;;
       assign (set_depthmap8uTGV (reset (Some 0%Z) w h)) ;;
       Images_new 29 w h ;;
       let nimages := nimgs in
       let u := set_value fone w h in
       cuda (cudaMemcpy DeviceToDevice) ;;           (* ubar = u *)
       Ref <- copyFrom B_HostRef (data (image (HostRef cfg))) ;;
       let Ref := element_scale Ref (fdiv (of_int 1) (of_int 255)) w h in
       let T := Anisotropic_diffusion_tensor kernels Ref beta gamma w h in
       let fx := to_double (m00 (K cfg)) in
       let fy := to_double (m11 (K cfg)) in
       views <- upload_views (Z.to_nat nimages) w h ;;
       u <- for_each (seq 0 warps)
              (fun l u =>
                 cuda (cudaMemcpy DeviceToDevice) ;;  (* u0.copyFrom(u) *)
                 cuda (cudaMemcpy DeviceToDevice) ;;  (* ubar.copyFrom(u) *)
                 ret (TGV_warp T Ref views niters lambda alpha0 alpha1 tau sigma
                        fx fy w h u))
              u ;;
       cuda (cudaMemcpy (DeviceToHost B_depthmapTGV)) ;;
       assign (set_depthmapTGV (mkImage w h u)) ;;
       assign (fun o =>
                 set_depthmap8uTGV
                   (ConvertDepthtoUChar (znear cfg) (zfar cfg) (depthmapTGV o)) o) ;;
       ret true
   end)
  (cudaReset ;; ret false).

(** *** [PlaneSweep::get3Dcoordinates]

  The function is [void]: on success the three pointers of the caller
  are made to point at [coord_x], [coord_y] and [coord_z]. *)
Definition get3Dcoordinates : Run unit :=
try_catch
  (let '(Rr, tw) :=
     RelativeMatrices (alternativemethod cfg)
       (R (HostRef cfg)) (t (HostRef cfg))
       makeIdentity (mkV (of_int 0) (of_int 0) (of_int 0)) in
   let w := ref_width in
   let h := ref_height in
   Px <- Image_new w h ;;
   Py <- Image_new w h ;;
   _ <- Image_new w h ;;
   denoised <- member depthmapdenoised ;;
   X <- copyFrom B_depthmapdenoised (data denoised) ;;
   let '(Px, Py, X) := compute3D kernels (Px, Py, X) Rr tw (invK cfg) w h in
   assign (set_coord_x (reset fzero w h)) ;;
   assign (set_coord_y (reset fzero w h)) ;;
   assign (set_coord_z (reset fzero w h)) ;;
   cuda (cudaMemcpy (DeviceToHost B_coord_x)) ;;
   assign (set_coord_x (mkImage w h Px)) ;;
   cuda (cudaMemcpy (DeviceToHost B_coord_y)) ;;
   assign (set_coord_y (mkImage w h Py)) ;;
   cuda (cudaMemcpy (DeviceToHost B_coord_z)) ;;
   assign (set_coord_z (mkImage w h X)) ;;
   ret tt)
  (cudaReset ;; ret tt).

(** *** [PlaneSweep::TGVdenoiseFromSparse] *)

Definition sparse_fields : Type :=
(Image F * (Image F * Image F * Image F) * (Image F * Image F) * Tensor)%type.

Definition sparse_iteration (T : Tensor) (weights Ds : Image F)
  (alpha0 alpha1 tau sigma theta : D) (w h : nat) (i : nat) (st : sparse_fields)
  : sparse_fields :=
let '(d, bars, p, q) := st in
let '(ubar, vxbar, vybar) := bars in
let p := TGV2_updateP_tensor_weighed kernels p T d vxbar vybar alpha1 sigma w h in
let q := TGV2_updateQ kernels q vxbar vybar alpha0 sigma w h in
let '(d, bars) :=
  TGV2_updateU_sparseDepthTensor kernels d (ubar, vxbar, vybar) T p q weights Ds
    alpha0 alpha1 tau theta w h in
(d, bars, p, q).

Definition TGVdenoiseFromSparse (depth : CamImage F) (niters : nat)
  (alpha0 alpha1 tau sigma theta beta gamma : D) : Run bool :=
try_catch
  (r <- cudaDevInit ;;
   match r with
   | NO_CUDA_DEVICE => cudaReset ;; ret false
   | Device _ =>
       let h := ref_height in
       let w := ref_width in
       assign (set_depthmapTGV (reset fzero w h)) ;;
       Images_new 18 w h ;;
       cuda cudaFree ;;
       cuda cudaMalloc ;;                            (* cudaMallocPitch *)
       assign (set_d_depthmap allocated) ;;
       Ds <- copyFrom B_depth (data depth) ;;
       let weights := calculateWeights_sparseDepth kernels Ds w h in
       let Ds := element_scale Ds (fdiv (of_int 1) (zfar cfg)) w h in
       raw <- member depthmap ;;
       ubar <- copyFrom B_depthmap (data raw) ;;
       let ubar := element_scale ubar (fdiv (of_int 1) (zfar cfg)) w h in
       cuda (cudaMemcpy DeviceToDevice) ;;           (* d_depthmap <- ubar *)
       let d := ubar in
       ref <- copyFrom B_HostRef (data (image (HostRef cfg))) ;;
       let ref := element_scale ref (fdiv (of_int 1) (of_int 255)) w h in
       let T := Anisotropic_diffusion_tensor kernels ref beta gamma w h in
       let zero := repeat fzero (w * h) in
       let '(d, _, _, _) :=
         for_range niters
           (sparse_iteration T weights Ds alpha0 alpha1 tau sigma theta w h)
           (d, (ubar, zero, zero), (zero, zero), (zero, zero, zero, zero)) in
       let d := element_scale d (zfar cfg) w h in
       cuda (cudaMemcpy (DeviceToHost B_depthmapTGV)) ;;
       assign (set_depthmapTGV (mkImage w h d)) ;;
       assign (fun o =>
                 set_depthmap8uTGV
                   (ConvertDepthtoUChar (znear cfg) (zfar cfg) (depthmapTGV o)) o) ;;
       ret true
   end)
  (cudaReset ;; ret false).

End Engine.

Arguments PosedImage F : clear implicits.
Arguments Settings F : clear implicits.
Arguments PlaneSweep F : clear implicits.
Arguments machine F : clear implicits.
Arguments Tensor F : clear implicits.
Arguments Kernels F D : clear implicits.

(** ** Specifications of computations *)

Section Hoare.
Context {St : Type}.

(** [spec m s N E]: run from [s], [m] either returns a value and a state
  that satisfy [N], or throws in a state that satisfies [E], or does not
  return. *)
Definition spec {A} (m : M St A) (s : St) (N : A -> St -> Prop) (E : St -> Prop)
  : Prop :=
match m s with
| (Ok a, s') => N a s'
| (Throw, s') => E s'
| (Hang, _) => True
end.

(** [m] returns or throws: it is not the loop that keeps it from ending. *)
Definition halts {A} (m : M St A) (s : St) : Prop :=
match m s with
| (Hang, _) => False
| _ => True
end.
End Hoare.

Section Observations.
Context {F : Type}.

(** The state after the checked call [c]. *)
Definition logged (c : call) (s : machine F) : machine F :=
let g := gpu s in
mkMachine (obj s)
  (mkDevice (dev_count g) (tl (faults g))
     ((c, negb (hd false (faults g))) :: log g)).

(** The source views copied to the device, in the order of the copies. *)
Fixpoint uploaded_views (l : list (call * bool)) : list nat :=
match l with
| [] => []
| (cudaMemcpy (HostToDevice (B_HostSrc i)), true) :: l' => uploaded_views l' ++ [i]
| _ :: l' => uploaded_views l'
end.

(** The source view a checked call copies to the device, if it is such a
  copy. *)
Definition uploads (c : call) : list nat :=
match c with
| cudaMemcpy (HostToDevice (B_HostSrc i)) => [i]
| _ => []
end.

Definition views_of (s : machine F) : list nat := uploaded_views (log (gpu s)).

(** The last checked call and its success. *)
Definition last_call (s : machine F) : option (call * bool) := hd_error (log (gpu s)).
End Observations.

(** ** What a plane sweep aggregates *)

Section Aggregation.
Context {F D : Type} {AF : Arith F}.
Variable kernels : Kernels F D.
Variable cfg : Settings F.
Variable fuel : nat.

(** The best depth and the best score of source view [i], as
  [RunAlgorithm] has [PlaneSweepThread] compute them: against the
  reference image and its windowed statistics. *)
Definition view_result (i : nat) : Image F * Image F :=
let deviceRef := data (image (HostRef cfg)) in
let stats := reference_statistics kernels cfg deviceRef in
match view_best kernels cfg fuel deviceRef (fst stats) (snd stats) i with
| Some best => best
| None => ([], [])
end.

(** View [i] votes at pixel [p]: its best NCC there exceeds [nccthresh]. *)
Definition votes (p i : nat) : bool :=
fltb (nccthresh cfg) (px (snd (view_result i)) p).

Definition views_used : list nat := seq 0 (Z.to_nat (nimgs cfg)).

Definition voters (p : nat) : list nat := filter (votes p) views_used.

(** The sum of the winning depths of the voters, and their count, both
  accumulated in [float] in the order of the views. *)
Definition depth_sum (p : nat) : F :=
fold_left (fun acc i => fadd acc (px (fst (view_result i)) p)) (voters p) fzero.

Definition vote_count (p : nat) : F :=
fold_left (fun acc _ => fadd acc fone) (voters p) fzero.

(** The buffers [devDepthmap] and [devN] after the views of [l]. *)
Definition accumulate (acc : Image F * Image F) (i : nat) : Image F * Image F :=
sum_depthmap_NCC (fst acc) (snd acc)
  (fst (view_result i)) (snd (view_result i))
  (nccthresh cfg) (ref_width cfg) (ref_height cfg).

Definition accumulated (l : list nat) : Image F * Image F :=
fold_left accumulate l
  (repeat fzero (ref_width cfg * ref_height cfg),
   repeat fzero (ref_width cfg * ref_height cfg)).

(** The depth map a completed sweep exports. *)
Definition swept_depthmap : CamImage F :=
let w := ref_width cfg in
let h := ref_height cfg in
let acc := accumulated views_used in
mkImage w h
  (set_QNAN_value (element_rdivide (fst acc) (snd acc) w h) (zfar cfg) w h).
End Aggregation.

(** ** Sample inputs *)

Module Sample.

Section Generic.
Context {F D : Type} {AF : Arith F}.

(** Kernels that hand back the first buffer they are given: one
  instance of the arbitrary kernels, under which the NCC image of
  every depth hypothesis is the reference image itself. *)
Definition passthrough : Kernels F D :=
mkKernels
  (fun a _ _ _ _ => a)
  (fun a _ _ _ _ => a)
  (fun a _ _ _ => a)
  (fun _ w h => (repeat fzero (w * h), repeat fzero (w * h)))
  (fun a _ _ _ _ _ _ => a)
  (fun a _ _ _ => a)
  (fun a _ _ _ _ _ _ _ _ => a)
  (fun a _ _ _ _ => (a, a, a, a))
  (fun a b _ _ _ _ _ => (a, b))
  (fun a b _ _ _ _ _ _ _ _ _ => (a, b))
  (fun a _ _ _ _ _ _ => (a, a, (a, a, a)))
  (fun _ _ w h => (repeat fzero (w * h), repeat fzero (w * h), repeat fzero (w * h)))
  (fun _ _ _ _ w h => (repeat fzero (w * h), repeat fzero (w * h)))
  (fun a _ _ _ _ => a)
  (fun p _ _ _ _ _ _ _ _ => p)
  (fun q _ _ _ _ _ _ => q)
  (fun r prodsum _ _ _ _ _ _ _ _ => (r, prodsum))
  (fun us _ ubars _ _ _ _ _ _ _ _ _ => (us, ubars))
  (fun a _ _ => a)
  (fun d bars _ _ _ _ _ _ _ _ _ _ _ => (d, bars))
  (fun x _ _ _ _ _ => x)
  (fun l _ _ => l).

(** A camera at the origin looking down the axis, with the given
  pixels in one row. *)
Definition view (pixels : list F) : PosedImage F :=
mkPosed (mkImage (length pixels) 1 pixels) makeIdentity
  (mkV fzero fzero fzero).

(** An engine that has computed nothing yet, and one whose raw depth
  map is the given row. *)
Definition new_engine : PlaneSweep F :=
mkPlaneSweep false
  (reset fzero 0 0) (reset None 0 0)
  (reset fzero 0 0) (reset None 0 0)
  (reset fzero 0 0) (reset None 0 0)
  (reset fzero 0 0) (reset fzero 0 0) (reset fzero 0 0) null.

Definition engine_with_depth (znear zfar : F) (depths : list F) : PlaneSweep F :=
let raw := mkImage (length depths) 1 depths in
set_depthavailable true
  (set_depthmap8u (ConvertDepthtoUChar znear zfar raw)
     (set_depthmap raw new_engine)).

(** A machine with [n] devices on which every call succeeds, and one on
  which the calls fail as listed. *)
Definition healthy (n : nat) (o : PlaneSweep F) : machine F :=
mkMachine o (mkDevice n [] []).

Definition faulty (n : nat) (fs : list bool) (o : PlaneSweep F) : machine F :=
mkMachine o (mkDevice n fs []).

(** The options of the end-to-end scenario of the specification: depth
  range [znear, zfar], 16 hypotheses, a 5x5 window. *)
Definition scenario (znear zfar nccthresh stdthresh : F)
  (ref : list F) (srcs : list (list F)) : Settings F :=
mkSettings (view ref) (map view srcs) makeIdentity makeIdentity
  znear zfar 16 (Z.of_nat (length srcs)) 5 nccthresh stdthresh false.
End Generic.

(** The scenario in [float]: depths from 1.0 to 5.0, threshold 0.9, a
  reference row of two pixels of intensities 7 and 0, one source view. *)
Definition f32 (n d : Z) : spec_float := IEEE.lit32 n d.

Definition scenario32 : Settings spec_float :=
scenario (AF := IEEE.binary32) (f32 1 1) (f32 5 1) (f32 9 10) (f32 1 100)
  [f32 7 1; f32 0 1] [[f32 7 1; f32 0 1]].

Definition kernels32 : Kernels spec_float spec_float :=
passthrough (AF := IEEE.binary32).

Definition start32 : machine spec_float :=
healthy 1 (new_engine (AF := IEEE.binary32)).

(** The same scenario in exact arithmetic. *)
Definition xq (n d : Z) : Exact.xnum :=
Some (Q2Qc (Qmake n (Z.to_pos d))).

Definition scenarioQ : Settings Exact.xnum :=
scenario (AF := Exact.arith) (xq 1 1) (xq 5 1) (xq 9 10) (xq 1 100)
  [xq 7 1; xq 0 1] [[xq 7 1; xq 0 1]].

End Sample.

(** ** Poses in exact arithmetic *)

Section PoseReadings.
Context {T : Type} {AT : Arith T}.

Definition vopp (v : Vector3D T) : Vector3D T :=
  mkV (fopp (vx v)) (fopp (vy v)) (fopp (vz v)).

(** The pose that undoes [(R, t)] when [R] is a rotation: [(Rᵗ, -Rᵗ t)]. *)
Definition pose_inverse (Rm : Matrix3D T) (tv : Vector3D T) : Matrix3D T * Vector3D T :=
  (trans Rm, vopp (mvmul (trans Rm) tv)).

(** A matrix whose rows are orthonormal: [R Rᵗ = I]. *)
Definition orthonormal (Rm : Matrix3D T) : Prop :=
  mmul Rm (trans Rm) = makeIdentity.
End PoseReadings.

Definition vmap {A B : Type} (f : A -> B) (v : Vector3D A) : Vector3D B :=
  mkV (f (vx v)) (f (vy v)) (f (vz v)).

Definition mmap {A B : Type} (f : A -> B) (a : Matrix3D A) : Matrix3D B :=
  mkM (f (m00 a)) (f (m01 a)) (f (m02 a))
      (f (m10 a)) (f (m11 a)) (f (m12 a))
      (f (m20 a)) (f (m21 a)) (f (m22 a)).

(** A matrix and a vector of rationals, read in exact arithmetic. *)
Definition exactM (a : Matrix3D Qc) : Matrix3D Exact.xnum := mmap Some a.
Definition exactV (v : Vector3D Qc) : Vector3D Exact.xnum := vmap Some v.

(** ** Sample poses *)

Module SamplePose.

(** Rationals as exact numbers. *)
Definition q (n d : Z) : Qc := Q2Qc (Qmake n (Z.to_pos d)).

(** The identity and a turn about the optical axis by the angle of the
    3-4-5 triangle, both rotations with rational entries. *)
Definition eye : Matrix3D Qc :=
  mkM (q 1 1) (q 0 1) (q 0 1)
      (q 0 1) (q 1 1) (q 0 1)
      (q 0 1) (q 0 1) (q 1 1).

Definition turn : Matrix3D Qc :=
  mkM (q 3 5) (q (-4) 5) (q 0 1)
      (q 4 5) (q 3 5) (q 0 1)
      (q 0 1) (q 0 1) (q 1 1).

Definition origin : Vector3D Qc := mkV (q 0 1) (q 0 1) (q 0 1).
Definition right1 : Vector3D Qc := mkV (q 1 1) (q 0 1) (q 0 1).
Definition up2 : Vector3D Qc := mkV (q 0 1) (q 2 1) (q 1 2).

(** The same identity and unit step in [float]. *)
Definition eye32 : Matrix3D spec_float := makeIdentity (AT := IEEE.binary32).
Definition origin32 : Vector3D spec_float :=
  mkV (IEEE.lit32 0 1) (IEEE.lit32 0 1) (IEEE.lit32 0 1).
Definition right32 : Vector3D spec_float :=
  mkV (IEEE.lit32 1 1) (IEEE.lit32 0 1) (IEEE.lit32 0 1).

End SamplePose.

(** ** What the TVL1 denoiser computes *)

Section Denoising.
Context {F D : Type} {AF : Arith F} {AD : Arith D} {W : Widen F D}.
Variable kernels : Kernels F D.
Variable cfg : Settings F.

(** The step sizes of the dual updates of [niters] iterations: the first is
    [1 + sigma], every later one [sigma]. *)
Definition dual_steps (sigma : D) (niters : nat) : list D :=
  match niters with
  | O => []
  | S later => fadd (of_int 1) sigma :: repeat sigma later
  end.

(** One primal-dual iteration with the dual step size [dual]. *)
Definition TVL1_step (T : Tensor F) (rawInput : Image F)
    (lambda tau sigma theta : D) (w h : nat)
    (st : Image F * Image F * (Image F * Image F)) (dual : D)
    : Image F * Image F * (Image F * Image F) :=
  let '(x, Rb, (Px, Py)) := st in
  let '(Px, Py) :=
    denoising_TVL1_calculateP_tensor_weighed kernels Px Py T x dual w h in
  let '(x, Rb) :=
    denoising_TVL1_update kernels x Rb Px Py rawInput tau theta lambda sigma w h in
  (x, Rb, (Px, Py)).

(** The depth map on its way into the iterations (shifted by [-znear] and
    scaled by [1/(zfar - znear)]) and on its way out. *)
Definition normalized (raw : CamImage F) : Image F :=
  let w := width raw in
  let h := height raw in
  element_scale (element_add (data raw) (fopp (znear cfg)) w h)
    (to_float (to_double (fdiv (of_int 1) (fsub (zfar cfg) (znear cfg))))) w h.

Definition denormalized (x : Image F) (w h : nat) : Image F :=
  element_add (element_scale x (fsub (zfar cfg) (znear cfg)) w h) (znear cfg) w h.

Definition TVL1_tensor (beta gamma : D) (w h : nat) : Tensor F :=
  Anisotropic_diffusion_tensor kernels
    (element_scale (data (image (HostRef cfg))) (fdiv (of_int 1) (of_int 255)) w h)
    beta gamma w h.

Definition TVL1_rawInput (raw : CamImage F) (sigma : D) : Image F :=
  let w := width raw in
  let h := height raw in
  element_scale (element_add (data raw) (fopp (znear cfg)) w h)
    (to_float (fdiv (fopp sigma) (to_double (fsub (zfar cfg) (znear cfg))))) w h.

(** The refined depth map a completed run of [CudaDenoise] exports. *)
Definition denoised_depthmap (niters : nat) (lambda tau sigma theta beta gamma : D)
    (raw : CamImage F) : CamImage F :=
  let w := width raw in
  let h := height raw in
  let blank := repeat fzero (w * h) in
  let st :=
    fold_left
      (TVL1_step (TVL1_tensor beta gamma w h) (TVL1_rawInput raw sigma)
         lambda tau sigma theta w h)
      (dual_steps sigma niters)
      (normalized raw, blank, (blank, blank)) in
  mkImage w h (denormalized (fst (fst st)) w h).
End Denoising.

(** ** What a failed stage leaves behind *)

Section Frames.
Context {F : Type} {AF : Arith F}.
Implicit Types o : PlaneSweep F.

Definition same_raw o o' : Prop :=
  depthavailable o' = depthavailable o
  /\ depthmap o' = depthmap o
  /\ depthmap8u o' = depthmap8u o.

Definition same_denoised o o' : Prop :=
  depthmapdenoised o' = depthmapdenoised o
  /\ depthmap8udenoised o' = depthmap8udenoised o.

Definition same_TGV o o' : Prop :=
  depthmapTGV o' = depthmapTGV o
  /\ depthmap8uTGV o' = depthmap8uTGV o.

Definition same_coords o o' : Prop :=
  coord_x o' = coord_x o /\ coord_y o' = coord_y o /\ coord_z o' = coord_z o.

(** A buffer is as it was, or has been emptied. *)
Definition kept_or_emptied {T : Type} (blank : T) (w h : nat) (old new : CamImage T)
    : Prop :=
  new = old \/ new = reset blank w h.

(** After a failed [RunAlgorithm]: the raw depth map is empty, everything
    else is as it was. *)
Definition after_failed_RunAlgorithm (cfg : Settings F) o o' : Prop :=
  depthmap o' = reset fzero (ref_width cfg) (ref_height cfg)
  /\ depthavailable o' = depthavailable o
  /\ depthmap8u o' = depthmap8u o
  /\ same_denoised o o' /\ same_TGV o o' /\ same_coords o o'.

(** After a failed [CudaDenoise]: the two denoised buffers are as they were
    or empty, everything else is as it was. *)
Definition after_failed_CudaDenoise o o' : Prop :=
  same_raw o o' /\ same_TGV o o' /\ same_coords o o'
  /\ kept_or_emptied fzero (width (depthmap o)) (height (depthmap o))
       (depthmapdenoised o) (depthmapdenoised o')
  /\ kept_or_emptied (Some 0%Z) (width (depthmap o)) (height (depthmap o))
       (depthmap8udenoised o) (depthmap8udenoised o').

(** After a failed [TGV]: the two TGV buffers are as they were or empty. *)
Definition after_failed_TGV (cfg : Settings F) o o' : Prop :=
  same_raw o o' /\ same_denoised o o' /\ same_coords o o'
  /\ kept_or_emptied fzero (ref_width cfg) (ref_height cfg)
       (depthmapTGV o) (depthmapTGV o')
  /\ kept_or_emptied (Some 0%Z) (ref_width cfg) (ref_height cfg)
       (depthmap8uTGV o) (depthmap8uTGV o').

(** After a failed [TGVdenoiseFromSparse]: the TGV depth map is as it was
    or empty, its 8-bit image and everything else are as they were. *)
Definition after_failed_sparse (cfg : Settings F) o o' : Prop :=
  same_raw o o' /\ same_denoised o o' /\ same_coords o o'
  /\ depthmap8uTGV o' = depthmap8uTGV o
  /\ kept_or_emptied fzero (ref_width cfg) (ref_height cfg)
       (depthmapTGV o) (depthmapTGV o').
End Frames.

(** ** Sample inputs of the denoiser *)

Module SampleDenoise.

(** A [double] literal. *)
Definition f64 (n d : Z) : spec_float :=
  SFdiv 53 1024 (IEEE.of_Z 53 1024 n) (IEEE.of_Z 53 1024 d).

(** Depths from 0.1 to 1.0 in [float], and an engine whose raw depth map
    is the single pixel 0.7. *)
Definition settings32 : Settings spec_float :=
  Sample.scenario (AF := IEEE.binary32)
    (Sample.f32 1 10) (Sample.f32 1 1) (Sample.f32 9 10) (Sample.f32 1 100)
    [Sample.f32 7 1] [[Sample.f32 7 1]].

Definition start32 : machine spec_float :=
  Sample.healthy 1
    (Sample.engine_with_depth (AF := IEEE.binary32)
       (Sample.f32 1 10) (Sample.f32 1 1) [Sample.f32 7 10]).

(** [CudaDenoise] in [float] and [double], with the step sizes
    [lambda = 1], [tau = 1/50], [sigma = 8], [theta = 1] and the tensor
    parameters [beta = 4], [gamma = 1/2]. *)
Definition denoise32 (niters : nat) : M (machine spec_float) bool :=
  CudaDenoise (AF := IEEE.binary32) (AD := IEEE.binary64) (W := IEEE.widen)
    Sample.kernels32 settings32 niters
    (f64 1 1) (f64 1 50) (f64 8 1) (f64 1 1) (f64 4 1) (f64 1 2).

(** The same in exact arithmetic. *)
Definition kernelsQ : Kernels Exact.xnum Exact.xnum :=
  Sample.passthrough (AF := Exact.arith).

Definition settingsQ : Settings Exact.xnum :=
  Sample.scenario (AF := Exact.arith)
    (Sample.xq 1 10) (Sample.xq 1 1) (Sample.xq 9 10) (Sample.xq 1 100)
    [Sample.xq 7 1] [[Sample.xq 7 1]].

Definition startQ : machine Exact.xnum :=
  Sample.healthy 1
    (Sample.engine_with_depth (AF := Exact.arith)
       (Sample.xq 1 10) (Sample.xq 1 1) [Sample.xq 7 10]).

Definition denoiseQ (niters : nat) : M (machine Exact.xnum) bool :=
  CudaDenoise (AF := Exact.arith) (AD := Exact.arith) (W := Exact.widen)
    kernelsQ settingsQ niters
    (Sample.xq 1 1) (Sample.xq 1 50) (Sample.xq 8 1) (Sample.xq 1 1)
    (Sample.xq 4 1) (Sample.xq 1 2).

End SampleDenoise.

(** ** Readings of the quantization *)

(** The pixel indices in the order the two loops visit them. *)
Definition visit_order (w h : nat) : list nat :=
  flat_map (fun x => map (fun y => x + y * w) (seq 0 h)) (seq 0 w).


(** ** Sample failures *)

Module SampleFailure.

(** An engine that holds the depth map of the scenario (depth 2.0 at both
    pixels), on a machine without any device. *)
Definition swept32 : PlaneSweep spec_float :=
  Sample.engine_with_depth (AF := IEEE.binary32)
    (Sample.f32 1 1) (Sample.f32 5 1) [Sample.f32 2 1; Sample.f32 2 1].

Definition no_device32 : machine spec_float := Sample.healthy 0 swept32.

(** The scenario with [numberimages = 1] and no source view at all. *)
Definition no_sources32 : Settings spec_float :=
  mkSettings
    (Sample.view (AF := IEEE.binary32) [Sample.f32 7 1; Sample.f32 0 1]) []
    (makeIdentity (AT := IEEE.binary32)) (makeIdentity (AT := IEEE.binary32))
    (Sample.f32 1 1) (Sample.f32 5 1) 16 1 5 (Sample.f32 9 10) (Sample.f32 1 100)
    false.

(** A machine whose first two device calls fail: the one the stage makes
    first, and the [cudaDeviceReset] of its handler. *)
Definition reset_fails32 : machine spec_float :=
  Sample.faulty 0 [true; true] swept32.

(** [RunAlgorithm] on the scenario and on the scenario without source
    views. *)
Definition sweep32 : M (machine spec_float) bool :=
  RunAlgorithm (AF := IEEE.binary32) Sample.kernels32 Sample.scenario32 32.

Definition sweep_no_sources32 : M (machine spec_float) bool :=
  RunAlgorithm (AF := IEEE.binary32) Sample.kernels32 no_sources32 32.

End SampleFailure.

(** ** Runs on which no runtime call fails *)

Section Faultless.
Context {F : Type}.

(** A machine with [n] devices on which every checked call to come
    succeeds. *)
Definition faultless (n : nat) (s : machine F) : Prop :=
  faults (gpu s) = [] /\ dev_count (gpu s) = n.

(** From every such machine [m] returns, with a value that satisfies [P] and
    on such a machine again. *)
Definition returns_on {A : Type} (n : nat) (m : M (machine F) A) (P : A -> Prop)
    : Prop :=
  forall s, faultless n s ->
    match m s with
    | (Ok a, s') => P a /\ faultless n s'
    | _ => False
    end.
End Faultless.
(** ** What a stage writes *)

Section Keeps.
Context {F : Type}.
Implicit Types o : PlaneSweep F.

(** Whatever [m] comes to, a value or an exception, the engine it leaves is
    related by [R] to the engine it found. *)
Definition keeps {A : Type} (R : PlaneSweep F -> PlaneSweep F -> Prop)
    (m : M (machine F) A) : Prop :=
  forall s : machine F,
    match m s with
    | (Ok _, s') => R (obj s) (obj s')
    | (Throw, s') => R (obj s) (obj s')
    | (Hang, _) => True
    end.

(** The outputs of the refinement stages are as they were, and a raw depth
    map that was available still is. *)
Definition refined_kept o o' : Prop :=
  same_denoised o o' /\ same_TGV o o' /\ same_coords o o'
  /\ (depthavailable o = true -> depthavailable o' = true).

(** Everything but the two denoised buffers is as it was. *)
Definition denoised_written o o' : Prop :=
  same_raw o o' /\ same_TGV o o' /\ same_coords o o'.

(** Everything but the 8-bit denoised image is as it was. *)
Definition denoised8u_written o o' : Prop :=
  same_raw o o' /\ depthmapdenoised o' = depthmapdenoised o
  /\ same_TGV o o' /\ same_coords o o'.

(** Everything but the two TGV buffers is as it was. *)
Definition TGV_written o o' : Prop :=
  same_raw o o' /\ same_denoised o o' /\ same_coords o o'.

(** Everything but the three coordinate images is as it was. *)
Definition coords_written o o' : Prop :=
  same_raw o o' /\ same_denoised o o' /\ same_TGV o o'.
End Keeps.

(** ** The values the depth loop goes through *)

Section DepthValues.
Context {F : Type} {AF : Arith F}.
Variable cfg : Settings F.

(** The value of [d] after [k] turns of the loop of [PlaneSweepThread]:
    [znear], to which [dstep] has been added [k] times. *)
Definition depth_after (k : nat) : F :=
  Nat.iter k (fun d => fadd d (dstep cfg)) (znear cfg).

(** [d <= zfar], the test of the loop. *)
Definition in_range (d : F) : Prop := fleb d (zfar cfg) = true.
End DepthValues.

(** A configuration whose depth range is the single depth 2.0. *)
Module SampleLoop.

Definition flat32 : Settings spec_float :=
  Sample.scenario (AF := IEEE.binary32)
    (Sample.f32 2 1) (Sample.f32 2 1) (Sample.f32 9 10) (Sample.f32 1 100)
    [Sample.f32 7 1; Sample.f32 0 1] [[Sample.f32 7 1; Sample.f32 0 1]].

(** Depths from 1.0 to 2.0 in [2^25] steps of [2^-25], a quarter of the distance from
    1.0 to the next [float]. *)
Definition fine32 : Settings spec_float :=
  mkSettings
    (Sample.view (AF := IEEE.binary32) [Sample.f32 7 1; Sample.f32 0 1])
    [Sample.view (AF := IEEE.binary32) [Sample.f32 7 1; Sample.f32 0 1]]
    (makeIdentity (AT := IEEE.binary32)) (makeIdentity (AT := IEEE.binary32))
    (Sample.f32 1 1) (Sample.f32 2 1) 33554433 1 5
    (Sample.f32 9 10) (Sample.f32 1 100) false.

End SampleLoop.

(** ** Readings of a pose *)

Section PoseAction.
Context {T : Type} {AT : Arith T}.

Definition vadd (a b : Vector3D T) : Vector3D T :=
  mkV (fadd (vx a) (vx b)) (fadd (vy a) (vy b)) (fadd (vz a) (vz b)).

Definition vscale (s : T) (v : Vector3D T) : Vector3D T :=
  mkV (fmul s (vx v)) (fmul s (vy v)) (fmul s (vz v)).

(** The pose [(R, t)] applied to a point: [R x + t]. *)
Definition apply_pose (Rm : Matrix3D T) (tv : Vector3D T) (x : Vector3D T)
    : Vector3D T :=
  vadd (mvmul Rm x) tv.

(** A matrix with a determinant other than zero. *)
Definition regular (Rm : Matrix3D T) : Prop := feqb (det Rm) fzero = false.
End PoseAction.
(** ** What [get3Dcoordinates] hands to its kernel *)

Section WorldCoordinates.
Context {F D : Type} {AF : Arith F}.
Variable kernels : Kernels F D.
Variable cfg : Settings F.

(** The pose [get3Dcoordinates] derives for [compute3D]: the pose of a camera
    at the origin of the world, relative to the reference camera. *)
Definition reference_to_world : Matrix3D F * Vector3D F :=
  RelativeMatrices (alternativemethod cfg)
    (R (HostRef cfg)) (t (HostRef cfg))
    makeIdentity (mkV (of_int 0) (of_int 0) (of_int 0)).

(** The three buffers [compute3D] leaves, from two new buffers and the
    pixels of a depth map. *)
Definition world_coordinates (depth : CamImage F) : Image F * Image F * Image F :=
  let w := ref_width cfg in
  let h := ref_height cfg in
  compute3D kernels (repeat fzero (w * h), repeat fzero (w * h), data depth)
    (fst reference_to_world) (snd reference_to_world) (invK cfg) w h.
End WorldCoordinates.
(** ** Sample cameras *)

Module SampleCamera.

(** A reference camera turned about its optical axis and moved one unit to
    the right, in exact arithmetic, with the image and the options of the
    scenario. *)
Definition turned : Settings Exact.xnum :=
  mkSettings
    (mkPosed (mkImage 2 1 [Sample.xq 7 1; Sample.xq 0 1])
       (exactM SamplePose.turn) (exactV SamplePose.right1))
    []
    (makeIdentity (AT := Exact.arith)) (makeIdentity (AT := Exact.arith))
    (Sample.xq 1 1) (Sample.xq 5 1) 16 1 5 (Sample.xq 9 10) (Sample.xq 1 100)
    false.

(** Intrinsics with focal length 2 and principal point [(1, 1)], and their
    inverse. *)
Definition K2 : Matrix3D Qc :=
  mkM (SamplePose.q 2 1) (SamplePose.q 0 1) (SamplePose.q 1 1)
      (SamplePose.q 0 1) (SamplePose.q 2 1) (SamplePose.q 1 1)
      (SamplePose.q 0 1) (SamplePose.q 0 1) (SamplePose.q 1 1).

Definition invK2 : Matrix3D Qc :=
  mkM (SamplePose.q 1 2) (SamplePose.q 0 1) (SamplePose.q (-1) 2)
      (SamplePose.q 0 1) (SamplePose.q 1 2) (SamplePose.q (-1) 2)
      (SamplePose.q 0 1) (SamplePose.q 0 1) (SamplePose.q 1 1).

End SampleCamera.

(** ** The byte of a depth, in exact arithmetic *)

(** [255 * min(max((c - a) / (b - a), 0), 1)] as a rational, and the integer
    part of a rational that is not negative. *)
Definition exact_level (a b c : Qc) : Qc :=
  let q := ((c - a) / (b - a))%Qc in
  (Q2Qc (inject_Z 255)
   * match (q ?= 0)%Qc with
     | Lt => 0
     | _ => match (1 ?= q)%Qc with Lt => 1 | _ => q end
     end)%Qc.

Definition integer_part (x : Qc) : Z := (Qnum x / Zpos (Qden x))%Z.
(** A float that is a number and no infinity. *)
Definition finite (x : spec_float) : Prop :=
  match x with
  | S754_zero _ | S754_finite _ _ _ => True
  | _ => False
  end.

(** ** What the two TGV stages compute *)

Section Refinement.
Context {F D : Type} {AF : Arith F} {AD : Arith D} {W : Widen F D}.
Variable kernels : Kernels F D.
Variable cfg : Settings F.

(** What [TGV] keeps of source view [i]: the normalized image and the
    relative pose. *)
Definition TGV_view (w h i : nat) : Image F * (Matrix3D F * Vector3D F) :=
  let src := nth i (HostSrc cfg) blank_view in
  (element_scale (data (image src)) (fdiv (of_int 1) (of_int 255)) w h,
   RelativeMatrices (alternativemethod cfg)
     (R (HostRef cfg)) (t (HostRef cfg)) (R src) (t src)).

(** A view linearized around the depth map [u]: the view is warped into
    the reference by the coordinates [u] gives, and what is kept is the
    residual against the reference, its derivative along the depth, and the
    auxiliary variable at zero. *)
Definition linearized (Ref u : Image F) (fx fy : D) (w h : nat)
    (view : Image F * (Matrix3D F * Vector3D F)) : Image F * Image F * Image F :=
  let coords :=
    TGV2_transform_coordinates kernels u (K cfg) (fst (snd view)) (snd (snd view))
      (invK cfg) w h in
  let dXYZ :=
    TGV2_calculate_coordinate_derivatives kernels (invK cfg) (fst (snd view)) w h in
  let dF := TGV2_calculate_derivativeF kernels (snd coords) dXYZ fx fy w h in
  let X :=
    bilinear_interpolation kernels (fst view) (fst (fst coords)) (snd (fst coords))
      w h w h in
  (subtract X Ref w h,
   TGV2_calculate_Iu kernels X (fst dF) (snd dF) w h,
   set_value fzero w h).

(** The auxiliary variable of every view updated in turn, the products
    summed up from zero. *)
Definition views_updated (u u0 : Image F) (sigma lambda : D) (w h : nat)
    (lin : list (Image F * Image F * Image F))
    : list (Image F * Image F * Image F) * Image F :=
  fold_left
    (fun acc view =>
       let updated :=
         TGV2_updateR kernels (snd view) (snd acc) u u0
           (fst (fst view)) (snd (fst view)) sigma lambda w h in
       (fst acc ++ [(fst (fst view), snd (fst view), fst updated)], snd updated))
    lin ([], set_value fzero w h).

(** One update of a warp: the two dual variables, the auxiliary variables
    of the views, then the primal variables. *)
Definition TGV_update (T : Tensor F) (u0 : Image F)
    (lambda alpha0 alpha1 tau sigma : D) (w h : nat) (st : @TGV_fields F)
    : @TGV_fields F :=
  let us := fst (fst (fst (fst st))) in
  let ubars := snd (fst (fst (fst st))) in
  let P :=
    TGV2_updateP_tensor_weighed kernels (snd (fst (fst st))) T
      (fst (fst ubars)) (snd (fst ubars)) (snd ubars) alpha1 sigma w h in
  let q :=
    TGV2_updateQ kernels (snd (fst st)) (snd (fst ubars)) (snd ubars)
      alpha0 sigma w h in
  let views := views_updated (fst (fst us)) u0 sigma lambda w h (snd st) in
  let primal :=
    TGV2_updateU_tensor_weighed kernels us T ubars P q (snd views)
      alpha0 alpha1 tau lambda w h in
  (fst primal, snd primal, P, q, fst views).

(** One warp of the depth map [u]: every view is linearized around [u],
    the other variables start from zero, and [niters] updates follow. *)
Definition warped (T : Tensor F) (Ref : Image F)
    (views : list (Image F * (Matrix3D F * Vector3D F)))
    (niters : nat) (lambda alpha0 alpha1 tau sigma : D) (fx fy : D) (w h : nat)
    (u : Image F) : Image F :=
  let zero := set_value fzero w h in
  let start : @TGV_fields F :=
    ((u, zero, zero), (u, zero, zero), (zero, zero), (zero, zero, zero, zero),
     map (linearized Ref u fx fy w h) views) in
  fst (fst (fst (fst (fst (fst
    (Nat.iter niters (TGV_update T u lambda alpha0 alpha1 tau sigma w h) start)))))).

(** The depth map a completed run of [TGV] exports: the constant 1, warped
    [warps] times. *)
Definition TGV_depthmap (niters warps : nat)
    (lambda alpha0 alpha1 tau sigma beta gamma : D) : CamImage F :=
  let w := ref_width cfg in
  let h := ref_height cfg in
  let Ref :=
    element_scale (data (image (HostRef cfg))) (fdiv (of_int 1) (of_int 255)) w h in
  let T := Anisotropic_diffusion_tensor kernels Ref beta gamma w h in
  let views := map (TGV_view w h) (views_used cfg) in
  mkImage w h
    (Nat.iter warps
       (warped T Ref views niters lambda alpha0 alpha1 tau sigma
          (to_double (m00 (K cfg))) (to_double (m11 (K cfg))) w h)
       (set_value fone w h)).

(** The depth map a completed run of [TGVdenoiseFromSparse] exports, from the
    sparse depth handed to it and the raw depth map of the engine. *)
Definition sparse_depthmap (depth raw : CamImage F) (niters : nat)
    (alpha0 alpha1 tau sigma theta beta gamma : D) : CamImage F :=
  let w := ref_width cfg in
  let h := ref_height cfg in
  let weights := calculateWeights_sparseDepth kernels (data depth) w h in
  let Ds := element_scale (data depth) (fdiv (of_int 1) (zfar cfg)) w h in
  let ubar := element_scale (data raw) (fdiv (of_int 1) (zfar cfg)) w h in
  let ref :=
    element_scale (data (image (HostRef cfg))) (fdiv (of_int 1) (of_int 255)) w h in
  let T := Anisotropic_diffusion_tensor kernels ref beta gamma w h in
  let zero := repeat fzero (w * h) in
  let st :=
    for_range niters
      (sparse_iteration kernels T weights Ds alpha0 alpha1 tau sigma theta w h)
      (ubar, (ubar, zero, zero), (zero, zero), (zero, zero, zero, zero)) in
  mkImage w h (element_scale (fst (fst (fst st))) (zfar cfg) w h).
End Refinement.

(** ** Memory management ([inc/memory.h])

    [MemoryManagement<T, memT>]: static allocation, release and copy
    functions over raw pointers.  A size is a [size_t], here the 64-bit one
    of the hosts managed memory runs on, with its wrap-around written out;
    [MemoryKind] has its member [Managed] (CUDA 6 and later).  A pointer and
    the pitches are variables of the caller handed over by reference: they
    are the fields of [store], beside the requests made of the C++ and CUDA
    runtimes so far, last first. *)

Module Memory.

Local Open Scope Z_scope.

Inductive MemoryKind : Type := Managed | Standard | Host | Device.

Definition MemoryKind_eqb (a b : MemoryKind) : bool :=
  match a, b with
  | Managed, Managed | Standard, Standard | Host, Host | Device, Device => true
  | _, _ => false
  end.

Definition SIZE_MAX : Z := 2 ^ 64 - 1.

(** The value a [size_t] expression takes. *)
Definition size_t (z : Z) : Z := z mod (SIZE_MAX + 1).

Inductive cudaMemcpyKind : Type :=
| cudaMemcpyHostToHost
| cudaMemcpyHostToDevice
| cudaMemcpyDeviceToHost
| cudaMemcpyDeviceToDevice.

(** What the functions ask of the runtimes: [new T[len]] and [delete[]] of
    C++, the rest of CUDA, sizes in bytes. *)
Inductive request : Type :=
| new_array (len : Z)
| delete_array
| cudaMalloc (size : Z)
| cudaMallocPitch (width height : Z)
| cudaMallocManaged (size : Z)
| cudaMallocHost (size : Z)
| cudaFree
| cudaFreeHost
| cudaMemcpy (count : Z) (kind : cudaMemcpyKind)
| cudaMemcpy2D (dpitch spitch width height : Z) (kind : cudaMemcpyKind).

(** A block of memory: the request that obtained it and its bytes. *)
Record block : Type := mkBlock { origin : request; bytes : Z }.

(** The runtimes: the requests they serve, and the pitch [cudaMallocPitch]
    chooses for rows of a width. *)
Record runtime : Type := mkRuntime {
  grants : request -> bool;
  row_pitch : Z -> Z
}.

Record store : Type := mkStore {
  ptr : option block;
  pitch : Z;
  spitch : Z;
  issued : list request
}.

(** The release that matches an allocation, by the rules of C++ and of the
    CUDA runtime. *)
Definition releases (free alloc : request) : bool :=
  match free, alloc with
  | delete_array, new_array _ => true
  | cudaFreeHost, cudaMallocHost _ => true
  | cudaFree, (cudaMalloc _ | cudaMallocPitch _ _ | cudaMallocManaged _) => true
  | _, _ => false
  end.

(** The bytes a copy moves, as pairs of an offset from the source pointer
    and an offset from the destination pointer: [cudaMemcpy2D] moves [height]
    rows of [width] bytes, a row every [spitch] bytes of the source and every
    [dpitch] bytes of the destination. *)
Definition upto (n : Z) : list Z := map Z.of_nat (seq 0 (Z.to_nat n)).

Definition moves (r : request) : list (Z * Z) :=
  match r with
  | cudaMemcpy count _ => map (fun i => (i, i)) (upto count)
  | cudaMemcpy2D dpitch spitch width height _ =>
      flat_map (fun row =>
        map (fun col => (row * spitch + col, row * dpitch + col)) (upto width))
        (upto height)
  | _ => []
  end.

Section MemoryManagement.

Variable sizeofT : Z.
Variable memT : MemoryKind.
Variable rt : runtime.

(** A statement: [None] is an exception ([std::bad_alloc] of [new], the
    exception of [CHECK_CUDA_ERRORS_AUTO]). *)
Definition action : Type := store -> option store.

Definition andthen (a b : action) : action :=
  fun s => match a s with Some s' => b s' | None => None end.

Definition when (c : bool) (a : action) : action :=
  fun s => if c then a s else Some s.

Definition memT_is (k : MemoryKind) : bool := MemoryKind_eqb memT k.

(** The bytes a served allocation gives: the elements of [new T[len]], the
    size asked of [cudaMalloc], [cudaMallocManaged] and [cudaMallocHost],
    [height] rows of the pitch chosen for [cudaMallocPitch]. *)
Definition served (r : request) : Z :=
  match r with
  | new_array len => len * sizeofT
  | cudaMalloc size | cudaMallocManaged size | cudaMallocHost size => size
  | cudaMallocPitch width height => row_pitch rt width * height
  | _ => 0
  end.

(** An allocation writes the pointer; [cudaMallocPitch] writes the pitch as
    well. *)
Definition allocate (r : request) : action :=
  fun s =>
    if grants rt r
    then Some (mkStore (Some (mkBlock r (served r)))
                       (match r with
                        | cudaMallocPitch width _ => row_pitch rt width
                        | _ => pitch s
                        end)
                       (spitch s) (r :: issued s))
    else None.

Definition CHECK_CUDA_ERRORS_AUTO (r : request) : action :=
  fun s =>
    if grants rt r
    then Some (mkStore (ptr s) (pitch s) (spitch s) (r :: issued s))
    else None.

Definition set_pitch (v : Z) : action :=
  fun s => Some (mkStore (ptr s) v (spitch s) (issued s)).

Definition set_spitch (v : Z) : action :=
  fun s => Some (mkStore (ptr s) (pitch s) v (issued s)).

(** [CleanUp(T * ptr)]: the pointer is passed by value, so the closing
    [ptr = 0] is lost on the caller; [delete[]] does not throw. *)
Definition CleanUp (p : option block) : action :=
  if memT_is Standard
  then fun s => Some (mkStore (ptr s) (pitch s) (spitch s) (delete_array :: issued s))
  else if memT_is Host then CHECK_CUDA_ERRORS_AUTO cudaFreeHost
  else CHECK_CUDA_ERRORS_AUTO cudaFree.

(** [Malloc(T *&ptr, size_t len)]. *)
Definition Malloc (len : Z) : action :=
  andthen (when (memT_is Standard) (allocate (new_array len)))
 (andthen (when (memT_is Device) (allocate (cudaMalloc (size_t (len * sizeofT)))))
 (andthen (when (memT_is Managed) (allocate (cudaMallocManaged (size_t (len * sizeofT)))))
          (when (memT_is Host) (allocate (cudaMallocHost (size_t (len * sizeofT))))))).

(** [Malloc(T *&ptr, size_t w, size_t h, size_t &pitch)]. *)
Definition Malloc2D (w h : Z) : action :=
  andthen (when (memT_is Device) (allocate (cudaMallocPitch (size_t (w * sizeofT)) h)))
 (andthen (set_pitch (size_t (w * sizeofT)))
 (andthen (when (memT_is Standard) (allocate (new_array (size_t (w * h)))))
 (andthen (when (memT_is Managed)
             (fun s => allocate (cudaMallocManaged (size_t (pitch s * h))) s))
          (when (memT_is Host)
             (fun s => allocate (cudaMallocHost (size_t (pitch s * h))) s))))).

(** [Malloc(T *&ptr, size_t w, size_t h, size_t d, size_t &pitch, size_t &spitch)]. *)
Definition Malloc3D (w h d : Z) : action :=
  andthen (when (memT_is Device)
             (allocate (cudaMallocPitch (size_t (w * sizeofT)) (size_t (h * d)))))
 (andthen (set_pitch (size_t (w * sizeofT)))
 (andthen (when (memT_is Standard) (allocate (new_array (size_t (size_t (w * h) * d)))))
 (andthen (when (memT_is Managed)
             (fun s => allocate (cudaMallocManaged (size_t (size_t (pitch s * h) * d))) s))
 (andthen (when (memT_is Host)
             (fun s => allocate (cudaMallocHost (size_t (size_t (pitch s * h) * d))) s))
          (fun s => set_spitch (size_t (h * pitch s)) s))))).

(** The four copies of each dimension differ in the direction only. *)
Definition Copy (kind : cudaMemcpyKind) (len : Z) : action :=
  CHECK_CUDA_ERRORS_AUTO (cudaMemcpy (size_t (len * sizeofT)) kind).

Definition Copy2D (kind : cudaMemcpyKind) (DstPitch SrcPitch width height : Z) : action :=
  CHECK_CUDA_ERRORS_AUTO
    (cudaMemcpy2D DstPitch SrcPitch (size_t (width * sizeofT)) height kind).

Definition Copy3D (kind : cudaMemcpyKind) (DstPitch SrcPitch width height depth : Z)
  : action :=
  CHECK_CUDA_ERRORS_AUTO
    (cudaMemcpy2D DstPitch SrcPitch (size_t (width * sizeofT))
                  (size_t (height * depth)) kind).

Definition Device2DeviceCopy := Copy cudaMemcpyDeviceToDevice.
Definition Device2HostCopy := Copy cudaMemcpyDeviceToHost.
Definition Host2DeviceCopy := Copy cudaMemcpyHostToDevice.
Definition Host2HostCopy := Copy cudaMemcpyHostToHost.

Definition Device2DeviceCopy2D := Copy2D cudaMemcpyDeviceToDevice.
Definition Device2HostCopy2D := Copy2D cudaMemcpyDeviceToHost.
Definition Host2DeviceCopy2D := Copy2D cudaMemcpyHostToDevice.
Definition Host2HostCopy2D := Copy2D cudaMemcpyHostToHost.

Definition Device2DeviceCopy3D := Copy3D cudaMemcpyDeviceToDevice.
Definition Device2HostCopy3D := Copy3D cudaMemcpyDeviceToHost.
Definition Host2DeviceCopy3D := Copy3D cudaMemcpyHostToDevice.
Definition Host2HostCopy3D := Copy3D cudaMemcpyHostToHost.

(** The offset, from the pointer, of byte [b] of the element at column [x],
    row [y] and slice [z] of a volume laid out with the pitches of the store. *)
Definition element_offset (s : store) (x y z b : Z) : Z :=
  z * spitch s + y * pitch s + x * sizeofT + b.

End MemoryManagement.

(** A runtime that serves every request and pads rows to a multiple of 512
    bytes, and one that is out of device memory. *)
Definition padding : runtime :=
  mkRuntime (fun _ => true) (fun width => (width + 511) / 512 * 512).

Definition exhausted : runtime :=
  mkRuntime (fun r => match r with
                      | cudaMalloc _ | cudaMallocPitch _ _ | cudaMallocManaged _ => false
                      | _ => true
                      end)
            (fun width => width).

Definition fresh : store := mkStore None 0 0 [].

End Memory.

(** ** The runtime calls of a run *)

Section Calls.
Context {F : Type}.

(** The checked calls made between two states, most recent first. *)
Definition calls_made (s s' : machine F) (new : list (call * bool)) : Prop :=
  log (gpu s') = new ++ log (gpu s).

Definition all_succeeded (new : list (call * bool)) : bool := forallb snd new.

(** The most recent of the calls is [cudaDeviceReset], with the given
    success. *)
Definition ends_with_reset (success : bool) (new : list (call * bool)) : Prop :=
  hd_error new = Some (cudaDeviceReset, success).

(** A run of a stage that answers [bool], by the calls it made: [true] after
    calls that all succeeded, [false] after a [cudaDeviceReset] that
    succeeded, an exception after a [cudaDeviceReset] that failed. *)
Definition stage_result (s : machine F) (r : outcome bool * machine F)
    (new : list (call * bool)) : Prop :=
  calls_made s (snd r) new
  /\ match fst r with
     | Ok true => all_succeeded new = true
     | Ok false => ends_with_reset true new
     | Throw => ends_with_reset false new
     | Hang => all_succeeded new = true
     end.

(** The same for a stage that answers nothing. *)
Definition void_stage_result (s : machine F) (r : outcome unit * machine F)
    (new : list (call * bool)) : Prop :=
  calls_made s (snd r) new
  /\ match fst r with
     | Ok tt => all_succeeded new = true \/ ends_with_reset true new
     | Throw => ends_with_reset false new
     | Hang => all_succeeded new = true
     end.

(** What the amended claim says of a run: its calls bear out its answer, and
    it throws exactly when the last of them is a [cudaDeviceReset] that
    failed. *)
Definition stage_contract (s : machine F) (r : outcome bool * machine F) : Prop :=
  exists new,
    stage_result s r new /\ (fst r = Throw <-> ends_with_reset false new).

Definition void_stage_contract (s : machine F) (r : outcome unit * machine F) : Prop :=
  exists new,
    void_stage_result s r new /\ (fst r = Throw <-> ends_with_reset false new).

(** Code without handler: it returns, with a value that satisfies [P], only
    after calls that all succeeded. *)
Definition unhandled {A} (P : A -> Prop) (m : M (machine F) A) : Prop :=
  forall s, exists new,
    calls_made s (snd (m s)) new
    /\ match fst (m s) with
       | Ok a => all_succeeded new = true /\ P a
       | Throw => True
       | Hang => all_succeeded new = true
       end.
End Calls.

(** Kernels that pass their inputs through, but for the primal update of
    [TGV], which adds 1 to every pixel of the depth map. *)
Module SampleRefine.

Definition stepping32 : Kernels spec_float spec_float :=
  let k := Sample.kernels32 in
  mkKernels
    (windowed_mean_column k) (windowed_mean_row k) (calculate_STD k)
    (transform_indexes k) (bilinear_interpolation k) (element_multiply k)
    (calcNCC k) (Anisotropic_diffusion_tensor k)
    (denoising_TVL1_calculateP_tensor_weighed k) (denoising_TVL1_update k)
    (TGV2_transform_coordinates k) (TGV2_calculate_coordinate_derivatives k)
    (TGV2_calculate_derivativeF k) (TGV2_calculate_Iu k)
    (TGV2_updateP_tensor_weighed k) (TGV2_updateQ k) (TGV2_updateR k)
    (fun us _ ubars _ _ _ _ _ _ _ _ _ =>
       ((map (SFadd 24 128 (IEEE.of_Z 24 128 1)) (fst (fst us)),
         snd (fst us), snd us), ubars))
    (calculateWeights_sparseDepth k) (TGV2_updateU_sparseDepthTensor k)
    (compute3D k) (cv_denoise_TVL1 k).

End SampleRefine.

(** Poses in [float] on which rounding shows: an unrotated reference at
    [(1, 2, 3)] and a source turned by the 3-4-5 angle at [(0.1, 0.2, 0.3)]. *)
Module SampleRounding.

Definition turned32 : Matrix3D spec_float :=
  mkM (Sample.f32 3 5) (Sample.f32 (-4) 5) (Sample.f32 0 1)
      (Sample.f32 4 5) (Sample.f32 3 5) (Sample.f32 0 1)
      (Sample.f32 0 1) (Sample.f32 0 1) (Sample.f32 1 1).

Definition tref32 : Vector3D spec_float :=
  mkV (Sample.f32 1 1) (Sample.f32 2 1) (Sample.f32 3 1).

Definition tsrc32 : Vector3D spec_float :=
  mkV (Sample.f32 1 10) (Sample.f32 2 10) (Sample.f32 3 10).

End SampleRounding.

(** The scenario with its two source views and [numberimages] set to
    [4294967295], which [(int) numberimages] reads as [-1]. *)
Module SampleWrap.

Definition wrapped32 : Settings spec_float :=
  mkSettings
    (Sample.view (AF := IEEE.binary32) [Sample.f32 7 1; Sample.f32 0 1])
    [Sample.view (AF := IEEE.binary32) [Sample.f32 7 1; Sample.f32 0 1];
     Sample.view (AF := IEEE.binary32) [Sample.f32 7 1; Sample.f32 0 1]]
    (makeIdentity (AT := IEEE.binary32)) (makeIdentity (AT := IEEE.binary32))
    (Sample.f32 1 1) (Sample.f32 5 1) 16 4294967295 5
    (Sample.f32 9 10) (Sample.f32 1 100) false.

End SampleWrap.

(** * Properties *)

(** ** Rules of the specifications *)

Section HoareRules.
Context {St : Type}.
Implicit Types s : St.

Lemma spec_ret {A} (a : A) s (N : A -> St -> Prop) E :
N a s -> spec (ret a) s N E.
Proof. intro H. exact H. Qed.

Lemma spec_bind {A B} (m : M St A) (f : A -> M St B) s
  (N0 : A -> St -> Prop) (E0 : St -> Prop) (N : B -> St -> Prop) E :
spec m s N0 E0 ->
(forall a s', N0 a s' -> spec (f a) s' N E) ->
(forall s', E0 s' -> E s') ->
spec (bind m f) s N E.
Proof.
unfold spec, bind. intros Hm Hf He.
destruct (m s) as [[a| |] s']; auto.
apply (Hf a s' Hm).
Qed.

Lemma spec_weaken {A} (m : M St A) s (N0 N : A -> St -> Prop) (E0 E : St -> Prop) :
spec m s N0 E0 ->
(forall a s', N0 a s' -> N a s') ->
(forall s', E0 s' -> E s') ->
spec m s N E.
Proof.
unfold spec. intros Hm Hn He.
destruct (m s) as [[a| |] s']; auto.
Qed.

Lemma spec_try_catch {A} (body handler : M St A) s
  (N : A -> St -> Prop) (E0 E : St -> Prop) :
spec body s N E0 ->
(forall s', E0 s' -> spec handler s' N E) ->
spec (try_catch body handler) s N E.
Proof.
unfold spec, try_catch. intros Hb Hh.
destruct (body s) as [[a| |] s']; auto.
apply (Hh s' Hb).
Qed.

Lemma spec_modify (f : St -> St) s (N : unit -> St -> Prop) E :
N tt (f s) -> spec (modify f) s N E.
Proof. intro H. exact H. Qed.

Lemma spec_gets {A} (f : St -> A) s (N : A -> St -> Prop) E :
N (f s) s -> spec (gets f) s N E.
Proof. intro H. exact H. Qed.

Lemma spec_terminated {A} (o : option A) s (N : A -> St -> Prop) E :
(forall a, o = Some a -> N a s) -> spec (terminated o) s N E.
Proof. unfold spec, terminated. destruct o; auto. Qed.

Lemma terminated_spec {A} (o : option A) s :
spec (terminated o) s (fun a s' => o = Some a /\ s' = s) (fun _ => False).
Proof. unfold spec, terminated. destruct o; auto. Qed.

Lemma spec_for_each_from {X S} (body : X -> S -> M St S)
  (Inv : list X -> S -> St -> Prop) (E : St -> Prop) (l : list X) :
forall done acc s,
  (forall seen x acc0 s0,
      (exists rest, done ++ l = seen ++ x :: rest) ->
      Inv seen acc0 s0 ->
      spec (body x acc0) s0 (fun acc1 s1 => Inv (seen ++ [x]) acc1 s1) E) ->
  Inv done acc s ->
  spec (for_each l body acc) s (fun acc' s' => Inv (done ++ l) acc' s') E.
Proof.
induction l as [|x l IH]; intros done acc s Hbody Hinv; simpl.
- rewrite app_nil_r. exact Hinv.
- eapply spec_bind.
  + apply (Hbody done x acc s); [exists l; reflexivity | exact Hinv].
  + intros acc1 s1 H1. cbn beta in H1.
    replace (done ++ x :: l) with ((done ++ [x]) ++ l)
      by (rewrite <- app_assoc; reflexivity).
    apply IH; [| exact H1].
    intros seen y acc0 s0 [rest Hrest] Hi.
    apply Hbody; [| exact Hi].
    exists rest. rewrite <- Hrest, <- app_assoc. reflexivity.
  + auto.
Qed.

Lemma spec_for_each {X S} (body : X -> S -> M St S)
  (Inv : list X -> S -> St -> Prop) (E : St -> Prop) (l : list X) acc s :
(forall seen x acc0 s0,
    (exists rest, l = seen ++ x :: rest) ->
    Inv seen acc0 s0 ->
    spec (body x acc0) s0 (fun acc1 s1 => Inv (seen ++ [x]) acc1 s1) E) ->
Inv [] acc s ->
spec (for_each l body acc) s (fun acc' s' => Inv l acc' s') E.
Proof.
intros Hbody Hinv.
apply (spec_for_each_from body Inv E l [] acc s Hbody Hinv).
Qed.

Lemma spec_returns {A} (m : M St A) s (N : A -> St -> Prop) E a s' :
spec m s N E -> m s = (Ok a, s') -> N a s'.
Proof. unfold spec. intros H Heq. rewrite Heq in H. exact H. Qed.

Lemma spec_throws {A} (m : M St A) s (N : A -> St -> Prop) E s' :
spec m s N E -> m s = (Throw, s') -> E s'.
Proof. unfold spec. intros H Heq. rewrite Heq in H. exact H. Qed.

Lemma halts_ret {A} (a : A) s : halts (ret a) s.
Proof. exact I. Qed.

Lemma halts_bind {A B} (m : M St A) (f : A -> M St B) s :
halts m s ->
(forall a s', m s = (Ok a, s') -> halts (f a) s') ->
halts (bind m f) s.
Proof.
unfold halts, bind. intros Hm Hf.
destruct (m s) as [[a| |] s'] eqn:Hms; auto.
apply (Hf a s' eq_refl).
Qed.

Lemma halts_try_catch {A} (body handler : M St A) s :
halts body s ->
(forall s', body s = (Throw, s') -> halts handler s') ->
halts (try_catch body handler) s.
Proof.
unfold halts, try_catch. intros Hb Hh.
destruct (body s) as [[a| |] s'] eqn:Hbs; auto.
apply (Hh s' eq_refl).
Qed.

Lemma halts_for_each {X S} (body : X -> S -> M St S) (l : list X) :
(forall x acc s, halts (body x acc) s) ->
forall acc s, halts (for_each l body acc) s.
Proof.
intro Hb. induction l as [|x l IH]; intros acc s; simpl.
- exact I.
- apply halts_bind; [apply Hb | intros; apply IH].
Qed.
End HoareRules.

(** ** The runtime primitives *)

Section Primitives.
Context {F D : Type} {AF : Arith F} {AD : Arith D} {W : Widen F D}.
Implicit Types s : machine F.

Lemma spec_cuda c s (N : unit -> machine F -> Prop) (E : machine F -> Prop) :
(hd false (faults (gpu s)) = false -> N tt (logged c s)) ->
(hd false (faults (gpu s)) = true -> E (logged c s)) ->
spec (cuda c) s N E.
Proof.
unfold spec, cuda, logged. intros Hn He.
destruct (hd false (faults (gpu s))); auto.
Qed.

Lemma spec_assign (f : PlaneSweep F -> PlaneSweep F) s
  (N : unit -> machine F -> Prop) E :
N tt (mkMachine (f (obj s)) (gpu s)) -> spec (assign f) s N E.
Proof. intro H. exact H. Qed.

Lemma assign_spec (f : PlaneSweep F -> PlaneSweep F) s :
spec (assign f) s
  (fun _ s' => obj s' = f (obj s) /\ gpu s' = gpu s)
  (fun _ => False).
Proof. apply spec_assign. auto. Qed.

Lemma member_spec {A} (f : PlaneSweep F -> A) s :
spec (member f) s (fun a s' => a = f (obj s) /\ s' = s) (fun _ => False).
Proof. unfold spec, member, gets. auto. Qed.

Lemma spec_member {A} (f : PlaneSweep F -> A) s (N : A -> machine F -> Prop) E :
N (f (obj s)) s -> spec (member f) s N E.
Proof. intro H. exact H. Qed.

Lemma views_of_logged c s :
hd false (faults (gpu s)) = false ->
views_of (logged c s) = views_of s ++ uploads c.
Proof.
intro H. unfold views_of, logged. simpl. rewrite H. simpl.
destruct c as [| | |[[]| |]| |]; simpl; try (rewrite app_nil_r); reflexivity.
Qed.

Lemma cuda_spec c s :
spec (cuda c) s
  (fun _ s' => obj s' = obj s /\ views_of s' = views_of s ++ uploads c
               /\ last_call s' = Some (c, true))
  (fun s' => obj s' = obj s /\ last_call s' = Some (c, false)).
Proof.
apply spec_cuda; intro H.
- split; [reflexivity|]. split; [apply views_of_logged; exact H|].
  unfold last_call, logged. simpl. rewrite H. reflexivity.
- split; [reflexivity|]. unfold last_call, logged. simpl. rewrite H. reflexivity.
Qed.

Lemma Image_new_spec w h s :
spec (Image_new w h) s
  (fun a s' => a = repeat fzero (w * h) /\ obj s' = obj s /\ views_of s' = views_of s)
  (fun s' => obj s' = obj s).
Proof.
unfold Image_new. eapply spec_bind; [apply cuda_spec | |]; cbn beta.
- intros _ s' (Ho & Hv & _). apply spec_ret.
  rewrite app_nil_r in Hv. auto.
- intros s' [Ho _]. exact Ho.
Qed.

Lemma Images_new_spec k w h s :
spec (Images_new (AF := AF) k w h) s
  (fun _ s' => obj s' = obj s /\ views_of s' = views_of s)
  (fun s' => obj s' = obj s).
Proof.
unfold Images_new.
eapply spec_weaken.
- apply (spec_for_each
           (fun (_ : nat) (_ : unit) => _ <- Image_new w h ;; ret tt)%monad
           (fun _ _ s' => obj s' = obj s /\ views_of s' = views_of s)
           (fun s' => obj s' = obj s)).
  + intros seen x acc0 s0 _ [Ho Hv].
    eapply spec_bind; [apply Image_new_spec | |]; cbn beta.
    * intros a s1 (_ & Ho1 & Hv1). apply spec_ret. split; congruence.
    * intros s1 Ho1. congruence.
  + auto.
- cbn beta. intros [] s' H. exact H.
- auto.
Qed.

Lemma copyFrom_spec b (pixels : list F) s :
spec (copyFrom b pixels) s
  (fun a s' => a = pixels /\ obj s' = obj s
               /\ views_of s' = views_of s ++ uploads (cudaMemcpy (HostToDevice b)))
  (fun s' => obj s' = obj s).
Proof.
unfold copyFrom. eapply spec_bind; [apply cuda_spec | |]; cbn beta.
- intros _ s' (Ho & Hv & _). apply spec_ret. auto.
- intros s' [Ho _]. exact Ho.
Qed.

Lemma cudaReset_spec s :
spec cudaReset s
  (fun _ s' => obj s' = set_d_depthmap null (obj s)
               /\ last_call s' = Some (cudaDeviceReset, true))
  (fun s' => obj s' = obj s /\ last_call s' = Some (cudaDeviceReset, false)).
Proof.
unfold cudaReset. eapply spec_bind; [apply cuda_spec | |]; cbn beta.
- intros _ s' (Ho & _ & Hl). apply spec_assign. simpl. rewrite Ho. auto.
- auto.
Qed.

Lemma cudaDevInit_spec s :
spec cudaDevInit s
  (fun _ s' => obj s' = obj s /\ views_of s' = views_of s)
  (fun s' => obj s' = obj s).
Proof.
unfold cudaDevInit. eapply spec_bind; [apply cuda_spec | |]; cbn beta.
- intros _ s' (Ho & Hv & _). rewrite app_nil_r in Hv.
  cbv [spec bind gets]. destruct (dev_count (gpu s') =? 0); simpl; auto.
- intros s' [Ho _]. exact Ho.
Qed.

(** The catch clause of every stage: the context is reset, and the stage
  answers [false] unless the reset itself throws. *)
Lemma handler_spec s :
spec (cudaReset ;; ret false)%monad s
  (fun b s' => b = false /\ obj s' = set_d_depthmap null (obj s)
               /\ last_call s' = Some (cudaDeviceReset, true))
  (fun s' => obj s' = obj s /\ last_call s' = Some (cudaDeviceReset, false)).
Proof.
eapply spec_bind; [apply cudaReset_spec | |]; cbn beta.
- intros _ s' [Ho Hl]. apply spec_ret. auto.
- auto.
Qed.

Lemma halts_cuda c s : halts (cuda c) s.
Proof. unfold halts, cuda. destruct (hd false (faults (gpu s))); exact I. Qed.

Lemma halts_Image_new w h s : halts (Image_new w h) s.
Proof. unfold Image_new. apply halts_bind; [apply halts_cuda | intros; exact I]. Qed.

Lemma halts_Images_new k w h s : halts (Images_new (AF := AF) k w h) s.
Proof.
unfold Images_new. apply halts_for_each. intros x acc s0.
apply halts_bind; [apply halts_Image_new | intros; exact I].
Qed.

Lemma halts_copyFrom b (pixels : list F) s : halts (copyFrom b pixels) s.
Proof. unfold copyFrom. apply halts_bind; [apply halts_cuda | intros; exact I]. Qed.

Lemma halts_cudaReset s : halts cudaReset s.
Proof. unfold cudaReset. apply halts_bind; [apply halts_cuda | intros; exact I]. Qed.

Lemma halts_cudaDevInit s : halts cudaDevInit s.
Proof.
unfold cudaDevInit. apply halts_bind; [apply halts_cuda|]. intros _ s1 _.
apply halts_bind; [exact I|]. intros a s2 _. destruct (a =? 0); exact I.
Qed.

Lemma halts_handler {A} (a : A) s : halts (cudaReset ;; ret a)%monad s.
Proof. apply halts_bind; [apply halts_cudaReset | intros; exact I]. Qed.

End Primitives.

(** ** [RunAlgorithm], run from any state *)

Section RunAlgorithmSpec.
Context {F D : Type} {AF : Arith F}.
Variable kernels : Kernels F D.
Variable cfg : Settings F.
Variable fuel : nat.
Implicit Types s : machine F.

Local Abbreviation deviceRef := (data (image (HostRef cfg))).
Local Abbreviation statistics := (reference_statistics kernels cfg deviceRef).

Lemma PlaneSweepThread_spec globDepth globN i s :
spec (PlaneSweepThread kernels cfg fuel globDepth globN
        deviceRef (fst statistics) (snd statistics) i) s
  (fun r s' =>
     r = accumulate kernels cfg fuel (globDepth, globN) i
     /\ view_best kernels cfg fuel deviceRef (fst statistics) (snd statistics) i
        <> None
     /\ obj s' = obj s /\ views_of s' = views_of s ++ [i])
  (fun s' => obj s' = obj s).
Proof.
unfold PlaneSweepThread.
eapply spec_bind; [apply Image_new_spec | |]; cbn beta.
2: { auto. }
intros _ s1 (_ & Ho1 & Hv1).
eapply spec_bind; [apply Images_new_spec | |]; cbn beta.
2: { intros; congruence. }
intros _ s2 (Ho2 & Hv2).
eapply spec_bind; [apply copyFrom_spec | |]; cbn beta.
2: { intros; congruence. }
intros _ s3 (_ & Ho3 & Hv3).
eapply spec_bind; [apply terminated_spec | |]; cbn beta.
2: { intros s' []. }
intros [devDepth devbestNCC] s4 [Hbest ->].
apply spec_ret.
unfold accumulate, view_result. rewrite Hbest. simpl.
repeat split; try congruence.
rewrite Hv3, Hv2, Hv1. reflexivity.
Qed.

Lemma RunAlgorithm_spec s :
spec (RunAlgorithm kernels cfg fuel) s
  (fun b s' =>
     if b then
       obj s' =
         set_depthavailable true
           (set_depthmap8u
              (ConvertDepthtoUChar (znear cfg) (zfar cfg)
                 (swept_depthmap kernels cfg fuel))
              (set_depthmap (swept_depthmap kernels cfg fuel) (obj s)))
       /\ views_of s' = views_of s ++ views_used cfg
       /\ (forall i, In i (views_used cfg) ->
             view_best kernels cfg fuel deviceRef (fst statistics) (snd statistics) i
             <> None)
     else
       obj s' = set_d_depthmap null
                  (set_depthmap (reset fzero (ref_width cfg) (ref_height cfg)) (obj s))
       /\ last_call s' = Some (cudaDeviceReset, true))
  (fun s' =>
     obj s' = set_depthmap (reset fzero (ref_width cfg) (ref_height cfg)) (obj s)
     /\ last_call s' = Some (cudaDeviceReset, false)).
Proof.
unfold RunAlgorithm.
eapply spec_bind; [apply assign_spec | | intros s' []]; cbn beta.
intros _ s0 [Ho0 Hg0].
assert (Hv0 : views_of s0 = views_of s) by (unfold views_of; rewrite Hg0; reflexivity).
clear Hg0.
eapply spec_try_catch with (E0 := fun s' => obj s' = obj s0).
2: { intros s' Ho. eapply spec_weaken; [apply handler_spec | |]; cbn beta.
     - intros b s2 (-> & Ho2 & Hl). rewrite Ho2, Ho, Ho0. auto.
     - intros s2 [Ho2 Hl]. rewrite Ho2, Ho, Ho0. auto. }
eapply spec_bind; [apply cudaDevInit_spec | | auto]; cbn beta.
intros r s1 [Ho1 Hv1].
destruct r as [|dev].
{ eapply spec_weaken; [apply handler_spec | |]; cbn beta.
  - intros b s2 (-> & Ho2 & Hl). rewrite Ho2, Ho1, Ho0. auto.
  - intros s2 [Ho2 Hl]. congruence. }
eapply spec_bind; [apply Image_new_spec | | intros; congruence]; cbn beta.
intros _ s2 (_ & Ho2 & Hv2).
eapply spec_bind; [apply copyFrom_spec | | intros; congruence]; cbn beta.
intros dRef s3 (-> & Ho3 & Hv3).
eapply spec_bind; [apply Images_new_spec | | intros; congruence]; cbn beta.
intros _ s4 (Ho4 & Hv4).
rewrite (surjective_pairing statistics) at 1. cbv iota.
eapply spec_bind; [apply Image_new_spec | | intros; congruence]; cbn beta.
intros devDepthmap s5 (-> & Ho5 & Hv5).
eapply spec_bind; [apply Image_new_spec | | intros; congruence]; cbn beta.
intros devN s6 (-> & Ho6 & Hv6).
assert (Ho : obj s6 = obj s0) by congruence.
assert (Hv : views_of s6 = views_of s).
{ rewrite Hv6, Hv5, Hv4, Hv3, Hv2, Hv1, Hv0. apply app_nil_r. }
clear - Ho Hv Ho0.
eapply spec_bind with
  (N0 := fun acc s' =>
           acc = accumulated kernels cfg fuel (views_used cfg)
           /\ (forall i, In i (views_used cfg) ->
                 view_best kernels cfg fuel deviceRef (fst statistics) (snd statistics) i
                 <> None)
           /\ obj s' = obj s0 /\ views_of s' = views_of s ++ views_used cfg)
  (E0 := fun s' => obj s' = obj s0).
3: { auto. }
{ eapply spec_weaken.
  - apply (spec_for_each
             (fun (i : nat) '(globDepth, globN) =>
                PlaneSweepThread kernels cfg fuel globDepth globN deviceRef
                  (fst statistics) (snd statistics) i)
             (fun seen acc s' =>
                acc = accumulated kernels cfg fuel seen
                /\ (forall i, In i seen ->
                      view_best kernels cfg fuel deviceRef
                        (fst statistics) (snd statistics) i <> None)
                /\ obj s' = obj s0 /\ views_of s' = views_of s ++ seen)
             (fun s' => obj s' = obj s0)).
    + intros seen x [gD gN] sa _ (Hacc & Hsome & Hoa & Hva).
      eapply spec_weaken; [apply PlaneSweepThread_spec | |]; cbn beta.
      * intros r sb (-> & Hx & Hob & Hvb).
        split; [|split; [|split]].
        -- unfold accumulated. rewrite fold_left_app. simpl.
           fold (accumulated kernels cfg fuel seen). rewrite <- Hacc. reflexivity.
        -- intros j Hj. apply in_app_or in Hj. destruct Hj as [Hj|[<-|[]]]; auto.
        -- congruence.
        -- rewrite Hvb, Hva, <- app_assoc. reflexivity.
      * intros; congruence.
    + split; [reflexivity|]. split; [intros i []|]. split; [exact Ho|].
      rewrite Hv. symmetry. apply app_nil_r.
  - cbn beta. auto.
  - auto. }
cbn beta. intros [devDepthmap devN] s7 (Hacc & Hsome & Ho7 & Hv7).
eapply spec_bind; [apply cuda_spec | | intros s' [? _]; congruence]; cbn beta.
intros _ s8 (Ho8 & Hv8 & _).
eapply spec_bind; [apply cuda_spec | | intros s' [? _]; congruence]; cbn beta.
intros _ s9 (Ho9 & Hv9 & _).
eapply spec_bind; [apply assign_spec | | intros s' []]; cbn beta.
intros _ s10 (Ho10 & Hg10).
eapply spec_bind; [apply assign_spec | | intros s' []]; cbn beta.
intros _ s11 (Ho11 & Hg11).
eapply spec_bind; [apply assign_spec | | intros s' []]; cbn beta.
intros _ s12 (Ho12 & Hg12).
apply spec_ret.
split; [|split; [|exact Hsome]].
- rewrite Ho12, Ho11, Ho10, Ho9, Ho8, Ho7, Ho0.
  unfold swept_depthmap. rewrite <- Hacc. reflexivity.
- unfold views_of in *. rewrite Hg12, Hg11, Hg10.
  rewrite Hv9, Hv8, Hv7. simpl. rewrite !app_nil_r. reflexivity.
Qed.

(** *** The aggregate, pixel by pixel *)

Lemma px_per_pixel n (f : nat -> F) p : p < n -> px (per_pixel n f) p = f p.
Proof.
intro Hp. unfold px, per_pixel.
rewrite (nth_indep _ fzero (f 0)) by (rewrite length_map, length_seq; exact Hp).
rewrite (map_nth f (seq 0 n) 0 p), seq_nth by exact Hp. reflexivity.
Qed.

Lemma px_blank n p : px (repeat (fzero (T := F)) n) p = fzero.
Proof. unfold px. apply nth_repeat. Qed.

Lemma accumulated_snoc l i :
accumulated kernels cfg fuel (l ++ [i])
= accumulate kernels cfg fuel (accumulated kernels cfg fuel l) i.
Proof. unfold accumulated. rewrite fold_left_app. reflexivity. Qed.

Lemma accumulated_px l p :
p < ref_width cfg * ref_height cfg ->
px (fst (accumulated kernels cfg fuel l)) p
= fold_left (fun acc i => fadd acc (px (fst (view_result kernels cfg fuel i)) p))
    (filter (votes kernels cfg fuel p) l) fzero
/\ px (snd (accumulated kernels cfg fuel l)) p
   = fold_left (fun acc _ => fadd acc fone)
       (filter (votes kernels cfg fuel p) l) fzero.
Proof.
intro Hp. induction l as [|i l [IHd IHn]] using rev_ind.
- simpl. split; apply px_blank.
- rewrite accumulated_snoc, filter_app, !fold_left_app. simpl.
  unfold accumulate, sum_depthmap_NCC. cbn [fst snd].
  rewrite !px_per_pixel by exact Hp.
  unfold votes at 1 3.
  destruct (fltb (nccthresh cfg) (px (snd (view_result kernels cfg fuel i)) p));
    simpl; rewrite IHd, IHn; split; reflexivity.
Qed.

Lemma swept_depthmap_px p :
p < ref_width cfg * ref_height cfg ->
px (data (swept_depthmap kernels cfg fuel)) p
= let q := fdiv (depth_sum kernels cfg fuel p) (vote_count kernels cfg fuel p) in
  if feqb q q then q else fnan.
Proof.
intro Hp. unfold swept_depthmap, set_QNAN_value, element_rdivide. cbn [data].
rewrite !px_per_pixel by exact Hp.
destruct (@accumulated_px (views_used cfg) p Hp) as [-> ->]. reflexivity.
Qed.
End RunAlgorithmSpec.

Unset Implicit Arguments.

(** ** The plane sweep in [float] *)

Section SweepBinary32.
Local Existing Instance IEEE.binary32.
Variable D : Type.
Variable kernels : Kernels spec_float D.
Variable cfg : Settings spec_float.
Variable fuel : nat.

Lemma RunAlgorithm_exports (s s' : machine spec_float) :
RunAlgorithm kernels cfg fuel s = (Ok true, s') ->
depthmap (obj s') = swept_depthmap kernels cfg fuel.
Proof.
intro Hrun.
pose proof (RunAlgorithm_spec kernels cfg fuel s) as H.
unfold spec in H. rewrite Hrun in H. destruct H as [Ho _]. rewrite Ho. reflexivity.
Qed.

Lemma no_vote_no_number (p : nat) :
voters kernels cfg fuel p = [] ->
fdiv (depth_sum kernels cfg fuel p) (vote_count kernels cfg fuel p) = S754_nan.
Proof.
intro H. unfold depth_sum, vote_count. rewrite H. reflexivity.
Qed.

(** C1: for every pixel, if a run of [RunAlgorithm] assigns a defined depth
  (a depth equal to itself, which the sentinel is not), then the count of
  the source views whose best NCC exceeded [nccthresh] at that pixel is
  positive, and the depth is the sum of the winning depths of those views
  divided by their count. *)
Theorem RunAlgorithm_defined_depth_is_mean (s s' : machine spec_float) (p : nat) :
RunAlgorithm kernels cfg fuel s = (Ok true, s') ->
p < ref_width cfg * ref_height cfg ->
feqb (px (data (depthmap (obj s'))) p) (px (data (depthmap (obj s'))) p) = true ->
0 < length (voters kernels cfg fuel p)
/\ px (data (depthmap (obj s'))) p
   = fdiv (depth_sum kernels cfg fuel p) (vote_count kernels cfg fuel p).
Proof.
intros Hrun Hp. rewrite (RunAlgorithm_exports s s' Hrun), (swept_depthmap_px kernels cfg fuel Hp).
cbv zeta.
destruct (voters kernels cfg fuel p) as [|i l] eqn:Hv.
- rewrite (no_vote_no_number p Hv). simpl. discriminate.
- destruct (feqb (fdiv (depth_sum kernels cfg fuel p) (vote_count kernels cfg fuel p))
              (fdiv (depth_sum kernels cfg fuel p) (vote_count kernels cfg fuel p)))
    eqn:Hq.
  + intros _. split; [simpl; lia | reflexivity].
  + simpl. discriminate.
Qed.

(** C3: in the depth map a run of [RunAlgorithm] exports, a pixel at which
  no source view had a best NCC above [nccthresh] holds the sentinel: a
  value that is no number, equal to nothing and within no range. *)
Theorem RunAlgorithm_unresolved_pixel_is_sentinel (s s' : machine spec_float) (p : nat) :
RunAlgorithm kernels cfg fuel s = (Ok true, s') ->
p < ref_width cfg * ref_height cfg ->
voters kernels cfg fuel p = [] ->
px (data (depthmap (obj s'))) p = S754_nan
/\ forall z : spec_float,
     feqb (px (data (depthmap (obj s'))) p) z = false
     /\ fleb z (px (data (depthmap (obj s'))) p) = false
     /\ fleb (px (data (depthmap (obj s'))) p) z = false.
Proof.
intros Hrun Hp Hv.
assert (Hnan : px (data (depthmap (obj s'))) p = S754_nan).
{ rewrite (RunAlgorithm_exports s s' Hrun), (swept_depthmap_px kernels cfg fuel Hp).
  cbv zeta. rewrite (no_vote_no_number p Hv). reflexivity. }
split; [exact Hnan|]. rewrite Hnan. intro z.
destruct z; repeat split; reflexivity.
Qed.
End SweepBinary32.


Lemma RunAlgorithm_defined_depth_is_mean_witness :
0 < length (voters (AF := IEEE.binary32) Sample.kernels32 Sample.scenario32 32 0)
/\ px (AF := IEEE.binary32)
     (data (depthmap (obj (snd (RunAlgorithm (AF := IEEE.binary32)
                                  Sample.kernels32 Sample.scenario32 32
                                  Sample.start32))))) 0
   = fdiv (Arith := IEEE.binary32)
       (depth_sum (AF := IEEE.binary32) Sample.kernels32 Sample.scenario32 32 0)
       (vote_count (AF := IEEE.binary32) Sample.kernels32 Sample.scenario32 32 0).
Proof.
apply (RunAlgorithm_defined_depth_is_mean spec_float
         Sample.kernels32 Sample.scenario32 32 Sample.start32
         (snd (RunAlgorithm (AF := IEEE.binary32)
                 Sample.kernels32 Sample.scenario32 32 Sample.start32)) 0).
- vm_compute. reflexivity.
- vm_compute. lia.
- vm_compute. reflexivity.
Defined.

Lemma RunAlgorithm_unresolved_pixel_is_sentinel_witness :
px (AF := IEEE.binary32)
  (data (depthmap (obj (snd (RunAlgorithm (AF := IEEE.binary32)
                               Sample.kernels32 Sample.scenario32 32
                               Sample.start32))))) 1
= S754_nan.
Proof.
apply (RunAlgorithm_unresolved_pixel_is_sentinel spec_float
         Sample.kernels32 Sample.scenario32 32 Sample.start32
         (snd (RunAlgorithm (AF := IEEE.binary32)
                 Sample.kernels32 Sample.scenario32 32 Sample.start32)) 1).
- vm_compute. reflexivity.
- vm_compute. lia.
- vm_compute. reflexivity.
Defined.

(** ** The two conventions of the relative pose *)

Section RelativePose.
Local Existing Instance Exact.arith.
Local Open Scope Qc_scope.

#[local] Instance Qc_ring_ops :
  @Ncring.Ring_ops Qc 0 1 Qcplus Qcmult Qcminus Qcopp (@eq Qc) := {}.

Ltac qc_plain :=
  cbv [Ncring.eq_notation Ncring.add_notation Ncring.mul_notation
       Ncring.sub_notation Ncring.opp_notation Ncring.zero_notation
       Ncring.one_notation Algebra_syntax.equality Algebra_syntax.addition
       Algebra_syntax.multiplication Algebra_syntax.subtraction
       Algebra_syntax.opposite Algebra_syntax.zero Algebra_syntax.one
       Qc_ring_ops] in *.

#[local] Instance Qc_ring : Ncring.Ring (Ro := Qc_ring_ops).
Proof.
  split.
  all: try apply eq_equivalence.
  all: try (repeat intro; qc_plain; subst; reflexivity).
  all: intros; qc_plain; ring.
Defined.

#[local] Instance Qc_cring : Cring.Cring (Rr := Qc_ring).
Proof. intros x y. qc_plain. ring. Defined.

#[local] Instance Qc_domain : Integral_domain.Integral_domain (Rcr := Qc_cring).
Proof.
  split.
  - intros x y H. qc_plain. apply Qcmult_integral. exact H.
  - qc_plain. discriminate.
Qed.

Ltac exact_pose :=
  cbv beta iota delta
    [RelativeMatrices pose_inverse orthonormal exactM exactV mmap vmap
     mmul mvmul vsub vopp trans inv adj det mscale_div makeIdentity negb fst snd
     m00 m01 m02 m10 m11 m12 m20 m21 m22 vx vy vz
     fadd fsub fmul fdiv fopp fzero fone
     Exact.arith Exact.lift2 Exact.xdiv Exact.of_Z option_map].

Lemma exact_one : Q2Qc (inject_Z 1) = 1.
Proof. apply Qc_is_canon. reflexivity. Qed.
Lemma exact_zero : Q2Qc (inject_Z 0) = 0.
Proof. apply Qc_is_canon. reflexivity. Qed.

Lemma some_eq {A : Type} (x y : A) : Some x = Some y -> x = y.
Proof. intro H. injection H. auto. Qed.

Lemma orthonormal_exactM (a : Matrix3D Qc) :
  orthonormal (exactM a) ->
  let '(mkM a00 a01 a02 a10 a11 a12 a20 a21 a22) := a in
  a00 * a00 + a01 * a01 + a02 * a02 = 1
  /\ a00 * a10 + a01 * a11 + a02 * a12 = 0
  /\ a00 * a20 + a01 * a21 + a02 * a22 = 0
  /\ a10 * a10 + a11 * a11 + a12 * a12 = 1
  /\ a10 * a20 + a11 * a21 + a12 * a22 = 0
  /\ a20 * a20 + a21 * a21 + a22 * a22 = 1.
Proof.
  destruct a as [a00 a01 a02 a10 a11 a12 a20 a21 a22].
  exact_pose. rewrite exact_one, exact_zero. intro H.
  pose proof (some_eq _ _ (f_equal m00 H)) as H00.
  pose proof (some_eq _ _ (f_equal m01 H)) as H01.
  pose proof (some_eq _ _ (f_equal m02 H)) as H02.
  pose proof (some_eq _ _ (f_equal m11 H)) as H11.
  pose proof (some_eq _ _ (f_equal m12 H)) as H12.
  pose proof (some_eq _ _ (f_equal m22 H)) as H22.
  repeat split; assumption.
Qed.

Lemma Qcdiv_by (x a d : Qc) : d <> 0 -> x = a * d -> x / d = a.
Proof. intros Hd ->. field. exact Hd. Qed.

Lemma inv_trans_orthonormal (a : Matrix3D Qc) :
  orthonormal (exactM a) -> inv (exactM (trans a)) = exactM a.
Proof.
  intro H. apply orthonormal_exactM in H.
  destruct a as [a00 a01 a02 a10 a11 a12 a20 a21 a22].
  destruct H as (H00 & H01 & H02 & H11 & H12 & H22).
  exact_pose.
  set (d := a00 * (a11 * a22 - a21 * a12) - a10 * (a01 * a22 - a21 * a02)
            + a20 * (a01 * a12 - a11 * a02)).
  assert (Hd : d * d = 1) by (unfold d; nsatz).
  destruct (Qc_eq_dec d 0) as [Hz|Hnz].
  { rewrite Hz in Hd. exfalso. revert Hd. discriminate. }
  f_equal; f_equal; apply Qcdiv_by; try exact Hnz; unfold d; nsatz.
Qed.

(** C2, as amended: in exact arithmetic, for a reference rotation with
    orthonormal rows, the alternative derivation of the relative pose is the
    default derivation applied to the inverted poses [(Rᵗ, -Rᵗ t)] of the two
    cameras. *)
Theorem RelativeMatrices_alternative_inverts_poses
    (Rref Rsrc : Matrix3D Qc) (tref tsrc : Vector3D Qc) :
  orthonormal (exactM Rref) ->
  RelativeMatrices true (exactM Rref) (exactV tref) (exactM Rsrc) (exactV tsrc)
  = RelativeMatrices false
      (fst (pose_inverse (exactM Rref) (exactV tref)))
      (snd (pose_inverse (exactM Rref) (exactV tref)))
      (fst (pose_inverse (exactM Rsrc) (exactV tsrc)))
      (snd (pose_inverse (exactM Rsrc) (exactV tsrc))).
Proof.
  intro H.
  assert (Hinv : inv (trans (exactM Rref)) = exactM Rref)
    by (apply (inv_trans_orthonormal Rref H)).
  unfold RelativeMatrices, pose_inverse. cbn [negb fst snd]. rewrite Hinv.
  apply orthonormal_exactM in H.
  destruct Rref as [a00 a01 a02 a10 a11 a12 a20 a21 a22].
  destruct Rsrc as [b00 b01 b02 b10 b11 b12 b20 b21 b22].
  destruct tref as [p q r]. destruct tsrc as [u v w].
  destruct H as (H00 & H01 & H02 & H11 & H12 & H22).
  exact_pose.
  f_equal. f_equal; f_equal; nsatz.
Qed.

Lemma orthonormal_turn : orthonormal (exactM SamplePose.turn).
Proof.
  unfold orthonormal. exact_pose. cbv [SamplePose.turn].
  f_equal; f_equal; apply Qc_is_canon; reflexivity.
Qed.

Lemma orthonormal_eye : orthonormal (exactM SamplePose.eye).
Proof.
  unfold orthonormal. exact_pose. cbv [SamplePose.eye].
  f_equal; f_equal; apply Qc_is_canon; reflexivity.
Qed.

Lemma RelativeMatrices_alternative_inverts_poses_witness :
  RelativeMatrices true (exactM SamplePose.turn) (exactV SamplePose.right1)
    (exactM SamplePose.eye) (exactV SamplePose.up2)
  = RelativeMatrices false
      (fst (pose_inverse (exactM SamplePose.turn) (exactV SamplePose.right1)))
      (snd (pose_inverse (exactM SamplePose.turn) (exactV SamplePose.right1)))
      (fst (pose_inverse (exactM SamplePose.eye) (exactV SamplePose.up2)))
      (snd (pose_inverse (exactM SamplePose.eye) (exactV SamplePose.up2))).
Proof.
  apply (RelativeMatrices_alternative_inverts_poses
           SamplePose.turn SamplePose.eye SamplePose.right1 SamplePose.up2).
  unfold orthonormal. exact_pose. cbv [SamplePose.turn].
  f_equal; f_equal; apply Qc_is_canon; reflexivity.
Defined.

(** The claim C2 fails: with both cameras unrotated, the reference at the
    origin and the source one unit to the right, the default convention gives
    the relative translation [(1, 0, 0)] and the alternative [(-1, 0, 0)], in
    exact arithmetic and in [float] alike. *)
Lemma RelativeMatrices_conventions_disagree :
  ~ (forall (Rref Rsrc : Matrix3D Qc) (tref tsrc : Vector3D Qc),
        orthonormal (exactM Rref) ->
        orthonormal (exactM Rsrc) ->
        RelativeMatrices false (exactM Rref) (exactV tref) (exactM Rsrc) (exactV tsrc)
        = RelativeMatrices true (exactM Rref) (exactV tref) (exactM Rsrc) (exactV tsrc))
  /\ RelativeMatrices (AT := IEEE.binary32) false
       SamplePose.eye32 SamplePose.origin32 SamplePose.eye32 SamplePose.right32
     <> RelativeMatrices (AT := IEEE.binary32) true
          SamplePose.eye32 SamplePose.origin32 SamplePose.eye32 SamplePose.right32.
Proof.
  split.
  - intro H.
    specialize (H SamplePose.eye SamplePose.eye SamplePose.origin SamplePose.right1
                  orthonormal_eye orthonormal_eye).
    apply (f_equal (fun r => option_map (fun x => Qnum (this x)) (vx (snd r)))) in H.
    vm_compute in H. discriminate H.
  - intro H.
    apply (f_equal (fun r => vx (snd r))) in H.
    vm_compute in H. discriminate H.
Qed.
End RelativePose.

(** The identity of C2 as amended is one of exact arithmetic: in [float]
    the two sides are computed by different operations, and on the poses of
    [SampleRounding] the second component of the relative translation
    differs in its last bit. *)
Lemma RelativeMatrices_inverted_poses_round_differently :
  vy (snd (RelativeMatrices (AT := IEEE.binary32) true SamplePose.eye32
             SampleRounding.tref32 SampleRounding.turned32 SampleRounding.tsrc32))
  = S754_finite false 12079598 (-25)
  /\ vy (snd (RelativeMatrices (AT := IEEE.binary32) false
                (fst (pose_inverse (AT := IEEE.binary32) SamplePose.eye32
                        SampleRounding.tref32))
                (snd (pose_inverse (AT := IEEE.binary32) SamplePose.eye32
                        SampleRounding.tref32))
                (fst (pose_inverse (AT := IEEE.binary32) SampleRounding.turned32
                        SampleRounding.tsrc32))
                (snd (pose_inverse (AT := IEEE.binary32) SampleRounding.turned32
                        SampleRounding.tsrc32))))
     = S754_finite false 12079597 (-25).
Proof. split; vm_compute; reflexivity. Qed.

(** ** The loop over the depth hypotheses *)

Section DepthLoop.
Context {F : Type} {AF : Arith F}.
Variable cfg : Settings F.

(** Once the loop has ended, more steps change nothing. *)
Lemma for_depth_more_fuel {A : Type} (body : F -> A -> A) (fuel extra : nat) :
  forall (d : F) (acc r : A),
    for_depth cfg fuel body d acc = Some r ->
    for_depth cfg (fuel + extra) body d acc = Some r.
Proof.
  induction fuel as [|fuel IH]; intros d acc r H; simpl in *.
  - discriminate.
  - destruct (fleb d (zfar cfg)); [apply IH; exact H | exact H].
Qed.

(** Whether the loop ends does not depend on its body. *)
Lemma for_depth_ends {A B : Type} (body : F -> A -> A) (body' : F -> B -> B)
    (fuel : nat) :
  forall (d : F) (acc : A) (acc' : B),
    for_depth cfg fuel body d acc <> None ->
    for_depth cfg fuel body' d acc' <> None.
Proof.
  induction fuel as [|fuel IH]; intros d acc acc' H; simpl in *.
  - exfalso. apply H. reflexivity.
  - destruct (fleb d (zfar cfg)); [apply (IH _ _ _ H) | discriminate].
Qed.
End DepthLoop.


(** C5 fails on the end-to-end scenario of the specification itself: with
    [znear = 1], [zfar = 5] and 16 planes the step [4/15] rounds up in
    [float], the sum passes [zfar] one step early, and the loop visits 15
    depths, the last of them 4.7333336 and none of them [zfar], however many
    steps the loop is allowed. *)
Theorem depth_hypotheses_miss_zfar :
  forall extra : nat,
    exists visited,
      depth_hypotheses (AF := IEEE.binary32) Sample.scenario32 (16 + extra) = Some visited
      /\ length visited = 15
      /\ hd S754_nan visited = znear Sample.scenario32
      /\ last visited S754_nan = S754_finite false 9926520 (-21)
      /\ ~ In (zfar Sample.scenario32) visited.
Proof.
  intro extra.
  destruct (depth_hypotheses (AF := IEEE.binary32) Sample.scenario32 16)
    as [visited|] eqn:H16; [|vm_compute in H16; discriminate H16].
  exists visited. split.
  - apply (for_depth_more_fuel (AF := IEEE.binary32)). exact H16.
  - vm_compute in H16. injection H16 as <-.
    repeat split; try reflexivity.
    simpl. intros H. repeat (destruct H as [H|H]; [discriminate H|]). exact H.
Qed.

(** In exact arithmetic the same loop visits 16 depths, from [znear] to
    [zfar]. *)
Lemma depth_hypotheses_exact_scenario :
  option_map (map (option_map this))
    (depth_hypotheses (AF := Exact.arith) Sample.scenarioQ 17)
  = Some (map (fun k => Some (Qred (1 + 4 * inject_Z (Z.of_nat k) / 15)%Q)) (seq 0 16)).
Proof. vm_compute. reflexivity. Qed.

(** ** [CudaDenoise], run from any state *)

Section CudaDenoiseSpec.
Context {F D : Type} {AF : Arith F} {AD : Arith D} {W : Widen F D}.
Variable kernels : Kernels F D.
Variable cfg : Settings F.
Implicit Types s : machine F.
Implicit Types o : PlaneSweep F.

Lemma TVL1_iteration_step T rawInput lambda tau sigma theta w h i st :
  TVL1_iteration kernels T rawInput lambda tau sigma theta w h i st
  = TVL1_step kernels T rawInput lambda tau sigma theta w h st (currsigma sigma i).
Proof. reflexivity. Qed.

Lemma currsigma_schedule (sigma : D) (niters : nat) :
  map (currsigma sigma) (seq 0 niters) = dual_steps sigma niters.
Proof.
  destruct niters as [|later]; [reflexivity|].
  simpl. f_equal.
  rewrite <- seq_shift, map_map.
  generalize 0. induction later as [|later IH]; intro start; simpl; [reflexivity|].
  rewrite IH. reflexivity.
Qed.

Lemma length_dual_steps (sigma : D) (niters : nat) :
  length (dual_steps sigma niters) = niters.
Proof.
  destruct niters; simpl; [reflexivity|]. rewrite repeat_length. reflexivity.
Qed.

Lemma TVL1_loop_schedule T rawInput niters lambda tau sigma theta w h st :
  TVL1_loop kernels T rawInput niters lambda tau sigma theta w h st
  = fold_left (TVL1_step kernels T rawInput lambda tau sigma theta w h)
      (dual_steps sigma niters) st.
Proof.
  unfold TVL1_loop, for_range. rewrite <- currsigma_schedule.
  generalize (seq 0 niters) st. clear.
  induction l as [|i l IH]; intro st; simpl; [reflexivity|].
  rewrite IH. reflexivity.
Qed.

Lemma after_failed_CudaDenoise_refl o : after_failed_CudaDenoise o o.
Proof.
  unfold after_failed_CudaDenoise, same_raw, same_TGV, same_coords, kept_or_emptied.
  repeat split; auto.
Qed.

Lemma CudaDenoise_spec niters lambda tau sigma theta beta gamma s :
  spec (CudaDenoise kernels cfg niters lambda tau sigma theta beta gamma) s
    (fun b s' =>
       if b then
         depthavailable (obj s) = true
         /\ obj s' =
            set_depthmap8udenoised
              (ConvertDepthtoUChar (znear cfg) (zfar cfg)
                 (denoised_depthmap kernels cfg niters lambda tau sigma theta
                    beta gamma (depthmap (obj s))))
              (set_depthmapdenoised
                 (denoised_depthmap kernels cfg niters lambda tau sigma theta
                    beta gamma (depthmap (obj s)))
                 (set_d_depthmap allocated (obj s)))
       else
         (depthavailable (obj s) = false /\ s' = s)
         \/ (depthavailable (obj s) = true
             /\ after_failed_CudaDenoise (obj s) (obj s')
             /\ last_call s' = Some (cudaDeviceReset, true)))
    (fun s' =>
       depthavailable (obj s) = true
       /\ after_failed_CudaDenoise (obj s) (obj s')
       /\ last_call s' = Some (cudaDeviceReset, false)).
Proof.
  unfold CudaDenoise.
  eapply spec_bind; [apply member_spec | | intros s' []]; cbn beta.
  intros available s0 [-> ->].
  destruct (depthavailable (obj s)) eqn:Havail.
  2: { apply spec_ret. left. auto. }
  assert (Hkeep : forall o, after_failed_CudaDenoise (obj s) o ->
                            after_failed_CudaDenoise (obj s) (set_d_depthmap null o)).
  { intros o H. exact H. }
  eapply spec_try_catch with (E0 := fun s' => after_failed_CudaDenoise (obj s) (obj s')).
  2: { intros s' Hf. eapply spec_weaken; [apply handler_spec | |]; cbn beta.
       - intros b s2 (-> & Ho2 & Hl). right. rewrite Ho2. auto.
       - intros s2 [Ho2 Hl]. rewrite Ho2. auto. }
  eapply spec_bind; [apply cudaDevInit_spec | |]; cbn beta.
  2: { intros s' ->. apply after_failed_CudaDenoise_refl. }
  intros r s1 [Ho1 _].
  destruct r as [|dev].
  { eapply spec_weaken; [apply handler_spec | |]; cbn beta.
    - intros b s2 (-> & Ho2 & Hl). right. rewrite Ho2, Ho1.
      split; [reflexivity|]. split; [|exact Hl].
      apply Hkeep, after_failed_CudaDenoise_refl.
    - intros s2 [Ho2 Hl]. rewrite Ho2, Ho1. apply after_failed_CudaDenoise_refl. }
  eapply spec_bind; [apply member_spec | | intros s' []]; cbn beta.
  intros raw s2 [-> ->]. rewrite Ho1.
  set (w := width (depthmap (obj s))). set (h := height (depthmap (obj s))).
  assert (Hk1 : after_failed_CudaDenoise (obj s) (obj s1))
    by (rewrite Ho1; apply after_failed_CudaDenoise_refl).
  eapply spec_bind; [apply cuda_spec | | intros s' [-> _]; exact Hk1]; cbn beta.
  intros _ s3 (Ho3 & _ & _).
  eapply spec_bind; [apply cuda_spec | | intros s' [-> _]; rewrite Ho3; exact Hk1];
    cbn beta.
  intros _ s4 (Ho4 & _ & _).
  eapply spec_bind; [apply assign_spec | | intros s' []]; cbn beta.
  intros _ s5 (Ho5 & _).
  eapply spec_bind; [apply assign_spec | | intros s' []]; cbn beta.
  intros _ s6 (Ho6 & _).
  eapply spec_bind; [apply assign_spec | | intros s' []]; cbn beta.
  intros _ s7 (Ho7 & _).
  assert (Ho : obj s7 =
               set_depthmap8udenoised (reset (Some 0%Z) w h)
                 (set_depthmapdenoised (reset fzero w h)
                    (set_d_depthmap allocated (obj s))))
    by (rewrite Ho7, Ho6, Ho5, Ho4, Ho3, Ho1; reflexivity).
  assert (Hk : after_failed_CudaDenoise (obj s) (obj s7)).
  { rewrite Ho.
    unfold after_failed_CudaDenoise, same_raw, same_TGV, same_coords, kept_or_emptied.
    simpl. repeat split; auto. }
  clear Ho1 Ho3 Ho4 Ho5 Ho6 Ho7 Hk1 s1 s3 s4 s5 s6.
  eapply spec_bind; [apply Image_new_spec | | intros s' ->; exact Hk]; cbn beta.
  intros Rb s8 (-> & Ho8 & _).
  eapply spec_bind; [apply Image_new_spec | | intros s' ->; rewrite Ho8; exact Hk];
    cbn beta.
  intros Px s9 (-> & Ho9 & _).
  eapply spec_bind;
    [apply Image_new_spec | | intros s' ->; rewrite Ho9, Ho8; exact Hk]; cbn beta.
  intros Py s10 (-> & Ho10 & _).
  eapply spec_bind;
    [apply Images_new_spec | | intros s' ->; rewrite Ho10, Ho9, Ho8; exact Hk];
    cbn beta.
  intros _ s11 (Ho11 & _).
  assert (Ho' : obj s11 = obj s7) by congruence.
  clear Ho8 Ho9 Ho10 Ho11 s8 s9 s10.
  eapply spec_bind; [apply copyFrom_spec | | intros s' ->; rewrite Ho'; exact Hk];
    cbn beta.
  intros ref s12 (-> & Ho12 & _).
  eapply spec_bind;
    [apply copyFrom_spec | | intros s' ->; rewrite Ho12, Ho'; exact Hk]; cbn beta.
  intros x s13 (-> & Ho13 & _).
  eapply spec_bind;
    [apply copyFrom_spec | | intros s' ->; rewrite Ho13, Ho12, Ho'; exact Hk];
    cbn beta.
  intros rawInput s14 (-> & Ho14 & _).
  rewrite TVL1_loop_schedule.
  match goal with
  | |- context [fold_left ?f ?l ?a] => destruct (fold_left f l a) as [[x1 Rb1] P1] eqn:Hloop
  end.
  eapply spec_bind;
    [apply cuda_spec | | intros s' [-> _]; rewrite Ho14, Ho13, Ho12, Ho'; exact Hk];
    cbn beta.
  intros _ s15 (Ho15 & _ & _).
  eapply spec_bind; [apply assign_spec | | intros s' []]; cbn beta.
  intros _ s16 (Ho16 & _).
  eapply spec_bind; [apply assign_spec | | intros s' []]; cbn beta.
  intros _ s17 (Ho17 & _).
  apply spec_ret. split; [reflexivity|].
  rewrite Ho17, Ho16, Ho15, Ho14, Ho13, Ho12, Ho', Ho.
  match type of Hloop with
  | ?lhs = _ => assert (Hx : x1 = fst (fst lhs)) by (rewrite Hloop; reflexivity)
  end.
  rewrite Hx. reflexivity.
Qed.

(** C6: [CudaDenoise] runs exactly [niters] primal-dual iterations whatever
    the data (the loop has no other exit than its counter), the dual update of
    the first with the step size [1 + sigma] and of every later one with
    [sigma]: the loop is the fold of one iteration over the [niters] step
    sizes of [dual_steps], and a run that succeeds exports the result of
    that fold. *)
Theorem CudaDenoise_iterations niters lambda tau sigma theta beta gamma s s' :
  CudaDenoise kernels cfg niters lambda tau sigma theta beta gamma s = (Ok true, s') ->
  depthmapdenoised (obj s')
  = denoised_depthmap kernels cfg niters lambda tau sigma theta beta gamma
      (depthmap (obj s))
  /\ (forall T rawInput w h st,
        TVL1_loop kernels T rawInput niters lambda tau sigma theta w h st
        = fold_left (TVL1_step kernels T rawInput lambda tau sigma theta w h)
            (dual_steps sigma niters) st)
  /\ length (dual_steps sigma niters) = niters
  /\ (forall i, i < niters ->
        nth i (dual_steps sigma niters) sigma
        = if i =? 0 then fadd (of_int 1) sigma else sigma).
Proof.
  intro Hrun.
  pose proof (CudaDenoise_spec niters lambda tau sigma theta beta gamma s) as H.
  unfold spec in H. rewrite Hrun in H. destruct H as [_ Ho].
  split; [rewrite Ho; reflexivity|].
  split; [intros; apply TVL1_loop_schedule|].
  split; [apply length_dual_steps|].
  intros i Hi. destruct niters as [|later]; [lia|].
  destruct i as [|i]; [reflexivity|]. simpl.
  apply nth_repeat.
Qed.
End CudaDenoiseSpec.

(** ** Zero iterations of the denoiser *)

Section ZeroIterations.
Local Existing Instance Exact.arith.
Local Existing Instance Exact.widen.

(** In exact arithmetic the way out of the iterations undoes the way in. *)
Lemma roundtrip_exact (a b : Qc) (v : Exact.xnum) :
  a <> b ->
  fadd (fmul (fmul (fadd v (fopp (Some a)))
                (to_float (to_double (fdiv (of_int 1) (fsub (Some b) (Some a))))))
          (fsub (Some b) (Some a)))
       (Some a)
  = v.
Proof.
  intro Hab.
  assert (Hne : (b - a)%Qc <> 0%Qc).
  { intro H. apply Hab. symmetry.
    transitivity ((b - a) + a)%Qc; [ring | rewrite H; ring]. }
  destruct v as [c|]; [|reflexivity].
  cbv [fadd fmul fsub fdiv fopp of_int to_float to_double Exact.arith Exact.widen
       Exact.lift2 Exact.xdiv Exact.of_Z option_map].
  destruct (Qc_eq_dec (b - a) 0) as [Hz|_]; [contradiction|].
  f_equal. change (Q2Qc (inject_Z 1)) with 1%Qc. field. exact Hne.
Qed.

Lemma per_pixel_same {F : Type} {AF : Arith F} (n : nat) (f : nat -> F) (l : list F) :
  length l = n ->
  (forall p, p < n -> f p = px l p) ->
  per_pixel n f = l.
Proof.
  intros Hlen Hf. apply (nth_ext _ _ fzero fzero).
  - unfold per_pixel. rewrite length_map, length_seq. symmetry. exact Hlen.
  - intros p Hp. unfold per_pixel in Hp. rewrite length_map, length_seq in Hp.
    change (px (per_pixel n f) p = px l p).
    rewrite px_per_pixel by exact Hp. apply Hf. exact Hp.
Qed.

(** C7, as amended: in exact arithmetic, with [znear] and [zfar] two
    different numbers, [CudaDenoise] with [niters = 0] exports the raw depth
    map unchanged, undefined pixels included; the operations are those of the
    [float] program, where each of them rounds. *)
Theorem CudaDenoise_zero_iterations_exact
    (kernels : Kernels Exact.xnum Exact.xnum) (cfg : Settings Exact.xnum)
    (lambda tau sigma theta beta gamma : Exact.xnum)
    (s s' : machine Exact.xnum) (a b : Qc) :
  znear cfg = Some a ->
  zfar cfg = Some b ->
  a <> b ->
  length (data (depthmap (obj s)))
  = width (depthmap (obj s)) * height (depthmap (obj s)) ->
  CudaDenoise kernels cfg 0 lambda tau sigma theta beta gamma s = (Ok true, s') ->
  depthmapdenoised (obj s') = depthmap (obj s).
Proof.
  intros Hnear Hfar Hab Hlen Hrun.
  pose proof (CudaDenoise_spec kernels cfg 0 lambda tau sigma theta beta gamma s) as H.
  unfold spec in H. rewrite Hrun in H. destruct H as [_ Ho].
  rewrite Ho. cbn [depthmapdenoised set_depthmap8udenoised set_depthmapdenoised].
  unfold denoised_depthmap. cbn [dual_steps fold_left fst].
  destruct (depthmap (obj s)) as [w h pixels]. cbn [width height data] in *.
  f_equal.
  unfold denormalized, normalized. cbn [width height data].
  unfold element_add at 1. apply per_pixel_same; [exact Hlen|].
  intros p Hp.
  unfold element_scale at 1. rewrite px_per_pixel by exact Hp.
  unfold element_scale at 1. rewrite px_per_pixel by exact Hp.
  unfold element_add at 1. rewrite px_per_pixel by exact Hp.
  rewrite Hnear, Hfar. apply roundtrip_exact. exact Hab.
Qed.
End ZeroIterations.

Lemma CudaDenoise_zero_iterations_exact_witness :
  depthmapdenoised (obj (snd (SampleDenoise.denoiseQ 0 SampleDenoise.startQ)))
  = depthmap (obj SampleDenoise.startQ).
Proof.
  apply (CudaDenoise_zero_iterations_exact
           SampleDenoise.kernelsQ SampleDenoise.settingsQ
           (Sample.xq 1 1) (Sample.xq 1 50) (Sample.xq 8 1) (Sample.xq 1 1)
           (Sample.xq 4 1) (Sample.xq 1 2)
           SampleDenoise.startQ
           (snd (SampleDenoise.denoiseQ 0 SampleDenoise.startQ))
           (Q2Qc (Qmake 1 10)) (Q2Qc (Qmake 1 1))).
  - reflexivity.
  - reflexivity.
  - intro H. apply (f_equal this) in H. vm_compute in H. discriminate H.
  - reflexivity.
  - vm_compute. reflexivity.
Defined.

(** The claim C7 fails in [float]: with depths from 0.1 to 1.0, zero
    iterations turn the raw depth 0.7 (11744051 * 2^-24) into 0.70000005
    (11744052 * 2^-24). *)
Lemma CudaDenoise_zero_iterations_moves_depth :
  fst (SampleDenoise.denoise32 0 SampleDenoise.start32) = Ok true
  /\ data (depthmap (obj SampleDenoise.start32))
     = [S754_finite false 11744051 (-24)]
  /\ data (depthmapdenoised (obj (snd (SampleDenoise.denoise32 0 SampleDenoise.start32))))
     = [S754_finite false 11744052 (-24)]
  /\ depthmapdenoised (obj (snd (SampleDenoise.denoise32 0 SampleDenoise.start32)))
     <> depthmap (obj SampleDenoise.start32).
Proof.
  repeat split; try (vm_compute; reflexivity).
  intro H. apply (f_equal (@data _)) in H. vm_compute in H. discriminate H.
Qed.

Lemma CudaDenoise_iterations_witness :
  length (dual_steps (AD := IEEE.binary64) (SampleDenoise.f64 8 1) 3) = 3.
Proof.
  apply (CudaDenoise_iterations (AF := IEEE.binary32) (AD := IEEE.binary64)
           (W := IEEE.widen) Sample.kernels32 SampleDenoise.settings32 3
           (SampleDenoise.f64 1 1) (SampleDenoise.f64 1 50) (SampleDenoise.f64 8 1)
           (SampleDenoise.f64 1 1) (SampleDenoise.f64 4 1) (SampleDenoise.f64 1 2)
           SampleDenoise.start32
           (snd (SampleDenoise.denoise32 3 SampleDenoise.start32))).
  vm_compute. reflexivity.
Defined.

(** ** [ConvertDepthtoUChar] *)

Section StoreLoops.
Context {T : Type}.

Lemma length_store (i : nat) (v : T) (l : list T) : length (store i v l) = length l.
Proof.
  revert i. induction l as [|x l IH]; intros [|i]; simpl; auto.
Qed.

Lemma nth_store (i j : nat) (v d : T) (l : list T) :
  j < length l ->
  nth i (store j v l) d = if i =? j then v else nth i l d.
Proof.
  revert i j. induction l as [|x l IH]; intros i j Hj; simpl in Hj; [lia|].
  destruct j as [|j]; destruct i as [|i]; simpl; auto.
  apply IH. lia.
Qed.

(** A loop that stores [g j] at every index [j] of a list. *)
Lemma nth_fold_store (g : nat -> T) (d : T) (i : nat) (js : list nat) :
  forall o : list T,
    (forall j, In j js -> j < length o) ->
    nth i (fold_left (fun o j => store j (g j) o) js o) d
    = if existsb (Nat.eqb i) js then g i else nth i o d.
Proof.
  induction js as [|j js IH]; intros o Hjs; simpl; [reflexivity|].
  rewrite IH.
  - rewrite nth_store by (apply Hjs; left; reflexivity).
    destruct (i =? j) eqn:Hij; simpl.
    + apply Nat.eqb_eq in Hij. subst j. destruct (existsb (Nat.eqb i) js); reflexivity.
    + reflexivity.
  - intros k Hk. rewrite length_store. apply Hjs. right. exact Hk.
Qed.

Lemma length_fold_store (g : nat -> T) (js : list nat) :
  forall o : list T, length (fold_left (fun o j => store j (g j) o) js o) = length o.
Proof.
  induction js as [|j js IH]; intro o; simpl; [reflexivity|].
  rewrite IH. apply length_store.
Qed.

Lemma fold_left_flat_map {A B C : Type} (f : A -> B -> A) (F : C -> list B) (xs : list C) :
  forall a : A,
    fold_left f (flat_map F xs) a = fold_left (fun a x => fold_left f (F x) a) xs a.
Proof.
  induction xs as [|x xs IH]; intro a; simpl; [reflexivity|].
  rewrite fold_left_app. apply IH.
Qed.

Lemma fold_left_map' {A B C : Type} (f : A -> B -> A) (h : C -> B) (xs : list C) :
  forall a : A, fold_left f (map h xs) a = fold_left (fun a x => f a (h x)) xs a.
Proof.
  induction xs as [|x xs IH]; intro a; simpl; [reflexivity|]. apply IH.
Qed.
Lemma fold_left_same {A B : Type} (f g : A -> B -> A) (xs : list B) :
  (forall a x, f a x = g a x) ->
  forall a : A, fold_left f xs a = fold_left g xs a.
Proof.
  intro Hfg. induction xs as [|x xs IH]; intro a; simpl; [reflexivity|].
  rewrite Hfg. apply IH.
Qed.
End StoreLoops.

Section Quantization.
Context {F : Type} {AF : Arith F}.
Variables znear zfar : F.

Lemma ConvertDepthtoUChar_loops (input : CamImage F) :
  data (ConvertDepthtoUChar znear zfar input)
  = fold_left (fun o j => store j (quantize znear zfar (nth j (data input) fzero)) o)
      (visit_order (width input) (height input))
      (repeat (Some 0%Z) (width input * height input)).
Proof.
  unfold ConvertDepthtoUChar, ConvertDepthtoUChar_column, visit_order. cbn [data reset].
  rewrite fold_left_flat_map.
  apply fold_left_same. intros o x. rewrite fold_left_map'. reflexivity.
Qed.

Lemma visit_order_spec (w h i : nat) :
  In i (visit_order w h) <-> exists x y, x < w /\ y < h /\ i = x + y * w.
Proof.
  unfold visit_order. rewrite in_flat_map. split.
  - intros (x & Hx & Hi). apply in_map_iff in Hi. destruct Hi as (y & <- & Hy).
    apply in_seq in Hx. apply in_seq in Hy. exists x, y. lia.
  - intros (x & y & Hx & Hy & ->). exists x. split; [apply in_seq; lia|].
    apply in_map_iff. exists y. split; [reflexivity | apply in_seq; lia].
Qed.

(** Every pixel of the output is the quantized pixel of the input. *)
Lemma ConvertDepthtoUChar_pixel (input : CamImage F) (x y : nat) :
  x < width input -> y < height input ->
  nth (x + y * width input) (data (ConvertDepthtoUChar znear zfar input)) None
  = quantize znear zfar (nth (x + y * width input) (data input) fzero).
Proof.
  intros Hx Hy. rewrite ConvertDepthtoUChar_loops.
  rewrite nth_fold_store.
  - destruct (existsb (Nat.eqb (x + y * width input))
                (visit_order (width input) (height input))) eqn:He; [reflexivity|].
    exfalso. apply Bool.not_true_iff_false in He. apply He.
    apply existsb_exists. exists (x + y * width input). split.
    + apply visit_order_spec. exists x, y. auto.
    + apply Nat.eqb_refl.
  - intros j Hj. apply visit_order_spec in Hj. destruct Hj as (x' & y' & Hx' & Hy' & ->).
    rewrite repeat_length. nia.
Qed.
End Quantization.

Section QuantizeBinary32.
Local Existing Instance IEEE.binary32.
Local Open Scope Z_scope.

Lemma SFsub_self (x : spec_float) (s : bool) (m : positive) (e : Z) :
  x = S754_zero s \/ x = S754_finite s m e ->
  SFsub 24 128 x x = S754_zero false.
Proof.
  intros [-> | ->]; simpl.
  - destruct s; reflexivity.
  - rewrite Z.sub_diag. reflexivity.
Qed.




Lemma quantize_sentinel (znear zfar : spec_float) :
  quantize znear zfar S754_nan = Some 255.
Proof. reflexivity. Qed.



Lemma SFeqb_self (x : spec_float) (s : bool) (m : positive) (e : Z) :
  x = S754_zero s \/ x = S754_finite s m e -> SFeqb x x = true.
Proof.
  intros [-> | ->]; [reflexivity|].
  unfold SFeqb, SFcompare. rewrite Z.compare_refl, Pos.compare_cont_refl.
  destruct s; reflexivity.
Qed.



End QuantizeBinary32.

Section QuantizeExact.
Local Existing Instance Exact.arith.
Local Open Scope Qc_scope.

Lemma exact_ratio (a b c : Qc) :
  a < b ->
  exists q : Qc,
    fdiv (fsub (Some c) (Some a)) (fsub (Some b) (Some a)) = Some q
    /\ q * (b - a) = c - a /\ 0 < b - a.
Proof.
  intro Hab.
  assert (Hpos : 0 < b - a) by (apply Qclt_minus_iff in Hab; exact Hab).
  assert (Hne : b - a <> 0).
  { intro H. rewrite H in Hpos. revert Hpos. apply Qcle_not_lt, Qcle_refl. }
  exists ((c - a) / (b - a)). split; [|split; [field; exact Hne | exact Hpos]].
  cbv [fdiv fsub Exact.arith Exact.lift2 Exact.xdiv].
  destruct (Qc_eq_dec (b - a) 0); [contradiction | reflexivity].
Qed.



Lemma quantize_exact_undefined (a b : Exact.xnum) :
  quantize a b None = Some 255%Z.
Proof. reflexivity. Qed.
End QuantizeExact.




(** ** The TGV stages, run from any state *)

Section TGVSpec.
Context {F D : Type} {AF : Arith F} {AD : Arith D} {W : Widen F D}.
Variable kernels : Kernels F D.
Variable cfg : Settings F.
Implicit Types s : machine F.
Implicit Types o : PlaneSweep F.

Lemma upload_views_spec n w h s :
  spec (upload_views cfg n w h) s
    (fun _ s' => obj s' = obj s /\ views_of s' = views_of s ++ seq 0 n)
    (fun s' => obj s' = obj s).
Proof.
  unfold upload_views.
  eapply spec_weaken.
  - apply (spec_for_each
             (fun i views =>
                (Images_new 4 w h ;;
                 Src <- copyFrom (B_HostSrc i)
                          (data (image (nth i (HostSrc cfg) blank_view))) ;;
                 ret (views ++
                      [(element_scale Src (fdiv (of_int 1) (of_int 255)) w h,
                        RelativeMatrices (alternativemethod cfg)
                          (R (HostRef cfg)) (t (HostRef cfg))
                          (R (nth i (HostSrc cfg) blank_view))
                          (t (nth i (HostSrc cfg) blank_view)))]))%monad)
             (fun seen _ s' => obj s' = obj s /\ views_of s' = views_of s ++ seen)
             (fun s' => obj s' = obj s)).
    + intros seen i views s0 _ [Ho Hv].
      eapply spec_bind; [apply Images_new_spec | | intros; congruence]; cbn beta.
      intros _ s1 [Ho1 Hv1].
      eapply spec_bind; [apply copyFrom_spec | | intros; congruence]; cbn beta.
      intros Src s2 (-> & Ho2 & Hv2).
      apply spec_ret. split; [congruence|].
      rewrite Hv2, Hv1, Hv, <- app_assoc. reflexivity.
    + split; [reflexivity | symmetry; apply app_nil_r].
  - cbn beta. auto.
  - auto.
Qed.

Lemma after_failed_TGV_refl o : after_failed_TGV cfg o o.
Proof.
  unfold after_failed_TGV, same_raw, same_denoised, same_coords, kept_or_emptied.
  repeat split; auto.
Qed.

Lemma TGV_spec niters warps lambda alpha0 alpha1 tau sigma beta gamma s :
  spec (TGV kernels cfg niters warps lambda alpha0 alpha1 tau sigma beta gamma) s
    (fun b s' =>
       if b then
         views_of s' = views_of s ++ views_used cfg
         /\ exists u,
             obj s' =
               set_depthmap8uTGV
                 (ConvertDepthtoUChar (znear cfg) (zfar cfg)
                    (mkImage (ref_width cfg) (ref_height cfg) u))
                 (set_depthmapTGV (mkImage (ref_width cfg) (ref_height cfg) u) (obj s))
       else
         after_failed_TGV cfg (obj s) (obj s')
         /\ last_call s' = Some (cudaDeviceReset, true))
    (fun s' =>
       after_failed_TGV cfg (obj s) (obj s')
       /\ last_call s' = Some (cudaDeviceReset, false)).
Proof.
  unfold TGV.
  eapply spec_try_catch with (E0 := fun s' => after_failed_TGV cfg (obj s) (obj s')).
  2: { intros s' Hf. eapply spec_weaken; [apply handler_spec | |]; cbn beta.
       - intros b s2 (-> & Ho2 & Hl). rewrite Ho2. auto.
       - intros s2 [Ho2 Hl]. rewrite Ho2. auto. }
  eapply spec_bind; [apply cudaDevInit_spec | |]; cbn beta.
  2: { intros s' ->. apply after_failed_TGV_refl. }
  intros r s1 [Ho1 Hv1].
  destruct r as [|dev].
  { eapply spec_weaken; [apply handler_spec | |]; cbn beta.
    - intros b s2 (-> & Ho2 & Hl). rewrite Ho2, Ho1.
      split; [apply (after_failed_TGV_refl (obj s)) | exact Hl].
    - intros s2 [Ho2 Hl]. rewrite Ho2, Ho1. apply after_failed_TGV_refl. }
  set (w := ref_width cfg). set (h := ref_height cfg).
  eapply spec_bind; [apply assign_spec | | intros s' []]; cbn beta.
  intros _ s2 (Ho2 & Hg2).
  eapply spec_bind; [apply assign_spec | | intros s' []]; cbn beta.
  intros _ s3 (Ho3 & Hg3).
  assert (Ho : obj s3 =
               set_depthmap8uTGV (reset (Some 0%Z) w h)
                 (set_depthmapTGV (reset fzero w h) (obj s)))
    by (rewrite Ho3, Ho2, Ho1; reflexivity).
  assert (Hv : views_of s3 = views_of s)
    by (unfold views_of in *; rewrite Hg3, Hg2; exact Hv1).
  assert (Hk : after_failed_TGV cfg (obj s) (obj s3)).
  { rewrite Ho.
    unfold after_failed_TGV, same_raw, same_denoised, same_coords, kept_or_emptied.
    simpl. repeat split; auto. }
  clear Ho1 Ho2 Ho3 Hg2 Hg3 Hv1 s1 s2.
  eapply spec_bind; [apply Images_new_spec | | intros s' ->; exact Hk]; cbn beta.
  intros _ s4 (Ho4 & Hv4).
  eapply spec_bind; [apply cuda_spec | | intros s' [-> _]; rewrite Ho4; exact Hk];
    cbn beta.
  intros _ s5 (Ho5 & Hv5 & _).
  eapply spec_bind;
    [apply copyFrom_spec | | intros s' ->; rewrite Ho5, Ho4; exact Hk]; cbn beta.
  intros Ref s6 (-> & Ho6 & Hv6).
  eapply spec_bind;
    [apply upload_views_spec | | intros s' ->; rewrite Ho6, Ho5, Ho4; exact Hk];
    cbn beta.
  intros views s7 (Ho7 & Hv7).
  assert (Ho' : obj s7 = obj s3) by congruence.
  assert (Hv' : views_of s7 = views_of s ++ views_used cfg).
  { rewrite Hv7, Hv6, Hv5, Hv4, Hv. simpl. rewrite !app_nil_r. reflexivity. }
  clear Ho4 Ho5 Ho6 Ho7 Hv4 Hv5 Hv6 Hv7 s4 s5 s6.
  eapply spec_bind with
    (N0 := fun (_ : Image F) s' => obj s' = obj s3 /\ views_of s' = views_of s7)
    (E0 := fun s' => obj s' = obj s3).
  3: { intros s' ->. exact Hk. }
  { eapply spec_weaken.
    - apply (spec_for_each
               (fun (l : nat) (u : Image F) =>
                  (cuda (cudaMemcpy DeviceToDevice) ;;
                   cuda (cudaMemcpy DeviceToDevice) ;;
                   ret (TGV_warp kernels cfg
                          (Anisotropic_diffusion_tensor kernels
                             (element_scale (data (image (HostRef cfg)))
                                (fdiv (of_int 1) (of_int 255)) w h) beta gamma w h)
                          (element_scale (data (image (HostRef cfg)))
                             (fdiv (of_int 1) (of_int 255)) w h)
                          views niters lambda alpha0 alpha1 tau sigma
                          (to_double (m00 (K cfg))) (to_double (m11 (K cfg)))
                          w h u))%monad)
               (fun _ _ s' => obj s' = obj s3 /\ views_of s' = views_of s7)
               (fun s' => obj s' = obj s3)).
      + intros seen l u sa _ [Hoa Hva].
        eapply spec_bind; [apply cuda_spec | | intros s' [? _]; congruence]; cbn beta.
        intros _ sb (Hob & Hvb & _).
        eapply spec_bind; [apply cuda_spec | | intros s' [? _]; congruence]; cbn beta.
        intros _ sc (Hoc & Hvc & _).
        apply spec_ret. split; [congruence|].
        rewrite Hvc, Hvb, Hva. simpl. rewrite !app_nil_r. reflexivity.
      + auto.
    - cbn beta. auto.
    - auto. }
  cbn beta. intros u s8 [Ho8 Hv8].
  eapply spec_bind; [apply cuda_spec | | intros s' [-> _]; rewrite Ho8; exact Hk];
    cbn beta.
  intros _ s9 (Ho9 & Hv9 & _).
  eapply spec_bind; [apply assign_spec | | intros s' []]; cbn beta.
  intros _ s10 (Ho10 & Hg10).
  eapply spec_bind; [apply assign_spec | | intros s' []]; cbn beta.
  intros _ s11 (Ho11 & Hg11).
  apply spec_ret. split.
  - unfold views_of in *. rewrite Hg11, Hg10, Hv9, Hv8, Hv'. simpl.
    apply app_nil_r.
  - exists u. rewrite Ho11, Ho10, Ho9, Ho8, Ho. reflexivity.
Qed.

Lemma after_failed_sparse_refl o : after_failed_sparse cfg o o.
Proof.
  unfold after_failed_sparse, same_raw, same_denoised, same_coords, kept_or_emptied.
  repeat split; auto.
Qed.

Lemma TGVdenoiseFromSparse_spec depth niters alpha0 alpha1 tau sigma theta beta gamma s :
  spec (TGVdenoiseFromSparse kernels cfg depth niters alpha0 alpha1 tau sigma theta
          beta gamma) s
    (fun b s' =>
       if b then
         exists d,
           obj s' =
             set_depthmap8uTGV
               (ConvertDepthtoUChar (znear cfg) (zfar cfg)
                  (mkImage (ref_width cfg) (ref_height cfg) d))
               (set_depthmapTGV (mkImage (ref_width cfg) (ref_height cfg) d)
                  (set_d_depthmap allocated (obj s)))
       else
         after_failed_sparse cfg (obj s) (obj s')
         /\ last_call s' = Some (cudaDeviceReset, true))
    (fun s' =>
       after_failed_sparse cfg (obj s) (obj s')
       /\ last_call s' = Some (cudaDeviceReset, false)).
Proof.
  unfold TGVdenoiseFromSparse.
  eapply spec_try_catch with (E0 := fun s' => after_failed_sparse cfg (obj s) (obj s')).
  2: { intros s' Hf. eapply spec_weaken; [apply handler_spec | |]; cbn beta.
       - intros b s2 (-> & Ho2 & Hl). rewrite Ho2. auto.
       - intros s2 [Ho2 Hl]. rewrite Ho2. auto. }
  eapply spec_bind; [apply cudaDevInit_spec | |]; cbn beta.
  2: { intros s' ->. apply after_failed_sparse_refl. }
  intros r s1 [Ho1 _].
  destruct r as [|dev].
  { eapply spec_weaken; [apply handler_spec | |]; cbn beta.
    - intros b s2 (-> & Ho2 & Hl). rewrite Ho2, Ho1.
      split; [apply (after_failed_sparse_refl (obj s)) | exact Hl].
    - intros s2 [Ho2 Hl]. rewrite Ho2, Ho1. apply after_failed_sparse_refl. }
  set (w := ref_width cfg). set (h := ref_height cfg).
  eapply spec_bind; [apply assign_spec | | intros s' []]; cbn beta.
  intros _ s2 (Ho2 & _).
  assert (Hk2 : after_failed_sparse cfg (obj s) (obj s2)).
  { rewrite Ho2, Ho1.
    unfold after_failed_sparse, same_raw, same_denoised, same_coords, kept_or_emptied.
    simpl. repeat split; auto. }
  eapply spec_bind; [apply Images_new_spec | | intros s' ->; exact Hk2]; cbn beta.
  intros _ s3 (Ho3 & _).
  eapply spec_bind; [apply cuda_spec | | intros s' [-> _]; rewrite Ho3; exact Hk2];
    cbn beta.
  intros _ s4 (Ho4 & _ & _).
  eapply spec_bind;
    [apply cuda_spec | | intros s' [-> _]; rewrite Ho4, Ho3; exact Hk2]; cbn beta.
  intros _ s5 (Ho5 & _ & _).
  eapply spec_bind; [apply assign_spec | | intros s' []]; cbn beta.
  intros _ s6 (Ho6 & _).
  assert (Ho : obj s6 =
               set_depthmapTGV (reset fzero w h) (set_d_depthmap allocated (obj s)))
    by (rewrite Ho6, Ho5, Ho4, Ho3, Ho2, Ho1; reflexivity).
  assert (Hk : after_failed_sparse cfg (obj s) (obj s6)).
  { rewrite Ho.
    unfold after_failed_sparse, same_raw, same_denoised, same_coords, kept_or_emptied.
    simpl. repeat split; auto. }
  clear Ho1 Ho2 Ho3 Ho4 Ho5 Ho6 Hk2 s1 s2 s3 s4 s5.
  eapply spec_bind; [apply copyFrom_spec | | intros s' ->; exact Hk]; cbn beta.
  intros Ds s7 (-> & Ho7 & _).
  eapply spec_bind; [apply member_spec | | intros s' []]; cbn beta.
  intros raw s8 [-> ->].
  eapply spec_bind; [apply copyFrom_spec | | intros s' ->; rewrite Ho7; exact Hk];
    cbn beta.
  intros ubar s9 (-> & Ho9 & _).
  eapply spec_bind;
    [apply cuda_spec | | intros s' [-> _]; rewrite Ho9, Ho7; exact Hk]; cbn beta.
  intros _ s10 (Ho10 & _ & _).
  eapply spec_bind;
    [apply copyFrom_spec | | intros s' ->; rewrite Ho10, Ho9, Ho7; exact Hk]; cbn beta.
  intros ref s11 (-> & Ho11 & _).
  match goal with
  | |- context [for_range ?n ?f ?a] => destruct (for_range n f a) as [[[d1 bars] p1] q1]
  end.
  eapply spec_bind;
    [apply cuda_spec | | intros s' [-> _]; rewrite Ho11, Ho10, Ho9, Ho7; exact Hk];
    cbn beta.
  intros _ s12 (Ho12 & _ & _).
  eapply spec_bind; [apply assign_spec | | intros s' []]; cbn beta.
  intros _ s13 (Ho13 & _).
  eapply spec_bind; [apply assign_spec | | intros s' []]; cbn beta.
  intros _ s14 (Ho14 & _).
  apply spec_ret.
  exists (element_scale d1 (zfar cfg) w h).
  rewrite Ho14, Ho13, Ho12, Ho11, Ho10, Ho9, Ho7, Ho. reflexivity.
Qed.

(** [Denoise] touches no device: it answers whether the raw depth map
    exists, and writes the denoised 8-bit image when it does. *)
Lemma Denoise_spec niter lambda s :
  exists s',
    Denoise kernels niter lambda s = (Ok (depthavailable (obj s)), s')
    /\ gpu s' = gpu s
    /\ (depthavailable (obj s) = false -> s' = s).
Proof.
  unfold Denoise, bind, member, gets, assign, modify, ret.
  destruct (depthavailable (obj s)) eqn:Ha; simpl.
  - eexists. split; [reflexivity|]. split; [reflexivity | discriminate].
  - exists s. auto.
Qed.

(** The catch clause of [get3Dcoordinates]. *)
Lemma void_handler_spec s :
  spec (cudaReset ;; ret tt)%monad s
    (fun _ s' => last_call s' = Some (cudaDeviceReset, true))
    (fun s' => last_call s' = Some (cudaDeviceReset, false)).
Proof.
  eapply spec_bind; [apply cudaReset_spec | |]; cbn beta.
  - intros _ s' [_ Hl]. apply spec_ret. exact Hl.
  - intros s' [_ Hl]. exact Hl.
Qed.

Lemma get3Dcoordinates_spec s :
  spec (get3Dcoordinates kernels cfg) s
    (fun _ _ => True)
    (fun s' => last_call s' = Some (cudaDeviceReset, false)).
Proof.
  unfold get3Dcoordinates.
  eapply spec_try_catch with (E0 := fun _ => True).
  2: { intros s' _. eapply spec_weaken; [apply void_handler_spec | |]; cbn beta; auto. }
  unfold spec.
  match goal with |- match ?m s with _ => _ end => destruct (m s) as [[[]| |] s'] end;
    exact I.
Qed.

(** *** The stages return *)

Ltac halt_step :=
  first
    [ exact I
    | apply halts_cuda
    | apply halts_Image_new
    | apply halts_Images_new
    | apply halts_copyFrom
    | apply halts_cudaReset
    | apply halts_cudaDevInit
    | apply halts_handler
    | apply halts_for_each; intros
    | apply halts_try_catch; [|intros ? _]
    | apply halts_bind; [|intros ? ? _]
    | match goal with
      | |- halts (match ?x with _ => _ end) _ => destruct x
      | |- halts (let (_, _) := ?x in _) _ => destruct x
      end ].

Lemma halts_upload_views n w h s : halts (upload_views cfg n w h) s.
Proof. unfold upload_views. repeat halt_step. Qed.

Lemma halts_CudaDenoise niters lambda tau sigma theta beta gamma s :
  halts (CudaDenoise kernels cfg niters lambda tau sigma theta beta gamma) s.
Proof. unfold CudaDenoise. repeat halt_step. Qed.

Lemma halts_TGV niters warps lambda alpha0 alpha1 tau sigma beta gamma s :
  halts (TGV kernels cfg niters warps lambda alpha0 alpha1 tau sigma beta gamma) s.
Proof.
  unfold TGV. repeat halt_step.
Qed.

Lemma halts_TGVdenoiseFromSparse depth niters alpha0 alpha1 tau sigma theta beta gamma s :
  halts (TGVdenoiseFromSparse kernels cfg depth niters alpha0 alpha1 tau sigma theta
           beta gamma) s.
Proof. unfold TGVdenoiseFromSparse. repeat halt_step. Qed.

Lemma halts_get3Dcoordinates s : halts (get3Dcoordinates kernels cfg) s.
Proof. unfold get3Dcoordinates. repeat halt_step. Qed.

Lemma halts_terminated {A : Type} (o : option A) s :
  o <> None -> halts (terminated o) s.
Proof. unfold halts, terminated. destruct o; [intros _; exact I | intro H; apply H; reflexivity]. Qed.

Lemma view_best_ends fuel Ref Refmean Refstd index :
  depth_hypotheses cfg fuel <> None ->
  view_best kernels cfg fuel Ref Refmean Refstd index <> None.
Proof.
  unfold depth_hypotheses, view_best. intro Hends.
  destruct (RelativeMatrices _ _ _ _ _) as [Rrel trel].
  apply (for_depth_ends cfg _ _ fuel _ _ _ Hends).
Qed.

(** [RunAlgorithm] returns if the loop over the depth hypotheses ends. *)
Lemma halts_RunAlgorithm fuel s :
  depth_hypotheses cfg fuel <> None ->
  halts (RunAlgorithm kernels cfg fuel) s.
Proof.
  intro Hends. unfold RunAlgorithm. repeat halt_step.
  apply halts_terminated, view_best_ends, Hends.
Qed.
End TGVSpec.

(** ** The calls of a stage *)

Section Traces.
Context {F D : Type} {AF : Arith F} {AD : Arith D} {W : Widen F D}.
Implicit Types s : machine F.

Local Open Scope monad_scope.

Lemma all_succeeded_app (a b : list (call * bool)) :
  all_succeeded (a ++ b) = all_succeeded a && all_succeeded b.
Proof. unfold all_succeeded. apply forallb_app. Qed.

Lemma unhandled_ret {A} (P : A -> Prop) (a : A) :
  P a -> unhandled (F := F) P (ret a).
Proof. intros H s. exists []. split; [reflexivity | simpl; auto]. Qed.

Lemma unhandled_weaken {A} (P Q : A -> Prop) (m : M (machine F) A) :
  unhandled P m -> (forall a, P a -> Q a) -> unhandled Q m.
Proof.
  intros Hm HPQ s. destruct (Hm s) as [new [Hc H]]. exists new. split; [exact Hc|].
  destruct (fst (m s)); auto. destruct H; auto.
Qed.

Lemma unhandled_bind {A B} (P : A -> Prop) (Q : B -> Prop)
    (m : M (machine F) A) (f : A -> M (machine F) B) :
  unhandled P m -> (forall a, unhandled Q (f a)) -> unhandled Q (bind m f).
Proof.
  intros Hm Hf s. destruct (Hm s) as [new [Hc H]]. unfold bind.
  destruct (m s) as [[a| |] s1]; simpl in *.
  - destruct (Hf a s1) as [new' [Hc' H']]. exists (new' ++ new). split.
    + unfold calls_made in *. rewrite Hc', Hc. apply app_assoc.
    + destruct H as [Hok _]. rewrite all_succeeded_app, Hok, andb_true_r.
      destruct (fst (f a s1)); auto.
  - exists new. auto.
  - exists new. auto.
Qed.

Lemma unhandled_cuda c : unhandled (F := F) (fun _ => True) (cuda c).
Proof.
  intro s. unfold cuda.
  exists [(c, negb (hd false (faults (gpu s))))]. split; [reflexivity|].
  destruct (hd false (faults (gpu s))); simpl; auto.
Qed.

Lemma unhandled_assign (f : PlaneSweep F -> PlaneSweep F) :
  unhandled (fun _ => True) (assign f).
Proof. intro s. exists []. split; [reflexivity | simpl; auto]. Qed.

Lemma unhandled_member {A} (f : PlaneSweep F -> A) :
  unhandled (fun _ => True) (member f).
Proof. intro s. exists []. split; [reflexivity | simpl; auto]. Qed.

Lemma unhandled_terminated {A} (o : option A) :
  unhandled (F := F) (fun _ => True) (terminated o).
Proof.
  intro s. exists []. unfold terminated.
  destruct o; (split; [reflexivity | simpl; auto]).
Qed.

Lemma unhandled_for_each {X S} (body : X -> S -> M (machine F) S) (l : list X) :
  (forall x acc, unhandled (fun _ => True) (body x acc)) ->
  forall acc, unhandled (fun _ => True) (for_each l body acc).
Proof.
  intro Hbody. induction l as [|x l IH]; intro acc; simpl.
  - apply unhandled_ret. exact I.
  - eapply unhandled_bind; [apply Hbody | exact IH].
Qed.

Lemma unhandled_Image_new w h : unhandled (fun _ => True) (Image_new (AF := AF) w h).
Proof.
  unfold Image_new. eapply unhandled_bind; [apply unhandled_cuda|].
  intros _. apply unhandled_ret. exact I.
Qed.

Lemma unhandled_Images_new k w h :
  unhandled (fun _ => True) (Images_new (AF := AF) k w h).
Proof.
  unfold Images_new. apply unhandled_for_each. intros x acc.
  eapply unhandled_bind; [apply unhandled_Image_new|].
  intros _. apply unhandled_ret. exact I.
Qed.

Lemma unhandled_copyFrom b (pixels : list F) :
  unhandled (fun _ => True) (copyFrom b pixels).
Proof.
  unfold copyFrom. eapply unhandled_bind; [apply unhandled_cuda|].
  intros _. apply unhandled_ret. exact I.
Qed.

(** [cudaReset] and then the answer [v]: the one call is [cudaDeviceReset],
    and the answer is given if it succeeded, an exception thrown if not. *)
Lemma reset_and_answer {A} (v : A) s :
  exists b,
    log (gpu (snd ((cudaReset ;; ret v) s))) = (cudaDeviceReset, b) :: log (gpu s)
    /\ fst ((cudaReset ;; ret v) s) = if b then Ok v else Throw.
Proof.
  unfold cudaReset, bind, cuda, assign, modify, ret.
  destruct (hd false (faults (gpu s))); simpl.
  - exists false. split; reflexivity.
  - exists true. split; reflexivity.
Qed.

(** A try block whose handler is [cudaReset] and the answer [v]. *)
Lemma try_reset {A} (P : A -> Prop) (body : M (machine F) A) (v : A) s :
  unhandled P body ->
  exists new,
    calls_made s (snd (try_catch body (cudaReset ;; ret v) s)) new
    /\ match fst (try_catch body (cudaReset ;; ret v) s) with
       | Ok a => (all_succeeded new = true /\ P a)
                 \/ (a = v /\ ends_with_reset true new)
       | Throw => ends_with_reset false new
       | Hang => all_succeeded new = true
       end.
Proof.
  intro Hbody. destruct (Hbody s) as [new [Hc H]]. unfold try_catch.
  destruct (body s) as [[a| |] s1]; simpl in *.
  - exists new. split; [exact Hc | left; exact H].
  - destruct (reset_and_answer v s1) as [b [Hl Hr]].
    exists ((cudaDeviceReset, b) :: new). split.
    + unfold calls_made in *. rewrite Hl, Hc. reflexivity.
    + rewrite Hr. destruct b; [right; split; reflexivity | reflexivity].
  - exists new. split; assumption.
Qed.

Lemma cudaDevInit_calls s :
  exists b,
    log (gpu (snd (cudaDevInit s))) = (cudaGetDeviceCount, b) :: log (gpu s)
    /\ match fst (cudaDevInit s) with
       | Ok _ => b = true
       | Throw => b = false
       | Hang => False
       end.
Proof.
  unfold cudaDevInit, bind, cuda, gets, ret.
  destruct (hd false (faults (gpu s))); simpl.
  - exists false. split; reflexivity.
  - exists true. destruct (dev_count (gpu s) =? 0); split; reflexivity.
Qed.

(** The body shared by the four stages that begin with [cudaDevInit]: it
    answers [false] only where no device is found, after a reset. *)
Lemma unhandled_guarded (rest : M (machine F) bool) :
  unhandled (fun a => a = true) rest ->
  forall s, exists new,
    calls_made s
      (snd ((r <- cudaDevInit ;;
             match r with
             | NO_CUDA_DEVICE => cudaReset ;; ret false
             | Device _ => rest
             end) s)) new
    /\ match fst ((r <- cudaDevInit ;;
                   match r with
                   | NO_CUDA_DEVICE => cudaReset ;; ret false
                   | Device _ => rest
                   end) s) with
       | Ok a => all_succeeded new = true
                 /\ (a = false -> ends_with_reset true new)
       | Throw => True
       | Hang => all_succeeded new = true
       end.
Proof.
  intros Hrest s.
  destruct (cudaDevInit_calls s) as [b [Hl Hb]]. unfold bind.
  destruct (cudaDevInit s) as [[[|d]| |] s1]; simpl in *; try contradiction; subst b.
  - destruct (reset_and_answer false s1) as [b [Hl' Hr]].
    unfold bind in Hl', Hr.
    exists [(cudaDeviceReset, b); (cudaGetDeviceCount, true)]. split.
    + unfold calls_made. rewrite Hl', Hl. reflexivity.
    + rewrite Hr. destruct b; simpl; auto. split; [reflexivity|]. reflexivity.
  - destruct (Hrest s1) as [new [Hc H]].
    exists (new ++ [(cudaGetDeviceCount, true)]). split.
    + unfold calls_made in *. rewrite Hc, Hl. rewrite <- app_assoc. reflexivity.
    + rewrite all_succeeded_app. simpl.
      destruct (fst (rest s1)) as [a| |]; auto.
      * destruct H as [Hok ->]. rewrite Hok. split; [reflexivity | discriminate].
      * rewrite H. reflexivity.
  - exists [(cudaGetDeviceCount, false)]. split; [exact Hl | exact I].
Qed.

(** A stage of that shape. *)
Lemma guarded_stage (rest : M (machine F) bool) s :
  unhandled (fun a => a = true) rest ->
  exists new,
    stage_result s
      (try_catch
         (r <- cudaDevInit ;;
          match r with
          | NO_CUDA_DEVICE => cudaReset ;; ret false
          | Device _ => rest
          end)
         (cudaReset ;; ret false) s) new.
Proof.
  intro Hrest. pose proof (unhandled_guarded rest Hrest s) as Hbody.
  unfold stage_result, try_catch.
  destruct Hbody as [new [Hc H]].
  match goal with
  | |- context [match ?b s with _ => _ end] => destruct (b s) as [[a| |] s1]
  end; simpl in *.
  - exists new. split; [exact Hc|]. destruct H as [Hok Hr].
    destruct a; [exact Hok | apply Hr; reflexivity].
  - destruct (reset_and_answer false s1) as [b [Hl Hr]].
    exists ((cudaDeviceReset, b) :: new). split.
    + unfold calls_made in *. rewrite Hl, Hc. reflexivity.
    + rewrite Hr. destruct b; reflexivity.
  - exists new. split; assumption.
Qed.

(** The exception and the failed reset go together. *)
Lemma stage_result_throws s (r : outcome bool * machine F) new :
  stage_result s r new -> (fst r = Throw <-> ends_with_reset false new).
Proof.
  unfold stage_result, ends_with_reset, all_succeeded. intros [_ H]. split.
  - intro E. rewrite E in H. exact H.
  - intro E. destruct (fst r) as [[|]| |]; try reflexivity; exfalso.
    + destruct new as [|[c b] new]; [discriminate|]. simpl in *.
      injection E as -> ->. discriminate.
    + rewrite E in H. discriminate.
    + destruct new as [|[c b] new]; [discriminate|]. simpl in *.
      injection E as -> ->. discriminate.
Qed.

Lemma void_stage_result_throws s (r : outcome unit * machine F) new :
  void_stage_result s r new -> (fst r = Throw <-> ends_with_reset false new).
Proof.
  unfold void_stage_result, ends_with_reset, all_succeeded. intros [_ H]. split.
  - intro E. rewrite E in H. exact H.
  - intro E. destruct (fst r) as [[]| |]; try reflexivity; exfalso.
    + destruct H as [H | H].
      * destruct new as [|[c b] new]; [discriminate|]. simpl in *.
        injection E as -> ->. discriminate.
      * rewrite E in H. discriminate.
    + destruct new as [|[c b] new]; [discriminate|]. simpl in *.
      injection E as -> ->. discriminate.
Qed.

Ltac unhandled_step :=
  first
    [ apply unhandled_ret; first [reflexivity | exact I]
    | apply unhandled_cuda
    | apply unhandled_assign
    | apply unhandled_member
    | apply unhandled_terminated
    | apply unhandled_Image_new
    | apply unhandled_Images_new
    | apply unhandled_copyFrom
    | apply unhandled_for_each; intros
    | eapply unhandled_weaken;
        [eapply unhandled_for_each; intros | intros; exact I]
    | match goal with
      | |- unhandled _ (bind _ _) =>
          eapply unhandled_bind with (P := fun _ => True); [|intros]
      | |- unhandled _ (match ?x with _ => _ end) => destruct x
      | |- unhandled _ (let (_, _) := ?x in _) => destruct x
      end
    | progress cbv zeta ].

Variable kernels : Kernels F D.
Variable cfg : Settings F.

Lemma unhandled_upload_views n w h :
  unhandled (fun _ => True) (upload_views cfg n w h).
Proof. unfold upload_views. repeat unhandled_step. Qed.

Lemma unhandled_PlaneSweepThread fuel globDepth globN Ref Refmean Refstd index :
  unhandled (fun _ => True)
    (PlaneSweepThread kernels cfg fuel globDepth globN Ref Refmean Refstd index).
Proof. unfold PlaneSweepThread. repeat unhandled_step. Qed.

Lemma RunAlgorithm_calls fuel s :
  exists new, stage_result s (RunAlgorithm kernels cfg fuel s) new.
Proof.
  unfold RunAlgorithm.
  match goal with
  | |- exists new, stage_result s (bind (assign ?f) (fun _ => ?m) s) new =>
      change (bind (assign f) (fun _ => m) s)
        with (m (mkMachine (f (obj s)) (gpu s)));
      enough (exists new,
                 stage_result (mkMachine (f (obj s)) (gpu s))
                   (m (mkMachine (f (obj s)) (gpu s))) new) as [new [Hc H]];
        [exists new; split; [exact Hc | exact H]|]
  end.
  apply guarded_stage.
  repeat unhandled_step.
  apply unhandled_PlaneSweepThread.
Qed.

Lemma CudaDenoise_calls niters lambda tau sigma theta beta gamma s :
  depthavailable (obj s) = true ->
  exists new,
    stage_result s
      (CudaDenoise kernels cfg niters lambda tau sigma theta beta gamma s) new.
Proof.
  intro Ha. unfold CudaDenoise.
  unfold bind at 1. unfold member at 1, gets. rewrite Ha.
  apply guarded_stage.
  repeat unhandled_step.
Qed.

Lemma CudaDenoise_unavailable niters lambda tau sigma theta beta gamma s :
  depthavailable (obj s) = false ->
  CudaDenoise kernels cfg niters lambda tau sigma theta beta gamma s = (Ok false, s).
Proof.
  intro Ha. unfold CudaDenoise.
  unfold bind at 1. unfold member at 1, gets. rewrite Ha. reflexivity.
Qed.

Lemma TGV_calls niters warps lambda alpha0 alpha1 tau sigma beta gamma s :
  exists new,
    stage_result s
      (TGV kernels cfg niters warps lambda alpha0 alpha1 tau sigma beta gamma s) new.
Proof.
  unfold TGV. apply guarded_stage.
  repeat unhandled_step.
Qed.

Lemma TGVdenoiseFromSparse_calls depth niters alpha0 alpha1 tau sigma theta beta gamma s :
  exists new,
    stage_result s
      (TGVdenoiseFromSparse kernels cfg depth niters alpha0 alpha1 tau sigma theta
         beta gamma s) new.
Proof.
  unfold TGVdenoiseFromSparse. apply guarded_stage.
  repeat unhandled_step.
Qed.

Lemma get3Dcoordinates_calls s :
  exists new, void_stage_result s (get3Dcoordinates kernels cfg s) new.
Proof.
  unfold get3Dcoordinates, void_stage_result.
  match goal with
  | |- context [try_catch ?body _ s] =>
      assert (Hbody : unhandled (fun _ : unit => True) body)
  end.
  { repeat unhandled_step. }
  destruct (try_reset (fun _ : unit => True) _ tt s Hbody) as [new [Hc H]].
  exists new. split; [exact Hc|].
  match goal with
  | |- match fst ?r with _ => _ end => destruct (fst r) as [[]| |]
  end; auto.
  destruct H as [[H _] | [_ H]]; auto.
Qed.
End Traces.

(** ** Failure, reset and the outputs of earlier stages *)

Section Stages.
Context {F D : Type} {AF : Arith F} {AD : Arith D} {W : Widen F D}.
Variable kernels : Kernels F D.
Variable cfg : Settings F.
Implicit Types s : machine F.

(** C8, as amended: the four stages with a try block answer [true] only
    after runtime calls that all succeeded, and answer a failure found
    inside the try block (no device, or a caught exception) by [cudaReset]
    and the value [false]: the last call made is then a [cudaDeviceReset]
    that succeeded.  An exception reaches the caller exactly when the last
    call made is a [cudaDeviceReset] that failed, the one of the catch
    handler.  [CudaDenoise] and [Denoise] answer [false] at once, with no
    call and no reset, when no depth map is available; [get3Dcoordinates]
    returns no value, after calls that all succeeded or after a successful
    reset.  Every stage returns or throws, [RunAlgorithm] provided its loop
    over the depth hypotheses ends. *)
Theorem stages_reset_on_failure :
  (forall fuel s,
      stage_contract s (RunAlgorithm kernels cfg fuel s)
      /\ (depth_hypotheses cfg fuel <> None ->
          fst (RunAlgorithm kernels cfg fuel s) <> Hang))
  /\ (forall niters lambda tau sigma theta beta gamma s,
        (depthavailable (obj s) = false ->
         CudaDenoise kernels cfg niters lambda tau sigma theta beta gamma s
         = (Ok false, s))
        /\ (depthavailable (obj s) = true ->
            stage_contract s
              (CudaDenoise kernels cfg niters lambda tau sigma theta beta gamma s))
        /\ fst (CudaDenoise kernels cfg niters lambda tau sigma theta beta gamma s)
           <> Hang)
  /\ (forall niters warps lambda alpha0 alpha1 tau sigma beta gamma s,
        stage_contract s
          (TGV kernels cfg niters warps lambda alpha0 alpha1 tau sigma beta gamma s)
        /\ fst (TGV kernels cfg niters warps lambda alpha0 alpha1 tau sigma beta gamma s)
           <> Hang)
  /\ (forall depth niters alpha0 alpha1 tau sigma theta beta gamma s,
        stage_contract s
          (TGVdenoiseFromSparse kernels cfg depth niters alpha0 alpha1 tau sigma
             theta beta gamma s)
        /\ fst (TGVdenoiseFromSparse kernels cfg depth niters alpha0 alpha1 tau sigma
                  theta beta gamma s) <> Hang)
  /\ (forall niter lambda s,
        fst (Denoise kernels niter lambda s) = Ok (depthavailable (obj s))
        /\ gpu (snd (Denoise kernels niter lambda s)) = gpu s
        /\ (depthavailable (obj s) = false -> snd (Denoise kernels niter lambda s) = s))
  /\ (forall s,
        void_stage_contract s (get3Dcoordinates kernels cfg s)
        /\ fst (get3Dcoordinates kernels cfg s) <> Hang).
Proof.
  assert (Hhalt : forall A (m : M (machine F) A) s, halts m s -> fst (m s) <> Hang).
  { intros A m s H. unfold halts in H.
    destruct (m s) as [[a| |] s']; simpl; try discriminate; contradiction. }
  split; [|split; [|split; [|split; [|split]]]].
  - intros fuel s. split.
    + destruct (RunAlgorithm_calls kernels cfg fuel s) as [new H].
      exists new. split; [exact H | apply (stage_result_throws s _ new H)].
    + intro Hends. apply Hhalt. apply halts_RunAlgorithm. exact Hends.
  - intros niters lambda tau sigma theta beta gamma s. split; [|split].
    + apply CudaDenoise_unavailable.
    + intro Ha.
      destruct (CudaDenoise_calls kernels cfg niters lambda tau sigma theta beta gamma
                  s Ha) as [new H].
      exists new. split; [exact H | apply (stage_result_throws s _ new H)].
    + apply Hhalt. apply halts_CudaDenoise.
  - intros niters warps lambda alpha0 alpha1 tau sigma beta gamma s. split.
    + destruct (TGV_calls kernels cfg niters warps lambda alpha0 alpha1 tau sigma
                  beta gamma s) as [new H].
      exists new. split; [exact H | apply (stage_result_throws s _ new H)].
    + apply Hhalt. apply halts_TGV.
  - intros depth niters alpha0 alpha1 tau sigma theta beta gamma s. split.
    + destruct (TGVdenoiseFromSparse_calls kernels cfg depth niters alpha0 alpha1 tau
                  sigma theta beta gamma s) as [new H].
      exists new. split; [exact H | apply (stage_result_throws s _ new H)].
    + apply Hhalt. apply halts_TGVdenoiseFromSparse.
  - intros niter lambda s.
    destruct (Denoise_spec kernels niter lambda s) as (s' & Hrun & Hgpu & Hsame).
    rewrite Hrun. simpl. auto.
  - intro s. split.
    + destruct (get3Dcoordinates_calls kernels cfg s) as [new H].
      exists new. split; [exact H | apply (void_stage_result_throws s _ new H)].
    + apply Hhalt. apply halts_get3Dcoordinates.
Qed.

(** C9, as amended: a stage that returns failure leaves the outputs of the
    other stages as they were, and its own output buffers as they were or
    emptied: [RunAlgorithm] empties the raw depth map; [CudaDenoise] may have
    emptied the two denoised buffers; [TGV] may have emptied the two TGV
    buffers; [TGVdenoiseFromSparse] may have emptied the TGV depth map. *)
Theorem failed_stage_leaves_other_outputs :
  (forall fuel s s',
      RunAlgorithm kernels cfg fuel s = (Ok false, s') ->
      after_failed_RunAlgorithm cfg (obj s) (obj s'))
  /\ (forall niters lambda tau sigma theta beta gamma s s',
        CudaDenoise kernels cfg niters lambda tau sigma theta beta gamma s
        = (Ok false, s') ->
        after_failed_CudaDenoise (obj s) (obj s'))
  /\ (forall niters warps lambda alpha0 alpha1 tau sigma beta gamma s s',
        TGV kernels cfg niters warps lambda alpha0 alpha1 tau sigma beta gamma s
        = (Ok false, s') ->
        after_failed_TGV cfg (obj s) (obj s'))
  /\ (forall depth niters alpha0 alpha1 tau sigma theta beta gamma s s',
        TGVdenoiseFromSparse kernels cfg depth niters alpha0 alpha1 tau sigma theta
          beta gamma s = (Ok false, s') ->
        after_failed_sparse cfg (obj s) (obj s')).
Proof.
  split; [|split; [|split]].
  - intros fuel s s' Hrun. pose proof (RunAlgorithm_spec kernels cfg fuel s) as H.
    unfold spec in H. rewrite Hrun in H. destruct H as [Ho _]. rewrite Ho.
    unfold after_failed_RunAlgorithm, same_denoised, same_TGV, same_coords.
    simpl. repeat split; reflexivity.
  - intros niters lambda tau sigma theta beta gamma s s' Hrun.
    pose proof (CudaDenoise_spec kernels cfg niters lambda tau sigma theta beta gamma s)
      as H.
    unfold spec in H. rewrite Hrun in H.
    destruct H as [[_ ->] | (_ & H & _)]; [apply after_failed_CudaDenoise_refl | exact H].
  - intros niters warps lambda alpha0 alpha1 tau sigma beta gamma s s' Hrun.
    pose proof (TGV_spec kernels cfg niters warps lambda alpha0 alpha1 tau sigma
                  beta gamma s) as H.
    unfold spec in H. rewrite Hrun in H. destruct H as [H _]. exact H.
  - intros depth niters alpha0 alpha1 tau sigma theta beta gamma s s' Hrun.
    pose proof (TGVdenoiseFromSparse_spec kernels cfg depth niters alpha0 alpha1 tau
                  sigma theta beta gamma s) as H.
    unfold spec in H. rewrite Hrun in H. destruct H as [H _]. exact H.
Qed.

(** *** The source views a run uses *)

Lemma length_views_used :
  length (views_used cfg) = Z.to_nat (nimgs cfg).
Proof. unfold views_used. apply length_seq. Qed.

Lemma to_int_small (z : Z) : (- 2 ^ 31 <= z < 2 ^ 31)%Z -> to_int z = z.
Proof.
  intro Hz. unfold to_int.
  rewrite Z.mod_small by lia. lia.
Qed.

Lemma to_int_le (z : Z) : (0 <= z)%Z -> (to_int z <= z)%Z.
Proof.
  intro Hz. unfold to_int.
  pose proof (Z.mod_le (z + 2 ^ 31) (2 ^ 32) ltac:(lia) ltac:(lia)). lia.
Qed.

(** C10, as amended: a run of [RunAlgorithm] or of [TGV] that succeeds has
    copied to the device exactly the source views [0 .. n-1], in this order,
    where [n] is [min (max ((int) numberimages) 1) ((int) HostSrc.size())]
    with the conversions to [int] of the source, or none when this is not
    positive: never more views than are provided and, with fewer than [2^31]
    views provided, at least one whenever one is provided.  When
    [numberimages] is within the range of [int] as well, [n] is
    [min (max numberimages 1) (HostSrc.size())]. *)
Theorem views_used_by_a_run :
  (forall fuel s s',
      RunAlgorithm kernels cfg fuel s = (Ok true, s') ->
      views_of s' = views_of s ++ seq 0 (length (views_used cfg)))
  /\ (forall niters warps lambda alpha0 alpha1 tau sigma beta gamma s s',
        TGV kernels cfg niters warps lambda alpha0 alpha1 tau sigma beta gamma s
        = (Ok true, s') ->
        views_of s' = views_of s ++ seq 0 (length (views_used cfg)))
  /\ Z.of_nat (length (views_used cfg))
     = Z.max 0 (Z.min (Z.max (to_int (numberimages cfg)) 1)
                  (to_int (Z.of_nat (length (HostSrc cfg)))))
  /\ length (views_used cfg) <= length (HostSrc cfg)
  /\ ((Z.of_nat (length (HostSrc cfg)) < 2 ^ 31)%Z ->
      (HostSrc cfg <> [] -> 1 <= length (views_used cfg))
      /\ ((- 2 ^ 31 <= numberimages cfg < 2 ^ 31)%Z ->
          Z.of_nat (length (views_used cfg))
          = Z.min (Z.max (numberimages cfg) 1) (Z.of_nat (length (HostSrc cfg))))).
Proof.
  assert (Hseq : seq 0 (length (views_used cfg)) = views_used cfg)
    by (unfold views_used; rewrite length_seq; reflexivity).
  split; [|split; [|split; [|split]]].
  - intros fuel s s' Hrun. pose proof (RunAlgorithm_spec kernels cfg fuel s) as H.
    unfold spec in H. rewrite Hrun in H. destruct H as (_ & Hv & _).
    rewrite Hseq. exact Hv.
  - intros niters warps lambda alpha0 alpha1 tau sigma beta gamma s s' Hrun.
    pose proof (TGV_spec kernels cfg niters warps lambda alpha0 alpha1 tau sigma
                  beta gamma s) as H.
    unfold spec in H. rewrite Hrun in H. destruct H as [Hv _].
    rewrite Hseq. exact Hv.
  - rewrite length_views_used. unfold nimgs. lia.
  - rewrite length_views_used. unfold nimgs.
    pose proof (to_int_le (Z.of_nat (length (HostSrc cfg))) ltac:(lia)). lia.
  - intro Hsize. rewrite length_views_used. unfold nimgs.
    rewrite (to_int_small (Z.of_nat (length (HostSrc cfg)))) by lia.
    split.
    + intro Hne. destruct (HostSrc cfg) as [|v vs]; [contradiction|].
      simpl length in *. lia.
    + intro Hn. rewrite (to_int_small (numberimages cfg) Hn). lia.
Qed.
End Stages.

Lemma stages_reset_on_failure_witness :
  stage_contract SampleFailure.no_device32
    (SampleFailure.sweep32 SampleFailure.no_device32).
Proof.
  exact (proj1 (proj1 (stages_reset_on_failure (AF := IEEE.binary32)
                         (AD := IEEE.binary64) (W := IEEE.widen)
                         Sample.kernels32 Sample.scenario32)
                  32 SampleFailure.no_device32)).
Defined.

(** The claim C8 fails: [CudaDenoise] called before any depth map is
    available returns [false] and makes no device call at all, so no reset;
    and when [cudaDeviceReset] fails in the handler of [RunAlgorithm], the
    exception reaches the caller. *)
Lemma failure_without_reset_and_escaping_exception :
  SampleDenoise.denoise32 3 Sample.start32 = (Ok false, Sample.start32)
  /\ log (gpu Sample.start32) = []
  /\ fst (SampleFailure.sweep32 SampleFailure.reset_fails32) = Throw.
Proof.
  repeat split; vm_compute; reflexivity.
Qed.

Lemma failed_stage_leaves_other_outputs_witness :
  after_failed_RunAlgorithm (AF := IEEE.binary32) Sample.scenario32
    (obj SampleFailure.no_device32)
    (obj (snd (SampleFailure.sweep32 SampleFailure.no_device32))).
Proof.
  apply (proj1 (failed_stage_leaves_other_outputs (AF := IEEE.binary32)
                  (AD := IEEE.binary64) (W := IEEE.widen)
                  Sample.kernels32 Sample.scenario32)
           32 SampleFailure.no_device32
           (snd (SampleFailure.sweep32 SampleFailure.no_device32))).
  vm_compute. reflexivity.
Defined.

(** The claim C9 fails: an engine that holds the depth 2.0 at both pixels
    and runs [RunAlgorithm] on a machine without device gets [false], and its
    raw depth map is empty afterwards, while [depthavailable] still holds. *)
Lemma failed_RunAlgorithm_empties_depthmap :
  fst (SampleFailure.sweep32 SampleFailure.no_device32) = Ok false
  /\ data (depthmap (obj SampleFailure.no_device32))
     = [S754_finite false 8388608 (-22); S754_finite false 8388608 (-22)]
  /\ data (depthmap (obj (snd (SampleFailure.sweep32 SampleFailure.no_device32))))
     = [S754_zero false; S754_zero false]
  /\ depthavailable (obj (snd (SampleFailure.sweep32 SampleFailure.no_device32)))
     = true
  /\ depthmap (obj (snd (SampleFailure.sweep32 SampleFailure.no_device32)))
     <> depthmap (obj SampleFailure.no_device32).
Proof.
  repeat split; try (vm_compute; reflexivity).
  intro H. apply (f_equal (@data _)) in H. vm_compute in H. discriminate H.
Qed.

Lemma views_used_by_a_run_witness :
  (HostSrc Sample.scenario32 <> [] -> 1 <= length (views_used Sample.scenario32))
  /\ ((- 2 ^ 31 <= numberimages Sample.scenario32 < 2 ^ 31)%Z ->
      Z.of_nat (length (views_used Sample.scenario32))
      = Z.min (Z.max (numberimages Sample.scenario32) 1)
          (Z.of_nat (length (HostSrc Sample.scenario32)))).
Proof.
  apply (proj2 (proj2 (proj2 (proj2 (views_used_by_a_run (AF := IEEE.binary32)
                                       (W := IEEE.widen)
                                       Sample.kernels32 Sample.scenario32))))).
  vm_compute. reflexivity.
Defined.

(** Outside the range of [int] the conversion shows: with
    [numberimages = 4294967295] and two source views provided, a run that
    succeeds has used one view, where [min (max numberimages 1) 2] is 2. *)
Lemma views_used_wraps :
  numberimages SampleWrap.wrapped32 = 4294967295%Z
  /\ length (HostSrc SampleWrap.wrapped32) = 2
  /\ views_used SampleWrap.wrapped32 = [0]
  /\ fst (RunAlgorithm (AF := IEEE.binary32) Sample.kernels32 SampleWrap.wrapped32 32
            Sample.start32) = Ok true
  /\ views_of (snd (RunAlgorithm (AF := IEEE.binary32) Sample.kernels32
                      SampleWrap.wrapped32 32 Sample.start32)) = [0].
Proof. repeat split; vm_compute; reflexivity. Qed.

(** The claim C10 fails: with [numberimages = 1] and no source view
    provided, [RunAlgorithm] succeeds and has used no source view at all. *)
Lemma RunAlgorithm_without_source_views :
  numberimages SampleFailure.no_sources32 = 1%Z
  /\ HostSrc SampleFailure.no_sources32 = []
  /\ fst (SampleFailure.sweep_no_sources32 Sample.start32) = Ok true
  /\ views_of (snd (SampleFailure.sweep_no_sources32 Sample.start32)) = []
  /\ views_used SampleFailure.no_sources32 = [].
Proof.
  repeat split; vm_compute; reflexivity.
Qed.

(** ** The stages on a runtime without failures *)

Section FaultlessRuns.
Context {F D : Type} {AF : Arith F} {AD : Arith D} {W : Widen F D}.
Variable n : nat.
Implicit Types s : machine F.

Local Open Scope monad_scope.

Lemma returns_on_ret {A} (a : A) (P : A -> Prop) :
  P a -> returns_on (F := F) n (ret a) P.
Proof. intros H s Hs. simpl. auto. Qed.

Lemma returns_on_bind {A B} (m : M (machine F) A) (f : A -> M (machine F) B)
    (P : A -> Prop) (Q : B -> Prop) :
  returns_on n m P ->
  (forall a, P a -> returns_on n (f a) Q) ->
  returns_on n (bind m f) Q.
Proof.
  intros Hm Hf s Hs. unfold bind. specialize (Hm s Hs).
  destruct (m s) as [[a| |] s1]; try contradiction.
  destruct Hm as [Ha Hs1]. apply (Hf a Ha s1 Hs1).
Qed.

Lemma returns_on_weaken {A} (m : M (machine F) A) (P Q : A -> Prop) :
  returns_on n m P -> (forall a, P a -> Q a) -> returns_on n m Q.
Proof.
  intros Hm HPQ s Hs. specialize (Hm s Hs).
  destruct (m s) as [[a| |] s1]; try contradiction.
  destruct Hm as [Ha Hs1]. auto.
Qed.

Lemma returns_on_try_catch {A} (body handler : M (machine F) A) (P : A -> Prop) :
  returns_on n body P -> returns_on n (try_catch body handler) P.
Proof.
  intros Hb s Hs. unfold try_catch. specialize (Hb s Hs).
  destruct (body s) as [[a| |] s1]; try contradiction. exact Hb.
Qed.

Lemma returns_on_for_each {X S} (body : X -> S -> M (machine F) S) (l : list X) :
  (forall x acc, returns_on n (body x acc) (fun _ => True)) ->
  forall acc, returns_on n (for_each l body acc) (fun _ => True).
Proof.
  intro Hb. induction l as [|x l IH]; intro acc; simpl.
  - apply returns_on_ret. exact I.
  - eapply returns_on_bind; [apply Hb | intros a _; apply IH].
Qed.

Lemma returns_on_terminated {A} (o : option A) :
  o <> None -> returns_on (F := F) n (terminated o) (fun a => o = Some a).
Proof.
  intros Ho s Hs. unfold terminated. destruct o as [a|]; [auto | contradiction].
Qed.

Lemma returns_on_cuda c : returns_on (F := F) n (cuda c) (fun _ => True).
Proof.
  intros s [Hf Hn]. unfold cuda. rewrite Hf. simpl.
  split; [exact I|]. split; [reflexivity | exact Hn].
Qed.

Lemma returns_on_assign (f : PlaneSweep F -> PlaneSweep F) :
  returns_on n (assign f) (fun _ => True).
Proof. intros s Hs. simpl. split; [exact I | exact Hs]. Qed.

Lemma returns_on_member {A} (f : PlaneSweep F -> A) :
  returns_on n (member f) (fun _ => True).
Proof. intros s Hs. simpl. split; [exact I | exact Hs]. Qed.

Lemma returns_on_Image_new w h :
  returns_on n (Image_new (AF := AF) w h) (fun _ => True).
Proof.
  unfold Image_new.
  eapply returns_on_bind; [apply returns_on_cuda | intros; apply returns_on_ret; exact I].
Qed.

Lemma returns_on_Images_new k w h :
  returns_on n (Images_new (AF := AF) k w h) (fun _ => True).
Proof.
  unfold Images_new. apply returns_on_for_each. intros x acc.
  eapply returns_on_bind; [apply returns_on_Image_new|].
  intros; apply returns_on_ret; exact I.
Qed.

Lemma returns_on_copyFrom b (pixels : list F) :
  returns_on n (copyFrom b pixels) (fun _ => True).
Proof.
  unfold copyFrom.
  eapply returns_on_bind; [apply returns_on_cuda | intros; apply returns_on_ret; exact I].
Qed.

Lemma returns_on_cudaReset : returns_on (F := F) n cudaReset (fun _ => True).
Proof.
  unfold cudaReset.
  eapply returns_on_bind; [apply returns_on_cuda | intros; apply returns_on_assign].
Qed.

Lemma returns_on_cudaDevInit :
  returns_on (F := F) n cudaDevInit
    (fun r => if n =? 0 then r = NO_CUDA_DEVICE else r <> NO_CUDA_DEVICE).
Proof.
  intros s [Hf Hn]. unfold cudaDevInit, bind, cuda, gets. rewrite Hf. simpl.
  rewrite Hn. destruct (n =? 0); simpl.
  - split; [reflexivity|]. split; reflexivity.
  - split; [discriminate|]. split; reflexivity.
Qed.
End FaultlessRuns.

Ltac returns_step :=
  first
    [ apply returns_on_cuda
    | apply returns_on_assign
    | apply returns_on_member
    | apply returns_on_Image_new
    | apply returns_on_Images_new
    | apply returns_on_copyFrom
    | apply returns_on_cudaReset
    | apply returns_on_for_each; intros
    | eapply returns_on_bind; [|intros ? _]
    | match goal with
      | |- returns_on _ (match ?x with _ => _ end) _ => destruct x
      | |- returns_on _ (let (_, _) := ?x in _) _ => destruct x
      end ].

Section FaultlessStages.
Context {F D : Type} {AF : Arith F} {AD : Arith D} {W : Widen F D}.
Variable kernels : Kernels F D.
Variable cfg : Settings F.
Variable n : nat.
Implicit Types s : machine F.

Lemma returns_on_handler {A} (a : A) :
  returns_on (F := F) n (cudaReset ;; ret a)%monad (fun r => r = a).
Proof.
  eapply returns_on_bind; [apply returns_on_cudaReset|].
  intros _ _. apply returns_on_ret. reflexivity.
Qed.

Lemma returns_on_PlaneSweepThread fuel globDepth globN Ref Refmean Refstd i :
  depth_hypotheses cfg fuel <> None ->
  returns_on n
    (PlaneSweepThread kernels cfg fuel globDepth globN Ref Refmean Refstd i)
    (fun _ => True).
Proof.
  intro Hends. unfold PlaneSweepThread.
  do 3 (eapply returns_on_bind; [returns_step|]; intros ? _).
  eapply returns_on_bind.
  - apply returns_on_terminated. apply view_best_ends. exact Hends.
  - intros [devDepth devbestNCC] _. apply returns_on_ret. exact I.
Qed.

Lemma returns_on_upload_views k w h :
  returns_on n (upload_views cfg k w h) (fun _ => True).
Proof.
  unfold upload_views. repeat returns_step. apply returns_on_ret. exact I.
Qed.

Lemma returns_on_RunAlgorithm fuel :
  depth_hypotheses cfg fuel <> None ->
  returns_on n (RunAlgorithm kernels cfg fuel) (fun b => b = negb (n =? 0)).
Proof.
  intro Hends. unfold RunAlgorithm.
  eapply returns_on_bind; [apply returns_on_assign|]. intros _ _.
  apply returns_on_try_catch.
  eapply returns_on_bind; [apply returns_on_cudaDevInit|]. cbn beta.
  intros r Hr. destruct (n =? 0).
  - subst r. apply returns_on_handler.
  - destruct r as [|dev]; [contradiction|]. simpl negb.
    do 3 (eapply returns_on_bind; [returns_step|]; intros ? _).
    destruct (reference_statistics kernels cfg _) as [deviceRefmean deviceRefstd].
    do 2 (eapply returns_on_bind; [returns_step|]; intros ? _).
    eapply returns_on_bind.
    { apply returns_on_for_each. intros i [globDepth globN].
      apply returns_on_PlaneSweepThread. exact Hends. }
    intros [devDepthmap devN] _.
    repeat (eapply returns_on_bind; [returns_step|]; intros ? _).
    apply returns_on_ret. reflexivity.
Qed.

Lemma returns_on_CudaDenoise_available niters lambda tau sigma theta beta gamma :
  returns_on n
    (try_catch
       (r <- cudaDevInit ;;
        match r with
        | NO_CUDA_DEVICE => cudaReset ;; ret false
        | Device _ =>
            raw <- member depthmap ;;
            let h := height raw in
            let w := width raw in
            cuda cudaFree ;;
            cuda cudaMalloc ;;
            assign (set_d_depthmap allocated) ;;
            assign (set_depthmapdenoised (reset fzero w h)) ;;
            assign (set_depthmap8udenoised (reset (Some 0%Z) w h)) ;;
            Rb <- Image_new w h ;;
            Px <- Image_new w h ;;
            Py <- Image_new w h ;;
            Images_new 6 w h ;;
            ref <- copyFrom B_HostRef (data (image (HostRef cfg))) ;;
            x <- copyFrom B_depthmap (data raw) ;;
            rawInput <- copyFrom B_depthmap (data raw) ;;
            let ref := element_scale ref (fdiv (of_int 1) (of_int 255)) w h in
            let T := Anisotropic_diffusion_tensor kernels ref beta gamma w h in
            let x := element_add x (fopp (znear cfg)) w h in
            let rawInput := element_add rawInput (fopp (znear cfg)) w h in
            let xscale : D :=
              to_double (fdiv (of_int 1) (fsub (zfar cfg) (znear cfg))) in
            let inputscale : D :=
              fdiv (fopp sigma) (to_double (fsub (zfar cfg) (znear cfg))) in
            let x := element_scale x (to_float xscale) w h in
            let rawInput := element_scale rawInput (to_float inputscale) w h in
            let '(x, _, _) :=
              TVL1_loop kernels T rawInput niters lambda tau sigma theta w h
                (x, Rb, (Px, Py)) in
            let x := element_scale x (fsub (zfar cfg) (znear cfg)) w h in
            let x := element_add x (znear cfg) w h in
            cuda (cudaMemcpy (DeviceToHost B_depthmapdenoised)) ;;
            assign (set_depthmapdenoised (mkImage w h x)) ;;
            assign (fun o =>
                      set_depthmap8udenoised
                        (ConvertDepthtoUChar (znear cfg) (zfar cfg)
                           (depthmapdenoised o)) o) ;;
            ret true
        end)
       (cudaReset ;; ret false))%monad
    (fun b => b = negb (n =? 0)).
Proof.
  apply returns_on_try_catch.
  eapply returns_on_bind; [apply returns_on_cudaDevInit|]. cbn beta.
  intros r Hr. destruct (n =? 0).
  - subst r. apply returns_on_handler.
  - destruct r as [|dev]; [contradiction|]. simpl negb.
    do 13 (eapply returns_on_bind; [returns_step|]; intros ? _).
    cbv zeta.
    match goal with
    | |- context [TVL1_loop ?k ?T ?r ?ni ?l ?ta ?si ?th ?w ?h ?st] =>
        destruct (TVL1_loop k T r ni l ta si th w h st) as [[x1 Rb1] P1]
    end.
    repeat (eapply returns_on_bind; [returns_step|]; intros ? _).
    apply returns_on_ret. reflexivity.
Qed.

Lemma returns_on_TGV niters warps lambda alpha0 alpha1 tau sigma beta gamma :
  returns_on n
    (TGV kernels cfg niters warps lambda alpha0 alpha1 tau sigma beta gamma)
    (fun b => b = negb (n =? 0)).
Proof.
  unfold TGV.
  apply returns_on_try_catch.
  eapply returns_on_bind; [apply returns_on_cudaDevInit|]. cbn beta.
  intros r Hr. destruct (n =? 0).
  - subst r. apply returns_on_handler.
  - destruct r as [|dev]; [contradiction|]. simpl negb.
    do 5 (eapply returns_on_bind; [returns_step|]; intros ? _).
    eapply returns_on_bind; [apply returns_on_upload_views|]. intros views _.
    eapply returns_on_bind.
    { apply returns_on_for_each. intros l u.
      do 2 (eapply returns_on_bind; [returns_step|]; intros ? _).
      apply returns_on_ret. exact I. }
    intros u _.
    repeat (eapply returns_on_bind; [returns_step|]; intros ? _).
    apply returns_on_ret. reflexivity.
Qed.

Lemma returns_on_TGVdenoiseFromSparse depth niters alpha0 alpha1 tau sigma theta
    beta gamma :
  returns_on n
    (TGVdenoiseFromSparse kernels cfg depth niters alpha0 alpha1 tau sigma theta
       beta gamma)
    (fun b => b = negb (n =? 0)).
Proof.
  unfold TGVdenoiseFromSparse.
  apply returns_on_try_catch.
  eapply returns_on_bind; [apply returns_on_cudaDevInit|]. cbn beta.
  intros r Hr. destruct (n =? 0).
  - subst r. apply returns_on_handler.
  - destruct r as [|dev]; [contradiction|]. simpl negb.
    do 10 (eapply returns_on_bind; [returns_step|]; intros ? _).
    cbv zeta.
    match goal with
    | |- context [for_range ?ni ?f ?a] => destruct (for_range ni f a) as [[[d1 bars] p1] q1]
    end.
    repeat (eapply returns_on_bind; [returns_step|]; intros ? _).
    apply returns_on_ret. reflexivity.
Qed.

Lemma returns_on_get3Dcoordinates :
  returns_on n (get3Dcoordinates kernels cfg) (fun _ => True).
Proof.
  unfold get3Dcoordinates. apply returns_on_try_catch.
  destruct (RelativeMatrices _ _ _ _ _) as [Rr tw].
  do 5 (eapply returns_on_bind; [returns_step|]; intros ? _).
  match goal with
  | |- context [compute3D ?k ?a ?b ?c ?d ?w ?h] =>
      destruct (compute3D k a b c d w h) as [[Px1 Py1] X1]
  end.
  repeat (eapply returns_on_bind; [returns_step|]; intros ? _).
  apply returns_on_ret. exact I.
Qed.
End FaultlessStages.
(** ** The outputs a stage leaves alone *)

Section KeepsRules.
Context {F D : Type} {AF : Arith F} {AD : Arith D} {W : Widen F D}.
Variable R : PlaneSweep F -> PlaneSweep F -> Prop.
Hypothesis R_refl : forall o, R o o.
Hypothesis R_trans : forall o1 o2 o3, R o1 o2 -> R o2 o3 -> R o1 o3.

Local Open Scope monad_scope.

Lemma keeps_ret {A} (a : A) : keeps R (ret a).
Proof. intro s. simpl. apply R_refl. Qed.

Lemma keeps_bind {A B} (m : M (machine F) A) (f : A -> M (machine F) B) :
  keeps R m -> (forall a, keeps R (f a)) -> keeps R (bind m f).
Proof.
  intros Hm Hf s. unfold bind. specialize (Hm s).
  destruct (m s) as [[a| |] s1]; auto.
  specialize (Hf a s1).
  destruct (f a s1) as [[b| |] s2]; auto; apply (R_trans _ _ _ Hm Hf).
Qed.

Lemma keeps_try_catch {A} (body handler : M (machine F) A) :
  keeps R body -> keeps R handler -> keeps R (try_catch body handler).
Proof.
  intros Hb Hh s. unfold try_catch. specialize (Hb s).
  destruct (body s) as [[a| |] s1]; auto.
  specialize (Hh s1).
  destruct (handler s1) as [[b| |] s2]; auto; apply (R_trans _ _ _ Hb Hh).
Qed.

Lemma keeps_for_each {X S} (body : X -> S -> M (machine F) S) (l : list X) :
  (forall x acc, keeps R (body x acc)) ->
  forall acc, keeps R (for_each l body acc).
Proof.
  intro Hb. induction l as [|x l IH]; intro acc; simpl.
  - apply keeps_ret.
  - apply keeps_bind; [apply Hb | exact IH].
Qed.

Lemma keeps_terminated {A} (o : option A) : keeps R (terminated o).
Proof. intro s. unfold terminated. destruct o; [apply R_refl | exact I]. Qed.

Lemma keeps_cuda c : keeps R (cuda c).
Proof.
  intro s. unfold cuda. destruct (hd false (faults (gpu s))); apply R_refl.
Qed.

Lemma keeps_member {A} (f : PlaneSweep F -> A) : keeps R (member f).
Proof. intro s. apply R_refl. Qed.

Lemma keeps_assign (f : PlaneSweep F -> PlaneSweep F) :
  (forall o, R o (f o)) -> keeps R (assign f).
Proof. intros Hf s. apply Hf. Qed.

Lemma keeps_Image_new w h : keeps R (Image_new (AF := AF) w h).
Proof.
  unfold Image_new. apply keeps_bind; [apply keeps_cuda | intros; apply keeps_ret].
Qed.

Lemma keeps_Images_new k w h : keeps R (Images_new (AF := AF) k w h).
Proof.
  unfold Images_new. apply keeps_for_each. intros x acc.
  apply keeps_bind; [apply keeps_Image_new | intros; apply keeps_ret].
Qed.

Lemma keeps_copyFrom b (pixels : list F) : keeps R (copyFrom b pixels).
Proof.
  unfold copyFrom. apply keeps_bind; [apply keeps_cuda | intros; apply keeps_ret].
Qed.

Lemma keeps_cudaDevInit : keeps R (cudaDevInit (F := F)).
Proof.
  unfold cudaDevInit. apply keeps_bind; [apply keeps_cuda|]. intros _.
  apply keeps_bind; [intro s; apply R_refl|]. intro Count.
  destruct (Count =? 0); apply keeps_ret.
Qed.

Lemma keeps_cudaReset :
  (forall o, R o (set_d_depthmap null o)) -> keeps R (cudaReset (F := F)).
Proof.
  intro Hd. unfold cudaReset.
  apply keeps_bind; [apply keeps_cuda | intros; apply keeps_assign; exact Hd].
Qed.
End KeepsRules.

(** The relations are preorders, and each setter respects those that do not
    mention its field. *)
Ltac frame_solve :=
  unfold refined_kept, denoised_written, denoised8u_written, TGV_written,
    coords_written, same_raw, same_denoised, same_TGV, same_coords in *;
  simpl; intuition congruence.

Ltac keeps_step :=
  match goal with
  | |- keeps _ (ret _) => apply keeps_ret
  | |- keeps _ (cuda _) => apply keeps_cuda
  | |- keeps _ (member _) => apply keeps_member
  | |- keeps _ (terminated _) => apply keeps_terminated
  | |- keeps _ (Image_new _ _) => apply keeps_Image_new
  | |- keeps _ (Images_new _ _ _) => apply keeps_Images_new
  | |- keeps _ (copyFrom _ _) => apply keeps_copyFrom
  | |- keeps _ cudaDevInit => apply keeps_cudaDevInit
  | |- keeps _ cudaReset => apply keeps_cudaReset
  | |- keeps _ (assign _) => apply keeps_assign
  | |- keeps _ (for_each _ _ _) => apply keeps_for_each
  | |- keeps _ (try_catch _ _) => apply keeps_try_catch
  | |- keeps _ (bind _ _) => apply keeps_bind
  | |- keeps _ (match ?x with _ => _ end) => destruct x
  | |- forall _, _ => intro
  | |- _ => solve [frame_solve]
  end.

Section StageFrames.
Context {F D : Type} {AF : Arith F} {AD : Arith D} {W : Widen F D}.
Variable kernels : Kernels F D.
Variable cfg : Settings F.

Lemma keeps_RunAlgorithm fuel :
  keeps refined_kept (RunAlgorithm kernels cfg fuel).
Proof.
  unfold RunAlgorithm, PlaneSweepThread.
  repeat keeps_step.
Qed.

Lemma keeps_CudaDenoise niters lambda tau sigma theta beta gamma :
  keeps denoised_written
    (CudaDenoise kernels cfg niters lambda tau sigma theta beta gamma).
Proof.
  unfold CudaDenoise.
  repeat keeps_step.
Qed.

Lemma keeps_Denoise niter lambda :
  keeps denoised8u_written (Denoise kernels niter lambda).
Proof.
  unfold Denoise.
  repeat keeps_step.
Qed.

Lemma keeps_TGV niters warps lambda alpha0 alpha1 tau sigma beta gamma :
  keeps TGV_written
    (TGV kernels cfg niters warps lambda alpha0 alpha1 tau sigma beta gamma).
Proof.
  unfold TGV, upload_views.
  repeat keeps_step.
Qed.

Lemma keeps_TGVdenoiseFromSparse depth niters alpha0 alpha1 tau sigma theta
    beta gamma :
  keeps TGV_written
    (TGVdenoiseFromSparse kernels cfg depth niters alpha0 alpha1 tau sigma theta
       beta gamma).
Proof.
  unfold TGVdenoiseFromSparse.
  repeat keeps_step.
Qed.

Lemma keeps_get3Dcoordinates :
  keeps coords_written (get3Dcoordinates kernels cfg).
Proof.
  unfold get3Dcoordinates.
  repeat keeps_step.
Qed.
End StageFrames.

Section StageProperties.
Context {F D : Type} {AF : Arith F} {AD : Arith D} {W : Widen F D}.
Variable kernels : Kernels F D.
Variable cfg : Settings F.
Implicit Types s : machine F.

(** X1: on a runtime where no checked call fails, [RunAlgorithm] (its depth
    loop ending), [TGV] and [TGVdenoiseFromSparse] return [true] exactly when
    a device is present, [CudaDenoise] exactly when moreover a raw depth map
    is available, and [get3Dcoordinates] returns; none of them throws.
    [TGVdenoiseFromSparse] and [get3Dcoordinates] do not ask whether a depth
    map is available. *)
Theorem stages_succeed_without_faults (n : nat) s :
  faultless n s ->
  (forall fuel,
      depth_hypotheses cfg fuel <> None ->
      fst (RunAlgorithm kernels cfg fuel s) = Ok (negb (n =? 0)))
  /\ (forall niters lambda tau sigma theta beta gamma,
        fst (CudaDenoise kernels cfg niters lambda tau sigma theta beta gamma s)
        = Ok (depthavailable (obj s) && negb (n =? 0)))
  /\ (forall niters warps lambda alpha0 alpha1 tau sigma beta gamma,
        fst (TGV kernels cfg niters warps lambda alpha0 alpha1 tau sigma beta gamma s)
        = Ok (negb (n =? 0)))
  /\ (forall depth niters alpha0 alpha1 tau sigma theta beta gamma,
        fst (TGVdenoiseFromSparse kernels cfg depth niters alpha0 alpha1 tau sigma
               theta beta gamma s)
        = Ok (negb (n =? 0)))
  /\ fst (get3Dcoordinates kernels cfg s) = Ok tt.
Proof.
  intro Hs. split; [|split; [|split; [|split]]].
  - intros fuel Hends.
    pose proof (returns_on_RunAlgorithm kernels cfg n fuel Hends s Hs) as H.
    destruct (RunAlgorithm kernels cfg fuel s) as [[b| |] s']; try contradiction.
    destruct H as [-> _]. reflexivity.
  - intros niters lambda tau sigma theta beta gamma.
    pose proof (returns_on_CudaDenoise_available kernels cfg n niters lambda tau sigma
                  theta beta gamma s Hs) as H.
    unfold CudaDenoise.
    match type of H with
    | match ?m s with _ => _ end => change (try_catch _ _) with m; set (body := m) in *
    end.
    unfold bind, member, gets.
    destruct (depthavailable (obj s)); [|reflexivity].
    destruct (body s) as [[b| |] s']; try contradiction.
    destruct H as [-> _]. reflexivity.
  - intros niters warps lambda alpha0 alpha1 tau sigma beta gamma.
    pose proof (returns_on_TGV kernels cfg n niters warps lambda alpha0 alpha1 tau
                  sigma beta gamma s Hs) as H.
    destruct (TGV kernels cfg niters warps lambda alpha0 alpha1 tau sigma beta gamma s)
      as [[b| |] s']; try contradiction.
    destruct H as [-> _]. reflexivity.
  - intros depth niters alpha0 alpha1 tau sigma theta beta gamma.
    pose proof (returns_on_TGVdenoiseFromSparse kernels cfg n depth niters alpha0
                  alpha1 tau sigma theta beta gamma s Hs) as H.
    destruct (TGVdenoiseFromSparse kernels cfg depth niters alpha0 alpha1 tau sigma
                theta beta gamma s)
      as [[b| |] s']; try contradiction.
    destruct H as [-> _]. reflexivity.
  - pose proof (returns_on_get3Dcoordinates kernels cfg n s Hs) as H.
    destruct (get3Dcoordinates kernels cfg s) as [[[]| |] s']; try contradiction.
    reflexivity.
Qed.

(** X2: the stages compose: on a runtime with a device where no call fails,
    [RunAlgorithm] (its depth loop ending) followed by [CudaDenoise] returns
    [true] twice, and leaves the depth map of the sweep as the raw depth map
    and its denoising as the denoised depth map. *)
Theorem CudaDenoise_after_RunAlgorithm (n fuel niters : nat)
    (lambda tau sigma theta beta gamma : D) s :
  faultless n s ->
  n <> 0 ->
  depth_hypotheses cfg fuel <> None ->
  exists s1 s2,
    RunAlgorithm kernels cfg fuel s = (Ok true, s1)
    /\ CudaDenoise kernels cfg niters lambda tau sigma theta beta gamma s1
       = (Ok true, s2)
    /\ depthmap (obj s2) = swept_depthmap kernels cfg fuel
    /\ depthmapdenoised (obj s2)
       = denoised_depthmap kernels cfg niters lambda tau sigma theta beta gamma
           (swept_depthmap kernels cfg fuel).
Proof.
  intros Hs Hn Hends.
  assert (Hn0 : (n =? 0) = false) by (apply Nat.eqb_neq; exact Hn).
  pose proof (returns_on_RunAlgorithm kernels cfg n fuel Hends s Hs) as H1.
  pose proof (RunAlgorithm_spec kernels cfg fuel s) as Hspec1. unfold spec in Hspec1.
  destruct (RunAlgorithm kernels cfg fuel s) as [[b1| |] s1] eqn:Hrun1;
    try contradiction.
  destruct H1 as [-> Hs1]. rewrite Hn0 in Hspec1. simpl negb in Hspec1.
  destruct Hspec1 as (Ho1 & _ & _).
  assert (Ha : depthavailable (obj s1) = true) by (rewrite Ho1; reflexivity).
  pose proof (returns_on_CudaDenoise_available kernels cfg n niters lambda tau sigma
                theta beta gamma s1 Hs1) as H2.
  pose proof (CudaDenoise_spec kernels cfg niters lambda tau sigma theta beta gamma s1)
    as Hspec2.
  unfold spec in Hspec2.
  match type of H2 with
  | match ?m s1 with _ => _ end =>
      assert (Hrun :
                CudaDenoise kernels cfg niters lambda tau sigma theta beta gamma s1
                = m s1)
        by (unfold CudaDenoise; change (try_catch _ _) with m;
            generalize m; intro body; unfold bind, member, gets; rewrite Ha;
            reflexivity)
  end.
  rewrite <- Hrun in H2. clear Hrun.
  destruct (CudaDenoise kernels cfg niters lambda tau sigma theta beta gamma s1)
    as [[b2| |] s2] eqn:Hrun2; try contradiction.
  destruct H2 as [-> _]. rewrite Hn0 in Hspec2. simpl negb in Hspec2.
  destruct Hspec2 as [_ Ho2].
  exists s1, s2. rewrite Hrun2, Hn0. split; [reflexivity|]. split; [reflexivity|].
  rewrite Ho2, Ho1. split; reflexivity.
Qed.

(** X3: whatever a refinement stage comes to (true, false or an exception),
    it has written none but its own outputs: [CudaDenoise] the two denoised
    buffers, [Denoise] the 8-bit denoised image, [TGV] and
    [TGVdenoiseFromSparse] the two TGV buffers, [get3Dcoordinates] the three
    coordinate images.  In particular [depthavailable], [depthmap] and
    [depthmap8u] are as [RunAlgorithm] left them. *)
Theorem refinement_stages_write_their_own_outputs :
  (forall niters lambda tau sigma theta beta gamma,
      keeps denoised_written
        (CudaDenoise kernels cfg niters lambda tau sigma theta beta gamma))
  /\ (forall niter lambda,
        keeps denoised8u_written (Denoise kernels niter lambda))
  /\ (forall niters warps lambda alpha0 alpha1 tau sigma beta gamma,
        keeps TGV_written
          (TGV kernels cfg niters warps lambda alpha0 alpha1 tau sigma beta gamma))
  /\ (forall depth niters alpha0 alpha1 tau sigma theta beta gamma,
        keeps TGV_written
          (TGVdenoiseFromSparse kernels cfg depth niters alpha0 alpha1 tau sigma
             theta beta gamma))
  /\ keeps coords_written (get3Dcoordinates kernels cfg).
Proof.
  split; [|split; [|split; [|split]]]; intros.
  - apply keeps_CudaDenoise.
  - apply keeps_Denoise.
  - apply keeps_TGV.
  - apply keeps_TGVdenoiseFromSparse.
  - apply keeps_get3Dcoordinates.
Qed.

(** X4: whatever [RunAlgorithm] comes to, it has written none of the
    denoised, TGV and coordinate outputs, and it has not cleared
    [depthavailable]: a raw depth map that was available is still said to be,
    also after a run that failed and emptied it. *)
Theorem RunAlgorithm_writes_raw_outputs_only (fuel : nat) s :
  match RunAlgorithm kernels cfg fuel s with
  | (Ok _, s') | (Throw, s') =>
      same_denoised (obj s) (obj s') /\ same_TGV (obj s) (obj s')
      /\ same_coords (obj s) (obj s')
      /\ (depthavailable (obj s) = true -> depthavailable (obj s') = true)
  | (Hang, _) => True
  end.
Proof.
  pose proof (keeps_RunAlgorithm kernels cfg fuel s) as H.
  destruct (RunAlgorithm kernels cfg fuel s) as [[b| |] s']; exact H.
Qed.
End StageProperties.

Lemma stages_succeed_without_faults_witness :
  fst (TGV (AF := IEEE.binary32) (W := IEEE.widen)
         Sample.kernels32 Sample.scenario32 2 1
         (SampleDenoise.f64 1 1) (SampleDenoise.f64 1 1) (SampleDenoise.f64 1 1)
         (SampleDenoise.f64 1 50) (SampleDenoise.f64 8 1)
         (SampleDenoise.f64 4 1) (SampleDenoise.f64 1 2) Sample.start32)
  = Ok true.
Proof.
  apply (proj1 (proj2 (proj2
           (stages_succeed_without_faults (AF := IEEE.binary32)
              (AD := IEEE.binary64) (W := IEEE.widen)
              Sample.kernels32 Sample.scenario32 1 Sample.start32
              (conj eq_refl eq_refl))))).
Defined.

Lemma CudaDenoise_after_RunAlgorithm_witness :
  exists s1 s2,
    SampleFailure.sweep32 Sample.start32 = (Ok true, s1)
    /\ CudaDenoise (AF := IEEE.binary32) (AD := IEEE.binary64) (W := IEEE.widen)
         Sample.kernels32 Sample.scenario32 3
         (SampleDenoise.f64 1 1) (SampleDenoise.f64 1 50) (SampleDenoise.f64 8 1)
         (SampleDenoise.f64 1 1) (SampleDenoise.f64 4 1) (SampleDenoise.f64 1 2) s1
       = (Ok true, s2)
    /\ depthmap (obj s2)
       = swept_depthmap (AF := IEEE.binary32) Sample.kernels32 Sample.scenario32 32
    /\ depthmapdenoised (obj s2)
       = denoised_depthmap (AF := IEEE.binary32) (AD := IEEE.binary64)
           (W := IEEE.widen) Sample.kernels32 Sample.scenario32 3
           (SampleDenoise.f64 1 1) (SampleDenoise.f64 1 50) (SampleDenoise.f64 8 1)
           (SampleDenoise.f64 1 1) (SampleDenoise.f64 4 1) (SampleDenoise.f64 1 2)
           (swept_depthmap (AF := IEEE.binary32) Sample.kernels32 Sample.scenario32 32).
Proof.
  apply (CudaDenoise_after_RunAlgorithm (AF := IEEE.binary32) (AD := IEEE.binary64)
           (W := IEEE.widen) Sample.kernels32 Sample.scenario32 1 32 3
           (SampleDenoise.f64 1 1) (SampleDenoise.f64 1 50) (SampleDenoise.f64 8 1)
           (SampleDenoise.f64 1 1) (SampleDenoise.f64 4 1) (SampleDenoise.f64 1 2)
           Sample.start32).
  - split; reflexivity.
  - discriminate.
  - vm_compute. discriminate.
Defined.

(** ** The loop over the depth hypotheses, in any arithmetic *)

Section DepthLoopShape.
Context {F D : Type} {AF : Arith F}.
Variable kernels : Kernels F D.
Variable cfg : Settings F.

Lemma for_depth_visits (fuel : nat) :
  forall (k : nat) (acc visited : list F),
    for_depth cfg fuel (fun d v => v ++ [d]) (depth_after cfg k) acc = Some visited ->
    exists m,
      visited = acc ++ map (depth_after cfg) (seq k m)
      /\ (forall j, k <= j < k + m -> in_range cfg (depth_after cfg j))
      /\ fleb (depth_after cfg (k + m)) (zfar cfg) = false
      /\ m < fuel.
Proof.
  induction fuel as [|fuel IH]; intros k acc visited H; simpl in H.
  - discriminate H.
  - destruct (fleb (depth_after cfg k) (zfar cfg)) eqn:Hk.
    + change (fadd (depth_after cfg k) (dstep cfg)) with (depth_after cfg (S k)) in H.
      destruct (IH (S k) _ _ H) as (m & Hv & Hin & Hout & Hm).
      exists (S m). split; [|split; [|split]].
      * rewrite Hv, <- app_assoc. reflexivity.
      * intros j Hj. destruct (Nat.eq_dec j k) as [->|Hne]; [exact Hk|].
        apply Hin. lia.
      * replace (k + S m) with (S k + m) by lia. exact Hout.
      * lia.
    + injection H as <-. exists 0. split; [|split; [|split]].
      * symmetry. apply app_nil_r.
      * intros j Hj. lia.
      * rewrite Nat.add_0_r. exact Hk.
      * lia.
Qed.

Lemma for_depth_returns (m : nat) :
  forall (fuel k : nat) (acc : list F),
    (forall j, k <= j < k + m -> in_range cfg (depth_after cfg j)) ->
    fleb (depth_after cfg (k + m)) (zfar cfg) = false ->
    m < fuel ->
    for_depth cfg fuel (fun d v => v ++ [d]) (depth_after cfg k) acc
    = Some (acc ++ map (depth_after cfg) (seq k m)).
Proof.
  induction m as [|m IH]; intros fuel k acc Hin Hout Hfuel;
    (destruct fuel as [|fuel]; [lia|]); simpl.
  - rewrite Nat.add_0_r in Hout. rewrite Hout, app_nil_r. reflexivity.
  - rewrite (Hin k) by lia.
    change (fadd (depth_after cfg k) (dstep cfg)) with (depth_after cfg (S k)).
    rewrite (IH fuel (S k)).
    + rewrite <- app_assoc. reflexivity.
    + intros j Hj. apply Hin. lia.
    + replace (S k + m) with (k + S m) by lia. exact Hout.
    + lia.
Qed.

Lemma for_depth_stuck {A : Type} (body : F -> A -> A) (fuel : nat) :
  (forall j, in_range cfg (depth_after cfg j)) ->
  forall (k : nat) (acc : A),
    for_depth cfg fuel body (depth_after cfg k) acc = None.
Proof.
  intro Hin. induction fuel as [|fuel IH]; intros k acc; simpl.
  - reflexivity.
  - rewrite (Hin k).
    change (fadd (depth_after cfg k) (dstep cfg)) with (depth_after cfg (S k)).
    apply IH.
Qed.

Lemma depth_after_stalled (k : nat) :
  fadd (depth_after cfg k) (dstep cfg) = depth_after cfg k ->
  forall j, k <= j -> depth_after cfg j = depth_after cfg k.
Proof.
  intros Hstall j Hj. induction Hj as [|j Hj IH]; [reflexivity|].
  change (depth_after cfg (S j)) with (fadd (depth_after cfg j) (dstep cfg)).
  rewrite IH. exact Hstall.
Qed.

Lemma stalled_in_range (k : nat) :
  (forall j, j <= k -> in_range cfg (depth_after cfg j)) ->
  fadd (depth_after cfg k) (dstep cfg) = depth_after cfg k ->
  forall j, in_range cfg (depth_after cfg j).
Proof.
  intros Hin Hstall j. destruct (Nat.le_gt_cases j k) as [Hle|Hgt].
  - apply Hin. exact Hle.
  - rewrite (depth_after_stalled k Hstall j) by lia. apply Hin. lia.
Qed.

(** X5: the depth hypotheses of a sweep are exactly the values [d] takes by
    repeated addition of [dstep] to [znear], up to the first that fails the
    test [d <= zfar]: every hypothesis passes the test, the first is [znear],
    and there is none at all when [znear <= zfar] does not hold (the range is
    reversed, or a bound is no number).  Conversely the loop ends, with these
    hypotheses, as soon as one value fails the test. *)
Theorem depth_hypotheses_are_the_iterates :
  (forall (fuel : nat) (visited : list F),
      depth_hypotheses cfg fuel = Some visited ->
      visited = map (depth_after cfg) (seq 0 (length visited))
      /\ Forall (in_range cfg) visited
      /\ fleb (depth_after cfg (length visited)) (zfar cfg) = false
      /\ (fleb (znear cfg) (zfar cfg) = true -> hd_error visited = Some (znear cfg))
      /\ (fleb (znear cfg) (zfar cfg) = false -> visited = []))
  /\ (forall (m fuel : nat),
        (forall j, j < m -> in_range cfg (depth_after cfg j)) ->
        fleb (depth_after cfg m) (zfar cfg) = false ->
        m < fuel ->
        depth_hypotheses cfg fuel = Some (map (depth_after cfg) (seq 0 m))).
Proof.
  split.
  - intros fuel visited H.
    destruct (for_depth_visits fuel 0 [] visited H) as (m & Hv & Hin & Hout & _).
    simpl in Hv, Hout.
    assert (Hlen : length visited = m) by (rewrite Hv, length_map, length_seq; reflexivity).
    rewrite Hlen. split; [exact Hv|]. split; [|split; [exact Hout|split]].
    + rewrite Hv. apply Forall_forall. intros d Hd.
      apply in_map_iff in Hd. destruct Hd as (j & <- & Hj).
      apply in_seq in Hj. apply Hin. lia.
    + intro Hnear. rewrite Hv. destruct m as [|m]; [|reflexivity].
      simpl in Hout. unfold depth_after in Hout. simpl in Hout. congruence.
    + intro Hnear. rewrite Hv. destruct m as [|m]; [reflexivity|].
      assert (H0 : in_range cfg (depth_after cfg 0)) by (apply Hin; lia).
      unfold in_range, depth_after in H0. simpl in H0. congruence.
  - intros m fuel Hin Hout Hfuel. unfold depth_hypotheses.
    apply (for_depth_returns m fuel 0 []).
    + intros j Hj. apply Hin. lia.
    + exact Hout.
    + exact Hfuel.
Qed.
End DepthLoopShape.

Section DepthLoopStalls.
Context {F D : Type} {AF : Arith F}.
Variable kernels : Kernels F D.
Variable cfg : Settings F.
Implicit Types s : machine F.

Lemma hang_after {A B} (n : nat) (m : M (machine F) A) (f : A -> M (machine F) B)
    (P : A -> Prop) s :
  returns_on n m P ->
  faultless n s ->
  (forall a s1, P a -> faultless n s1 -> fst (f a s1) = Hang) ->
  fst (bind m f s) = Hang.
Proof.
  intros Hm Hs Hf. unfold bind. specialize (Hm s Hs).
  destruct (m s) as [[a| |] s1]; try contradiction.
  destruct Hm as [Ha Hs1]. apply (Hf a s1 Ha Hs1).
Qed.

Lemma hang_first {A B} (m : M (machine F) A) (f : A -> M (machine F) B) s :
  fst (m s) = Hang -> fst (bind m f s) = Hang.
Proof.
  unfold bind. destruct (m s) as [[a| |] s1]; simpl; intro H;
    [discriminate H | discriminate H | reflexivity].
Qed.

Lemma hang_try_catch {A} (body handler : M (machine F) A) s :
  fst (body s) = Hang -> fst (try_catch body handler s) = Hang.
Proof.
  unfold try_catch. destruct (body s) as [[a| |] s1]; simpl; intro H;
    [discriminate H | discriminate H | reflexivity].
Qed.

Lemma view_best_stuck fuel Ref Refmean Refstd index :
  (forall j, in_range cfg (depth_after cfg j)) ->
  view_best kernels cfg fuel Ref Refmean Refstd index = None.
Proof.
  intro Hin. unfold view_best.
  destruct (RelativeMatrices _ _ _ _ _) as [Rrel trel].
  apply (for_depth_stuck cfg _ fuel Hin 0).
Qed.

(** X6: the loop over the depth hypotheses does not end when [d += dstep]
    comes to leave a depth [d <= zfar] unchanged, as it does from the start
    when [zfar == znear] (a step of zero) or when the step is lost to
    rounding (from 1.0 to 2.0 in [2^25] steps): no number of turns completes
    it, and [RunAlgorithm], on a runtime with a device where no call fails
    and with a source view to sweep, never returns. *)
Theorem RunAlgorithm_hangs_when_depth_stalls (k n : nat) s :
  (forall j, j <= k -> in_range cfg (depth_after cfg j)) ->
  fadd (depth_after cfg k) (dstep cfg) = depth_after cfg k ->
  (forall fuel, depth_hypotheses cfg fuel = None)
  /\ (faultless n s -> n <> 0 -> views_used cfg <> [] ->
      forall fuel, fst (RunAlgorithm kernels cfg fuel s) = Hang).
Proof.
  intros Hin Hstall.
  pose proof (stalled_in_range cfg k Hin Hstall) as Hall.
  split.
  - intro fuel. apply (for_depth_stuck cfg _ fuel Hall 0).
  - intros Hs Hn Hviews fuel.
    assert (Hn0 : (n =? 0) = false) by (apply Nat.eqb_neq; exact Hn).
    unfold RunAlgorithm.
    apply (hang_after n _ _ (fun _ => True)); [apply returns_on_assign | exact Hs |].
    intros _ s1 _ Hs1. apply hang_try_catch.
    eapply hang_after; [apply returns_on_cudaDevInit | exact Hs1 |]. cbn beta.
    rewrite Hn0. intros [|dev] s2 Hr Hs2; [contradiction|].
    eapply hang_after; [apply returns_on_Image_new | exact Hs2 |].
    intros deviceRef0 s3 _ Hs3.
    eapply hang_after; [apply returns_on_copyFrom | exact Hs3 |].
    intros deviceRef s4 _ Hs4.
    eapply hang_after; [apply returns_on_Images_new | exact Hs4 |].
    intros _ s5 _ Hs5.
    destruct (reference_statistics kernels cfg deviceRef) as [deviceRefmean deviceRefstd].
    eapply hang_after; [apply returns_on_Image_new | exact Hs5 |].
    intros devDepthmap s6 _ Hs6.
    eapply hang_after; [apply returns_on_Image_new | exact Hs6 |].
    intros devN s7 _ Hs7.
    apply hang_first.
    unfold views_used in Hviews.
    destruct (Z.to_nat (nimgs cfg)) as [|more]; [contradiction Hviews; reflexivity|].
    simpl seq. simpl for_each.
    apply hang_first. unfold PlaneSweepThread.
    eapply hang_after; [apply returns_on_Image_new | exact Hs7 |].
    intros _ s8 _ Hs8.
    eapply hang_after; [apply returns_on_Images_new | exact Hs8 |].
    intros _ s9 _ Hs9.
    eapply hang_after; [apply returns_on_copyFrom | exact Hs9 |].
    intros _ s10 _ Hs10.
    apply hang_first.
    rewrite (view_best_stuck fuel _ _ _ 0 Hall). reflexivity.
Qed.
End DepthLoopStalls.

Lemma RunAlgorithm_hangs_when_depth_stalls_witness :
  (forall fuel, depth_hypotheses (AF := IEEE.binary32) SampleLoop.flat32 fuel = None)
  /\ (forall fuel,
        fst (RunAlgorithm (AF := IEEE.binary32) Sample.kernels32 SampleLoop.flat32 fuel
               Sample.start32) = Hang)
  /\ (forall fuel,
        fst (RunAlgorithm (AF := IEEE.binary32) Sample.kernels32 SampleLoop.fine32 fuel
               Sample.start32) = Hang).
Proof.
  destruct (RunAlgorithm_hangs_when_depth_stalls (AF := IEEE.binary32)
              Sample.kernels32 SampleLoop.flat32 0 1 Sample.start32) as [H1 H2].
  - intros j Hj. replace j with 0 by lia. vm_compute. reflexivity.
  - vm_compute. reflexivity.
  - split; [exact H1|]. split.
    + apply H2.
      * split; reflexivity.
      * discriminate.
      * vm_compute. discriminate.
    + apply (RunAlgorithm_hangs_when_depth_stalls (AF := IEEE.binary32)
               Sample.kernels32 SampleLoop.fine32 0 1 Sample.start32).
      * intros j Hj. replace j with 0 by lia. vm_compute. reflexivity.
      * vm_compute. reflexivity.
      * split; reflexivity.
      * discriminate.
      * vm_compute. discriminate.
Defined.

(** ** [get3Dcoordinates] *)

Section WorldCoordinatesSpec.
Context {F D : Type} {AF : Arith F}.
Variable kernels : Kernels F D.
Variable cfg : Settings F.

(** X10: on a runtime where no call fails [get3Dcoordinates] returns, and the
    three coordinate images are what [compute3D] makes of the denoised depth
    map of [CudaDenoise] (not of the raw depth map, nor of the one of [TGV]),
    of the pose of the world relative to the reference camera and of [invK];
    whether a denoised depth map was ever computed is not checked. *)
Theorem get3Dcoordinates_exports (n : nat) (s : machine F) :
  faultless n s ->
  exists s',
    get3Dcoordinates kernels cfg s = (Ok tt, s')
    /\ let w := ref_width cfg in
       let h := ref_height cfg in
       let '(Px, Py, X) :=
         world_coordinates kernels cfg (depthmapdenoised (obj s)) in
       coord_x (obj s') = mkImage w h Px
       /\ coord_y (obj s') = mkImage w h Py
       /\ coord_z (obj s') = mkImage w h X
       /\ coords_written (obj s) (obj s').
Proof.
  intros [Hf Hn]. destruct s as [o [k fs lg]]. simpl in Hf, Hn. subst fs k.
  unfold get3Dcoordinates, world_coordinates, reference_to_world.
  destruct (RelativeMatrices _ _ _ _ _) as [Rr tw].
  unfold Image_new, copyFrom.
  unfold try_catch, bind, cuda, member, gets, assign, modify, ret.
  cbn [gpu obj faults hd tl negb dev_count log fst snd depthmapdenoised].
  destruct (compute3D _ _ _ _ _ _ _) as [[Px Py] X].
  cbn [gpu obj faults hd tl negb dev_count log fst snd].
  eexists. split; [reflexivity|].
  cbn [obj coord_x coord_y coord_z set_coord_x set_coord_y set_coord_z].
  repeat split.
Qed.
End WorldCoordinatesSpec.

Lemma get3Dcoordinates_exports_witness :
  exists s',
    get3Dcoordinates (AF := IEEE.binary32) Sample.kernels32 Sample.scenario32
      Sample.start32 = (Ok tt, s')
    /\ let w := ref_width Sample.scenario32 in
       let h := ref_height Sample.scenario32 in
       let '(Px, Py, X) :=
         world_coordinates (AF := IEEE.binary32) Sample.kernels32 Sample.scenario32
           (depthmapdenoised (obj Sample.start32)) in
       coord_x (obj s') = mkImage w h Px
       /\ coord_y (obj s') = mkImage w h Py
       /\ coord_z (obj s') = mkImage w h X
       /\ coords_written (obj Sample.start32) (obj s').
Proof.
  apply (get3Dcoordinates_exports (AF := IEEE.binary32) Sample.kernels32
           Sample.scenario32 1 Sample.start32).
  split; reflexivity.
Defined.

(** ** What the relative pose does to a point *)

Section RelativePoseAction.
Local Existing Instance Exact.arith.
Local Existing Instance Qc_ring_ops.
Local Existing Instance Qc_ring.
Local Existing Instance Qc_cring.
Local Existing Instance Qc_domain.
Local Open Scope Qc_scope.

Ltac exact_points :=
  cbv beta iota zeta delta
    [RelativeMatrices pose_inverse orthonormal regular apply_pose vadd vscale
     exactM exactV mmap vmap homography set_row2 mzero madd
     mmul mvmul vsub vopp trans inv adj det mscale_div makeIdentity negb fst snd
     m00 m01 m02 m10 m11 m12 m20 m21 m22 vx vy vz
     fadd fsub fmul fdiv fopp fzero fone feqb of_int
     Exact.arith Exact.lift2 Exact.xdiv Exact.of_Z Exact.xeqb Exact.xcmp option_map].

Lemma regular_exactM (a : Matrix3D Qc) :
  regular (exactM a) ->
  let '(mkM a00 a01 a02 a10 a11 a12 a20 a21 a22) := a in
  a00 * (a11 * a22 - a12 * a21) - a01 * (a10 * a22 - a12 * a20)
  + a02 * (a10 * a21 - a11 * a20) <> 0.
Proof.
  destruct a as [a00 a01 a02 a10 a11 a12 a20 a21 a22].
  exact_points. rewrite exact_zero. intros H Hd. rewrite Hd in H.
  discriminate H.
Qed.

(** X7: in exact arithmetic the default relative pose takes the coordinates
    of a point in the reference camera to its coordinates in the source
    camera, the two poses mapping the world to the cameras
    ([x = R X + t]), whenever the reference rotation has an inverse. *)
Theorem RelativeMatrices_transfers_points
    (Rref Rsrc : Matrix3D Qc) (tref tsrc X : Vector3D Qc) :
  regular (exactM Rref) ->
  let rel := RelativeMatrices false (exactM Rref) (exactV tref)
               (exactM Rsrc) (exactV tsrc) in
  apply_pose (fst rel) (snd rel) (apply_pose (exactM Rref) (exactV tref) (exactV X))
  = apply_pose (exactM Rsrc) (exactV tsrc) (exactV X).
Proof.
  intro H. apply regular_exactM in H.
  destruct Rref as [a00 a01 a02 a10 a11 a12 a20 a21 a22].
  destruct Rsrc as [b00 b01 b02 b10 b11 b12 b20 b21 b22].
  destruct tref as [p q r]. destruct tsrc as [u v w]. destruct X as [x y z].
  exact_points.
  destruct (Qc_eq_dec _ 0) as [Hz|Hnz]; [contradiction|].
  cbv beta iota.
  f_equal; f_equal; field; exact Hnz.
Qed.

(** X8: in exact arithmetic the alternative relative pose is the one for
    poses that map the cameras to the world ([X = R x + t]): for a source
    rotation with orthonormal rows, a point of the reference camera taken to
    the source camera by the relative pose, and from there to the world, is
    the point the reference pose takes to the world. *)
Theorem RelativeMatrices_alternative_transfers_points
    (Rref Rsrc : Matrix3D Qc) (tref tsrc x : Vector3D Qc) :
  orthonormal (exactM Rsrc) ->
  let rel := RelativeMatrices true (exactM Rref) (exactV tref)
               (exactM Rsrc) (exactV tsrc) in
  apply_pose (exactM Rsrc) (exactV tsrc) (apply_pose (fst rel) (snd rel) (exactV x))
  = apply_pose (exactM Rref) (exactV tref) (exactV x).
Proof.
  intro H. apply orthonormal_exactM in H.
  destruct Rref as [a00 a01 a02 a10 a11 a12 a20 a21 a22].
  destruct Rsrc as [b00 b01 b02 b10 b11 b12 b20 b21 b22].
  destruct tref as [p q r]. destruct tsrc as [u v w]. destruct x as [x y z].
  destruct H as (H00 & H01 & H02 & H11 & H12 & H22).
  exact_points.
  f_equal; f_equal; nsatz.
Qed.

(** X9: in exact arithmetic the pose of a view relative to itself is the
    identity with no translation: by the default convention whenever the
    rotation has an inverse, by the alternative convention whenever its rows
    are orthonormal. *)
Theorem RelativeMatrices_of_a_view_to_itself (Rm : Matrix3D Qc) (tv : Vector3D Qc) :
  (regular (exactM Rm) ->
   RelativeMatrices false (exactM Rm) (exactV tv) (exactM Rm) (exactV tv)
   = (makeIdentity, mkV fzero fzero fzero))
  /\ (orthonormal (exactM Rm) ->
      RelativeMatrices true (exactM Rm) (exactV tv) (exactM Rm) (exactV tv)
      = (makeIdentity, mkV fzero fzero fzero)).
Proof.
  split.
  - intro H. apply regular_exactM in H.
    destruct Rm as [a00 a01 a02 a10 a11 a12 a20 a21 a22].
    destruct tv as [p q r].
    exact_points.
    destruct (Qc_eq_dec _ 0) as [Hz|Hnz]; [contradiction|].
    cbv beta iota. rewrite exact_one, exact_zero.
    f_equal; f_equal; f_equal; field; exact Hnz.
  - intro H. apply orthonormal_exactM in H.
    destruct Rm as [a00 a01 a02 a10 a11 a12 a20 a21 a22].
    destruct tv as [p q r].
    destruct H as (H00 & H01 & H02 & H11 & H12 & H22).
    exact_points. rewrite exact_one, exact_zero.
    f_equal; f_equal; f_equal; try ring.
    all: nsatz.
Qed.

(** X11: in exact arithmetic the pose [get3Dcoordinates] hands to
    [compute3D] undoes the reference pose when the default convention is
    selected and the reference rotation has an inverse: it takes [R X + t]
    back to [X].  With the alternative convention it is the reference pose
    itself. *)
Theorem reference_to_world_inverts_reference_pose
    (cfg : Settings Exact.xnum) (Rref : Matrix3D Qc) (tref : Vector3D Qc) :
  R (HostRef cfg) = exactM Rref ->
  t (HostRef cfg) = exactV tref ->
  (alternativemethod cfg = false ->
   regular (exactM Rref) ->
   forall X : Vector3D Qc,
     apply_pose (fst (reference_to_world cfg)) (snd (reference_to_world cfg))
       (apply_pose (exactM Rref) (exactV tref) (exactV X))
     = exactV X)
  /\ (alternativemethod cfg = true ->
      reference_to_world cfg = (exactM Rref, exactV tref)).
Proof.
  intros HR Ht. unfold reference_to_world. rewrite HR, Ht. split.
  - intros -> H X. apply regular_exactM in H.
    destruct Rref as [a00 a01 a02 a10 a11 a12 a20 a21 a22].
    destruct tref as [p q r]. destruct X as [x y z].
    exact_points.
    destruct (Qc_eq_dec _ 0) as [Hz|Hnz]; [contradiction|].
    cbv beta iota. rewrite exact_one, exact_zero.
    f_equal; f_equal; field; exact Hnz.
  - intros ->.
    destruct Rref as [a00 a01 a02 a10 a11 a12 a20 a21 a22].
    destruct tref as [p q r].
    exact_points. rewrite exact_one, exact_zero.
    f_equal; f_equal; f_equal; ring.
Qed.

(** X12: in exact arithmetic the homography of the depth hypothesis [d] is
    the one induced by the plane at depth [d] in front of the reference
    camera: for intrinsics whose inverse has the last row [(0, 0, 1)], it
    takes the pixel [(u, v, 1)] to a multiple of [K (Rrel X + trel)], the
    image in the source camera of the point [X = d invK (u, v, 1)] of that
    plane, and its entry [(2, 2)] is 1. *)
Theorem homography_is_induced_by_the_depth_plane
    (Km invKm Rrel : Matrix3D Qc) (trel : Vector3D Qc) (d u v h : Qc) :
  d <> 0 ->
  m20 invKm = 0 -> m21 invKm = 0 -> m22 invKm = 1 ->
  let tr := trans (set_row2 mzero (exactV trel)) in
  m22 (mmul (mmul (exactM Km) (madd (exactM Rrel) (mscale_div tr (Some d))))
         (exactM invKm)) = Some h ->
  h <> 0 ->
  let H := homography (exactM Km) (exactM invKm) (exactM Rrel) tr (Some d) in
  let pixel := exactV (mkV u v 1) in
  let X := vscale (Some d) (mvmul (exactM invKm) pixel) in
  mvmul H pixel
  = vscale (Some (1 / (d * h)))
      (mvmul (exactM Km) (apply_pose (exactM Rrel) (exactV trel) X))
  /\ m22 H = Some 1.
Proof.
  intros Hd H20 H21 H22.
  destruct Km as [k00 k01 k02 k10 k11 k12 k20 k21 k22].
  destruct invKm as [i00 i01 i02 i10 i11 i12 i20 i21 i22].
  destruct Rrel as [r00 r01 r02 r10 r11 r12 r20 r21 r22].
  destruct trel as [p q r].
  cbn [m20 m21 m22] in H20, H21, H22. subst i20 i21 i22.
  exact_points. rewrite exact_zero.
  destruct (Qc_eq_dec d 0) as [Hz|_]; [contradiction|].
  cbv beta iota.
  intros Hh Hnz. apply some_eq in Hh.
  destruct (Qc_eq_dec _ 0) as [Hz|Hnz2].
  { exfalso. apply Hnz. rewrite <- Hh. exact Hz. }
  cbv beta iota. subst h.
  assert (Hside : forall x : Qc, x * d = 0 -> x = 0).
  { intros x Hx. apply Qcmult_integral in Hx. destruct Hx; [assumption|contradiction]. }
  split.
  - f_equal; f_equal; field_simplify_eq; try ring.
    all: repeat split; try exact Hd.
    all: intro Hc; apply Hnz2; apply Hside;
      match type of Hc with ?P = _ => transitivity P; [field; exact Hd | exact Hc] end.
  - f_equal. field.
    repeat split; try exact Hd.
    all: intro Hc; apply Hnz2; apply Hside;
      match type of Hc with ?P = _ => transitivity P; [field; exact Hd | exact Hc] end.
Qed.
End RelativePoseAction.

Section PoseWitnesses.
Local Existing Instance Exact.arith.

Lemma RelativeMatrices_transfers_points_witness :
  let rel := RelativeMatrices false (exactM SamplePose.turn) (exactV SamplePose.right1)
               (exactM SamplePose.eye) (exactV SamplePose.up2) in
  apply_pose (fst rel) (snd rel)
    (apply_pose (exactM SamplePose.turn) (exactV SamplePose.right1)
       (exactV SamplePose.up2))
  = apply_pose (exactM SamplePose.eye) (exactV SamplePose.up2) (exactV SamplePose.up2).
Proof.
  apply (RelativeMatrices_transfers_points SamplePose.turn SamplePose.eye
           SamplePose.right1 SamplePose.up2 SamplePose.up2).
  vm_compute. reflexivity.
Defined.

Lemma RelativeMatrices_alternative_transfers_points_witness :
  let rel := RelativeMatrices true (exactM SamplePose.eye) (exactV SamplePose.up2)
               (exactM SamplePose.turn) (exactV SamplePose.right1) in
  apply_pose (exactM SamplePose.turn) (exactV SamplePose.right1)
    (apply_pose (fst rel) (snd rel) (exactV SamplePose.up2))
  = apply_pose (exactM SamplePose.eye) (exactV SamplePose.up2) (exactV SamplePose.up2).
Proof.
  apply (RelativeMatrices_alternative_transfers_points SamplePose.eye SamplePose.turn
           SamplePose.up2 SamplePose.right1 SamplePose.up2).
  unfold orthonormal.
  cbv beta iota delta
    [exactM mmap mmul trans makeIdentity m00 m01 m02 m10 m11 m12 m20 m21 m22
     fadd fmul fzero fone Exact.arith Exact.lift2 Exact.of_Z SamplePose.turn].
  f_equal; f_equal; apply Qc_is_canon; reflexivity.
Defined.

Lemma RelativeMatrices_of_a_view_to_itself_witness :
  RelativeMatrices false (exactM SamplePose.turn) (exactV SamplePose.right1)
    (exactM SamplePose.turn) (exactV SamplePose.right1)
  = (makeIdentity, mkV fzero fzero fzero).
Proof.
  apply (proj1 (RelativeMatrices_of_a_view_to_itself SamplePose.turn SamplePose.right1)).
  vm_compute. reflexivity.
Defined.

Lemma reference_to_world_inverts_reference_pose_witness :
  apply_pose (fst (reference_to_world SampleCamera.turned))
    (snd (reference_to_world SampleCamera.turned))
    (apply_pose (exactM SamplePose.turn) (exactV SamplePose.right1)
       (exactV SamplePose.up2))
  = exactV SamplePose.up2.
Proof.
  apply (proj1 (reference_to_world_inverts_reference_pose SampleCamera.turned
                  SamplePose.turn SamplePose.right1 eq_refl eq_refl)).
  - reflexivity.
  - vm_compute. reflexivity.
Defined.

Lemma homography_is_induced_by_the_depth_plane_witness :
  let tr := trans (set_row2 mzero (exactV SamplePose.right1)) in
  let H := homography (exactM SampleCamera.K2) (exactM SampleCamera.invK2)
             (exactM SamplePose.eye) tr (Some (SamplePose.q 2 1)) in
  let pixel := exactV (mkV (SamplePose.q 3 1) (SamplePose.q 1 1) 1%Qc) in
  let X := vscale (Some (SamplePose.q 2 1)) (mvmul (exactM SampleCamera.invK2) pixel) in
  mvmul H pixel
  = vscale (Some (1 / (SamplePose.q 2 1 * SamplePose.q 1 1))%Qc)
      (mvmul (exactM SampleCamera.K2)
         (apply_pose (exactM SamplePose.eye) (exactV SamplePose.right1) X))
  /\ m22 H = Some 1%Qc.
Proof.
  apply (homography_is_induced_by_the_depth_plane
           SampleCamera.K2 SampleCamera.invK2 SamplePose.eye SamplePose.right1
           (SamplePose.q 2 1) (SamplePose.q 3 1) (SamplePose.q 1 1) (SamplePose.q 1 1)).
  - intro H. apply (f_equal this) in H. vm_compute in H. discriminate H.
  - apply Qc_is_canon. reflexivity.
  - apply Qc_is_canon. reflexivity.
  - apply Qc_is_canon. reflexivity.
  - cbv beta iota zeta delta
      [exactM exactV mmap vmap set_row2 mzero madd mmul trans mscale_div
       m00 m01 m02 m10 m11 m12 m20 m21 m22 vx vy vz
       fadd fmul fdiv fzero fone Exact.arith Exact.lift2 Exact.xdiv Exact.of_Z
       SampleCamera.K2 SampleCamera.invK2 SamplePose.eye SamplePose.right1].
    destruct (Qc_eq_dec (SamplePose.q 2 1) 0) as [Hz|_].
    { apply (f_equal this) in Hz. vm_compute in Hz. discriminate Hz. }
    first [reflexivity | f_equal; apply Qc_is_canon; reflexivity].
  - intro H. apply (f_equal this) in H. vm_compute in H. discriminate H.
Defined.
End PoseWitnesses.

(** ** The 8-bit images *)

Section QuantizedOutputs.
Context {F D : Type} {AF : Arith F} {AD : Arith D} {W : Widen F D}.
Variable kernels : Kernels F D.
Variable cfg : Settings F.
Implicit Types s : machine F.

(** X13: [ConvertDepthtoUChar] is a pointwise conversion: the output has the
    width and the height of the input and [width * height] pixels, whatever
    it held before, and each of them is the byte of the input pixel at the
    same place. *)
Theorem ConvertDepthtoUChar_is_pointwise (znear zfar : F) (input : CamImage F) :
  let output := ConvertDepthtoUChar znear zfar input in
  width output = width input
  /\ height output = height input
  /\ length (data output) = width input * height input
  /\ forall i, i < width input * height input ->
       nth i (data output) None = quantize znear zfar (nth i (data input) fzero).
Proof.
  cbv zeta. split; [reflexivity|]. split; [reflexivity|]. split.
  - rewrite ConvertDepthtoUChar_loops, length_fold_store. apply repeat_length.
  - intros i Hi.
    assert (Hw : width input <> 0) by (intro H0; rewrite H0 in Hi; simpl in Hi; lia).
    pose proof (Nat.div_mod_eq i (width input)) as Hdm.
    assert (Hx : i mod width input < width input) by (apply Nat.mod_upper_bound; exact Hw).
    assert (Hy : i / width input < height input).
    { apply Nat.Div0.div_lt_upper_bound. rewrite Nat.mul_comm in Hi. lia. }
    pose proof (ConvertDepthtoUChar_pixel znear zfar input
                  (i mod width input) (i / width input) Hx Hy) as Hp.
    replace (i mod width input + i / width input * width input) with i in Hp by lia.
    exact Hp.
Qed.

(** X14: a stage that returns [true] leaves its 8-bit image the conversion
    of the depth map it has just written: [depthmap8u] of [depthmap] after
    [RunAlgorithm], [depthmap8udenoised] of [depthmapdenoised] after
    [CudaDenoise], [depthmap8uTGV] of [depthmapTGV] after [TGV] and
    [TGVdenoiseFromSparse], each with the size of the map. *)
Theorem successful_stage_converts_its_depth_map :
  (forall fuel s s',
      RunAlgorithm kernels cfg fuel s = (Ok true, s') ->
      depthmap8u (obj s')
      = ConvertDepthtoUChar (znear cfg) (zfar cfg) (depthmap (obj s'))
      /\ depthavailable (obj s') = true)
  /\ (forall niters lambda tau sigma theta beta gamma s s',
        CudaDenoise kernels cfg niters lambda tau sigma theta beta gamma s
        = (Ok true, s') ->
        depthmap8udenoised (obj s')
        = ConvertDepthtoUChar (znear cfg) (zfar cfg) (depthmapdenoised (obj s'))
        /\ width (depthmapdenoised (obj s')) = width (depthmap (obj s))
        /\ height (depthmapdenoised (obj s')) = height (depthmap (obj s)))
  /\ (forall niters warps lambda alpha0 alpha1 tau sigma beta gamma s s',
        TGV kernels cfg niters warps lambda alpha0 alpha1 tau sigma beta gamma s
        = (Ok true, s') ->
        depthmap8uTGV (obj s')
        = ConvertDepthtoUChar (znear cfg) (zfar cfg) (depthmapTGV (obj s'))
        /\ width (depthmapTGV (obj s')) = ref_width cfg
        /\ height (depthmapTGV (obj s')) = ref_height cfg)
  /\ (forall depth niters alpha0 alpha1 tau sigma theta beta gamma s s',
        TGVdenoiseFromSparse kernels cfg depth niters alpha0 alpha1 tau sigma theta
          beta gamma s = (Ok true, s') ->
        depthmap8uTGV (obj s')
        = ConvertDepthtoUChar (znear cfg) (zfar cfg) (depthmapTGV (obj s'))
        /\ width (depthmapTGV (obj s')) = ref_width cfg
        /\ height (depthmapTGV (obj s')) = ref_height cfg).
Proof.
  split; [|split; [|split]].
  - intros fuel s s' Hrun. pose proof (RunAlgorithm_spec kernels cfg fuel s) as H.
    unfold spec in H. rewrite Hrun in H. destruct H as (Ho & _ & _).
    rewrite Ho. split; reflexivity.
  - intros niters lambda tau sigma theta beta gamma s s' Hrun.
    pose proof (CudaDenoise_spec kernels cfg niters lambda tau sigma theta beta gamma s)
      as H.
    unfold spec in H. rewrite Hrun in H. destruct H as [_ Ho].
    rewrite Ho. repeat split.
  - intros niters warps lambda alpha0 alpha1 tau sigma beta gamma s s' Hrun.
    pose proof (TGV_spec kernels cfg niters warps lambda alpha0 alpha1 tau sigma
                  beta gamma s) as H.
    unfold spec in H. rewrite Hrun in H. destruct H as (_ & u & Ho).
    rewrite Ho. repeat split.
  - intros depth niters alpha0 alpha1 tau sigma theta beta gamma s s' Hrun.
    pose proof (TGVdenoiseFromSparse_spec kernels cfg depth niters alpha0 alpha1 tau
                  sigma theta beta gamma s) as H.
    unfold spec in H. rewrite Hrun in H. destruct H as (d & Ho).
    rewrite Ho. repeat split.
Qed.
End QuantizedOutputs.

Section QuantizeOrder.
Local Existing Instance Exact.arith.
Local Open Scope Qc_scope.

Lemma integer_part_mono (x y : Qc) :
  0 <= x -> x <= y -> (0 <= integer_part x <= integer_part y)%Z.
Proof.
  unfold integer_part, Qcle, Qle. simpl Qnum. simpl Qden.
  rewrite !Z.mul_1_r. intros Hx Hxy.
  split.
  - apply Z.div_pos; lia.
  - apply Z.div_le_lower_bound; [lia|].
    pose proof (Z.mul_div_le (Qnum x) (Zpos (Qden x)) ltac:(lia)) as Hd.
    nia.
Qed.

Lemma integer_part_255 : integer_part (Q2Qc (inject_Z 255)) = 255%Z.
Proof. reflexivity. Qed.

Lemma to_uchar_integer_part (x : Qc) :
  0 <= x -> x <= Q2Qc (inject_Z 255) ->
  to_uchar (Some x) = Some (integer_part x).
Proof.
  intros H0 H255.
  destruct (integer_part_mono x (Q2Qc (inject_Z 255)) H0 H255) as [Hlo Hhi].
  rewrite integer_part_255 in Hhi.
  unfold to_uchar. cbv [ftrunc Exact.arith Exact.xtrunc].
  assert (Hquot : Z.quot (Qnum x) (Zpos (Qden x)) = integer_part x).
  { unfold integer_part. apply Z.quot_div_nonneg; [|lia].
    unfold Qcle, Qle in H0. simpl in H0. lia. }
  rewrite Hquot.
  destruct (0 <=? integer_part x)%Z eqn:E1; [|apply Z.leb_gt in E1; lia].
  unfold UCHAR_MAX.
  destruct (integer_part x <=? 255)%Z eqn:E2; [|apply Z.leb_gt in E2; lia].
  reflexivity.
Qed.

Lemma exact_level_bounds (a b c : Qc) :
  0 <= exact_level a b c /\ exact_level a b c <= Q2Qc (inject_Z 255).
Proof.
  unfold exact_level. cbv zeta.
  set (q := (c - a) / (b - a)).
  assert (H255 : 0 <= Q2Qc (inject_Z 255)) by (intro H; discriminate H).
  destruct (q ?= 0) eqn:Hc0.
  - destruct (1 ?= q) eqn:Hc1.
    + rewrite <- (proj2 (Qceq_alt 1 q) Hc1). rewrite Qcmult_1_r.
      split; [exact H255 | apply Qcle_refl].
    + rewrite Qcmult_1_r. split; [exact H255 | apply Qcle_refl].
    + rewrite (proj2 (Qceq_alt q 0) Hc0). rewrite Qcmult_0_r.
      split; [apply Qcle_refl | exact H255].
  - rewrite Qcmult_0_r. split; [apply Qcle_refl | exact H255].
  - apply Qcgt_alt in Hc0.
    destruct (1 ?= q) eqn:Hc1.
    + rewrite <- (proj2 (Qceq_alt 1 q) Hc1). rewrite Qcmult_1_r.
      split; [exact H255 | apply Qcle_refl].
    + rewrite Qcmult_1_r. split; [exact H255 | apply Qcle_refl].
    + apply Qcgt_alt in Hc1. split.
      * replace 0 with (Q2Qc (inject_Z 255) * 0) by ring.
        rewrite !(Qcmult_comm (Q2Qc (inject_Z 255))).
        apply Qcmult_le_compat_r; [apply Qclt_le_weak; exact Hc0 | exact H255].
      * replace (Q2Qc (inject_Z 255)) with (1 * Q2Qc (inject_Z 255)) at 2 by ring.
        rewrite (Qcmult_comm (Q2Qc (inject_Z 255))).
        apply Qcmult_le_compat_r; [apply Qclt_le_weak; exact Hc1 | exact H255].
Qed.

Lemma quantize_exact_level (a b c : Qc) :
  a < b ->
  quantize (Some a) (Some b) (Some c) = Some (integer_part (exact_level a b c)).
Proof.
  intro Hab. destruct (exact_ratio a b c Hab) as (q & Hq & Hmul & Hpos).
  assert (Hne : b - a <> 0).
  { intro H0. rewrite H0 in Hpos. revert Hpos. apply Qcle_not_lt, Qcle_refl. }
  assert (Hqv : q = (c - a) / (b - a)).
  { rewrite <- Hmul. field. exact Hne. }
  destruct (exact_level_bounds a b c) as [Hlo Hhi].
  rewrite <- (to_uchar_integer_part _ Hlo Hhi).
  unfold quantize.
  assert (Hself : feqb (Some c) (Some c) = true).
  { cbv [feqb Exact.arith Exact.xeqb Exact.xcmp].
    rewrite (proj1 (Qceq_alt c c) eq_refl). reflexivity. }
  rewrite Hself, Hq. clear Hself Hq.
  f_equal. unfold exact_level. cbv zeta. rewrite <- Hqv.
  unfold std_max, std_min.
  cbv [fltb fzero fone fmul of_int Exact.arith Exact.xltb Exact.xcmp Exact.of_Z
       Exact.lift2 UCHAR_MAX].
  change (Q2Qc (inject_Z 0)) with 0. change (Q2Qc (inject_Z 1)) with 1.
  destruct (q ?= 0) eqn:Hc0.
  - destruct (1 ?= q) eqn:Hc1; reflexivity.
  - assert (H10 : (1 ?= 0) = Gt) by reflexivity. rewrite H10. reflexivity.
  - destruct (1 ?= q) eqn:Hc1; reflexivity.
Qed.

Lemma exact_level_mono (a b c1 c2 : Qc) :
  a < b -> c1 <= c2 -> exact_level a b c1 <= exact_level a b c2.
Proof.
  intros Hab Hc.
  assert (Hpos : 0 < b - a) by (apply Qclt_minus_iff in Hab; exact Hab).
  assert (Hne : b - a <> 0).
  { intro H0. rewrite H0 in Hpos. revert Hpos. apply Qcle_not_lt, Qcle_refl. }
  assert (Hq : (c1 - a) / (b - a) <= (c2 - a) / (b - a)).
  { apply (Qcmult_lt_0_le_reg_r _ _ _ Hpos).
    replace ((c1 - a) / (b - a) * (b - a)) with (c1 - a) by (field; exact Hne).
    replace ((c2 - a) / (b - a) * (b - a)) with (c2 - a) by (field; exact Hne).
    apply Qcle_minus_iff. apply Qcle_minus_iff in Hc.
    replace (c2 - a + - (c1 - a)) with (c2 + - c1) by ring. exact Hc. }
  unfold exact_level. cbv zeta.
  set (q1 := (c1 - a) / (b - a)) in *. set (q2 := (c2 - a) / (b - a)) in *.
  assert (H255 : 0 <= Q2Qc (inject_Z 255)) by (intro H; discriminate H).
  rewrite !(Qcmult_comm (Q2Qc (inject_Z 255))).
  apply Qcmult_le_compat_r; [|exact H255].
  clearbody q1 q2.
  destruct (q1 ?= 0) eqn:H10; destruct (q2 ?= 0) eqn:H20;
    destruct (1 ?= q1) eqn:H11; destruct (1 ?= q2) eqn:H21;
    repeat match goal with
           | H : (_ ?= _) = Eq |- _ => apply Qceq_alt in H
           | H : (_ ?= _) = Lt |- _ => apply Qclt_alt in H
           | H : (_ ?= _) = Gt |- _ => apply Qcgt_alt in H
           end;
    subst; unfold Qcle, Qclt in *; simpl in *; lra.
Qed.
End QuantizeOrder.

(** X15: in exact arithmetic, with [znear < zfar], the byte of a depth is the
    integer part of [255 * min(max((c - znear) / (zfar - znear), 0), 1)]: it
    is defined, lies between 0 and 255, and grows with the depth. *)
Theorem quantize_exact_is_monotone (a b c1 c2 : Qc) :
  (a < b)%Qc ->
  (c1 <= c2)%Qc ->
  quantize (AF := Exact.arith) (Some a) (Some b) (Some c1)
  = Some (integer_part (exact_level a b c1))
  /\ quantize (AF := Exact.arith) (Some a) (Some b) (Some c2)
     = Some (integer_part (exact_level a b c2))
  /\ (0 <= integer_part (exact_level a b c1) <= integer_part (exact_level a b c2))%Z
  /\ (integer_part (exact_level a b c2) <= 255)%Z.
Proof.
  intros Hab Hc.
  split; [apply quantize_exact_level; exact Hab|].
  split; [apply quantize_exact_level; exact Hab|].
  destruct (exact_level_bounds a b c1) as [Hlo1 _].
  destruct (exact_level_bounds a b c2) as [Hlo2 Hhi2].
  split.
  - apply integer_part_mono; [exact Hlo1 | apply exact_level_mono; assumption].
  - rewrite <- integer_part_255. apply integer_part_mono; assumption.
Qed.

Lemma quantize_exact_is_monotone_witness :
  quantize (AF := Exact.arith) (Sample.xq 1 1) (Sample.xq 5 1) (Sample.xq 2 1)
  = Some 63%Z
  /\ quantize (AF := Exact.arith) (Sample.xq 1 1) (Sample.xq 5 1) (Sample.xq 3 1)
     = Some 127%Z.
Proof.
  destruct (quantize_exact_is_monotone
              (SamplePose.q 1 1) (SamplePose.q 5 1) (SamplePose.q 2 1) (SamplePose.q 3 1))
    as (H1 & H2 & _).
  - reflexivity.
  - intro H. discriminate H.
  - split; [exact H1 | exact H2].
Defined.

(** X16: in [float], when [zfar == znear] is a number, the conversion of a
    pixel that holds that very depth divides zero by zero and converts what
    is no number to [uchar]: the byte is not defined. *)
Theorem quantize_degenerate_range (a : spec_float) :
  finite a ->
  quantize (AF := IEEE.binary32) a a a = None
  /\ data (ConvertDepthtoUChar (AF := IEEE.binary32) a a (mkImage 1 1 [a])) = [None].
Proof.
  intro Ha.
  assert (Hq : quantize (AF := IEEE.binary32) a a a = None).
  { unfold quantize.
    destruct a as [s|s| |s m e]; try contradiction.
    - destruct s; reflexivity.
    - change (feqb (S754_finite s m e) (S754_finite s m e))
        with (SFeqb (S754_finite s m e) (S754_finite s m e)).
      rewrite (SFeqb_self (S754_finite s m e) s m e) by (right; reflexivity).
      change (fsub (S754_finite s m e) (S754_finite s m e))
        with (SFsub 24 128 (S754_finite s m e) (S754_finite s m e)).
      rewrite (SFsub_self (S754_finite s m e) s m e) by (right; reflexivity).
      reflexivity. }
  split; [exact Hq|].
  unfold ConvertDepthtoUChar, ConvertDepthtoUChar_column. simpl.
  rewrite Hq. reflexivity.
Qed.

Lemma quantize_degenerate_range_witness :
  quantize (AF := IEEE.binary32) (Sample.f32 2 1) (Sample.f32 2 1) (Sample.f32 2 1)
  = None
  /\ data (ConvertDepthtoUChar (AF := IEEE.binary32) (Sample.f32 2 1) (Sample.f32 2 1)
             (mkImage 1 1 [Sample.f32 2 1])) = [None].
Proof.
  apply (quantize_degenerate_range (Sample.f32 2 1)).
  vm_compute. exact I.
Defined.

(** ** The loop over the depth hypotheses, in exact arithmetic *)

Section DepthLoopExact.
Local Existing Instance Exact.arith.
Local Open Scope Qc_scope.

Lemma of_Z_succ (z : Z) : Q2Qc (inject_Z (z + 1)) = Q2Qc (inject_Z z) + 1.
Proof.
  apply Qc_is_canon. unfold Qcplus. cbn [this Q2Qc].
  rewrite !Qred_correct. unfold Qeq, inject_Z, Qplus. simpl. lia.
Qed.

Lemma of_Z_le (x y : Z) : (x <= y)%Z -> Q2Qc (inject_Z x) <= Q2Qc (inject_Z y).
Proof.
  intro H. unfold Qcle. cbn [this Q2Qc]. rewrite !Qred_correct.
  unfold Qle, inject_Z. simpl. lia.
Qed.

Lemma of_Z_lt (x y : Z) : (x < y)%Z -> Q2Qc (inject_Z x) < Q2Qc (inject_Z y).
Proof.
  intro H. unfold Qclt. cbn [this Q2Qc]. rewrite !Qred_correct.
  unfold Qlt, inject_Z. simpl. lia.
Qed.

Section Evenly.
Variable cfg : Settings Exact.xnum.
Variables a b : Qc.
Hypothesis Hnear : znear cfg = Some a.
Hypothesis Hfar : zfar cfg = Some b.
Hypothesis Hab : a < b.
Hypothesis Hplanes : (2 <= numberplanes cfg)%Z.

Let n : Qc := Q2Qc (inject_Z (numberplanes cfg - 1)).
Let step : Qc := (b - a) / n.

Lemma planes_positive : 0 < n.
Proof. unfold n. apply (of_Z_lt 0). lia. Qed.

Lemma planes_nonzero : n <> 0.
Proof.
  intro H. pose proof planes_positive as Hp. rewrite H in Hp.
  revert Hp. apply Qcle_not_lt, Qcle_refl.
Qed.

Lemma step_times_planes : n * step = b - a.
Proof. unfold step. field. exact planes_nonzero. Qed.

Lemma step_positive : 0 < step.
Proof.
  apply Qcnot_le_lt. intro Hle.
  assert (H : step * n <= 0 * n).
  { apply Qcmult_le_compat_r; [exact Hle | apply Qclt_le_weak, planes_positive]. }
  rewrite Qcmult_0_l, Qcmult_comm, step_times_planes in H.
  apply Qclt_minus_iff in Hab. revert Hab. apply Qcle_not_lt.
  replace (b + - a) with (b - a) by ring. exact H.
Qed.

Lemma dstep_exact : dstep cfg = Some step.
Proof.
  unfold dstep. rewrite Hnear, Hfar.
  cbv [fdiv fsub of_int Exact.arith Exact.lift2 Exact.xdiv Exact.of_Z].
  fold n. destruct (Qc_eq_dec n 0) as [Hz|_]; [|reflexivity].
  exfalso. exact (planes_nonzero Hz).
Qed.

Lemma depth_after_exact (k : nat) :
  depth_after cfg k = Some (a + Q2Qc (inject_Z (Z.of_nat k)) * step).
Proof.
  induction k as [|k IH].
  - unfold depth_after. simpl. rewrite Hnear. f_equal.
    change (Q2Qc (inject_Z 0)) with 0. ring.
  - change (depth_after cfg (S k)) with (fadd (depth_after cfg k) (dstep cfg)).
    rewrite IH, dstep_exact.
    cbv [fadd Exact.arith Exact.lift2]. f_equal.
    rewrite Nat2Z.inj_succ. unfold Z.succ. rewrite of_Z_succ. ring.
Qed.

Lemma depth_in_range (k : nat) :
  (Z.of_nat k <= numberplanes cfg - 1)%Z -> in_range cfg (depth_after cfg k).
Proof.
  intro Hk. unfold in_range. rewrite depth_after_exact, Hfar.
  cbv [fleb Exact.arith Exact.xleb Exact.xcmp].
  assert (Hle : a + Q2Qc (inject_Z (Z.of_nat k)) * step <= b).
  { replace b with (a + n * step) by (rewrite step_times_planes; ring).
    apply Qcplus_le_compat; [apply Qcle_refl|].
    apply Qcmult_le_compat_r; [apply of_Z_le; exact Hk|].
    apply Qclt_le_weak, step_positive. }
  destruct (a + Q2Qc (inject_Z (Z.of_nat k)) * step ?= b) eqn:E; try reflexivity.
  exfalso. apply Qcgt_alt in E. revert E. apply Qcle_not_lt. exact Hle.
Qed.

Lemma depth_out_of_range (k : nat) :
  (numberplanes cfg - 1 < Z.of_nat k)%Z ->
  fleb (depth_after cfg k) (zfar cfg) = false.
Proof.
  intro Hk. rewrite depth_after_exact, Hfar.
  cbv [fleb Exact.arith Exact.xleb Exact.xcmp].
  assert (Hgt : b < a + Q2Qc (inject_Z (Z.of_nat k)) * step).
  { apply Qclt_minus_iff.
    replace (a + Q2Qc (inject_Z (Z.of_nat k)) * step + - b)
      with (Q2Qc (inject_Z (Z.of_nat k)) * step + - (n * step))
      by (rewrite step_times_planes; ring).
    apply (proj1 (Qclt_minus_iff (n * step)
                    (Q2Qc (inject_Z (Z.of_nat k)) * step))).
    apply Qcmult_lt_compat_r; [exact step_positive | apply of_Z_lt; exact Hk]. }
  apply Qcgt_alt in Hgt. rewrite Hgt. reflexivity.
Qed.

Lemma last_depth_exact :
  depth_after cfg (Z.to_nat (numberplanes cfg - 1)) = Some b.
Proof.
  rewrite depth_after_exact. f_equal.
  rewrite Z2Nat.id by lia. fold n. rewrite step_times_planes. ring.
Qed.
End Evenly.

(** X17: in exact arithmetic, for [znear < zfar] and at least two planes, the
    loop visits exactly [numberplanes] depths: they are [znear + k * dstep]
    for [k] from 0 to [numberplanes - 1], the first is [znear] and the last
    is [zfar].  (In [float] the last depth can be missed.) *)
Theorem depth_hypotheses_exact_are_evenly_spaced
    (cfg : Settings Exact.xnum) (a b : Qc) (fuel : nat) :
  znear cfg = Some a ->
  zfar cfg = Some b ->
  a < b ->
  (2 <= numberplanes cfg)%Z ->
  (Z.to_nat (numberplanes cfg) < fuel)%nat ->
  exists visited,
    depth_hypotheses cfg fuel = Some visited
    /\ length visited = Z.to_nat (numberplanes cfg)
    /\ (forall k, (k < Z.to_nat (numberplanes cfg))%nat ->
        nth k visited None
        = Some (a + Q2Qc (inject_Z (Z.of_nat k))
                    * ((b - a) / Q2Qc (inject_Z (numberplanes cfg - 1)))))
    /\ hd_error visited = Some (Some a)
    /\ last visited None = Some b.
Proof.
  intros Hnear Hfar Hab Hplanes Hfuel.
  set (m := Z.to_nat (numberplanes cfg)).
  assert (Hm : m = S (Z.to_nat (numberplanes cfg - 1))) by (unfold m; lia).
  exists (map (depth_after cfg) (seq 0%nat m)).
  split; [|split; [|split; [|split]]].
  - unfold depth_hypotheses.
    apply (for_depth_returns cfg m fuel 0%nat []).
    + intros j Hj.
      eapply depth_in_range; try eassumption. lia.
    + eapply depth_out_of_range; try eassumption. lia.
    + exact Hfuel.
  - rewrite length_map, length_seq. reflexivity.
  - intros k Hk.
    rewrite (nth_indep _ None (depth_after cfg 0%nat))
      by (rewrite length_map, length_seq; exact Hk).
    rewrite (map_nth (depth_after cfg) (seq 0 m) 0%nat k), seq_nth by exact Hk.
    eapply depth_after_exact; eassumption.
  - rewrite Hm. simpl. unfold depth_after. simpl. rewrite Hnear. reflexivity.
  - rewrite Hm, seq_S, map_app. cbn [map]. rewrite last_last. cbn [Nat.add].
    eapply last_depth_exact; eassumption.
Qed.
End DepthLoopExact.

Lemma depth_hypotheses_exact_are_evenly_spaced_witness :
  exists visited,
    depth_hypotheses (AF := Exact.arith) Sample.scenarioQ 32 = Some visited
    /\ length visited = 16
    /\ (forall k, k < 16 ->
        nth k visited None
        = Some (SamplePose.q 1 1 + Q2Qc (inject_Z (Z.of_nat k))
                 * ((SamplePose.q 5 1 - SamplePose.q 1 1) / Q2Qc (inject_Z 15)))%Qc)
    /\ hd_error visited = Some (Some (SamplePose.q 1 1))
    /\ last visited None = Some (SamplePose.q 5 1).
Proof.
  apply (depth_hypotheses_exact_are_evenly_spaced Sample.scenarioQ
           (SamplePose.q 1 1) (SamplePose.q 5 1) 32).
  - reflexivity.
  - reflexivity.
  - reflexivity.
  - vm_compute. discriminate.
  - vm_compute. lia.
Defined.

(** ** What the two TGV stages export *)

Section RefinementSpec.
Context {F D : Type} {AF : Arith F} {AD : Arith D} {W : Widen F D}.
Variable kernels : Kernels F D.
Variable cfg : Settings F.
Implicit Types s : machine F.

Local Open Scope monad_scope.

Local Tactic Notation "run" uconstr(lemma) :=
  eapply spec_bind; [apply lemma | cbn beta | intros; exact I].

Lemma upload_views_value n w h s :
  spec (upload_views cfg n w h) s
    (fun views _ => views = map (TGV_view cfg w h) (seq 0 n))
    (fun _ => True).
Proof.
  unfold upload_views.
  apply (spec_for_each
           (fun i views =>
              (Images_new 4 w h ;;
               Src <- copyFrom (B_HostSrc i)
                        (data (image (nth i (HostSrc cfg) blank_view))) ;;
               ret (views ++
                    [(element_scale Src (fdiv (of_int 1) (of_int 255)) w h,
                      RelativeMatrices (alternativemethod cfg)
                        (R (HostRef cfg)) (t (HostRef cfg))
                        (R (nth i (HostSrc cfg) blank_view))
                        (t (nth i (HostSrc cfg) blank_view)))]))%monad)
           (fun seen views _ => views = map (TGV_view cfg w h) seen)
           (fun _ => True)).
  - intros seen i views s0 _ ->.
    run Images_new_spec. intros _ s1 _.
    run copyFrom_spec. intros Src s2 (-> & _).
    apply spec_ret. rewrite map_app. reflexivity.
  - reflexivity.
Qed.

Lemma for_each_iter {S : Type} (f : S -> S) (body : nat -> S -> M (machine F) S)
    (l : list nat) :
  (forall x u s, spec (body x u) s (fun u' _ => u' = f u) (fun _ => True)) ->
  forall (u : S) s,
    spec (for_each l body u) s
      (fun u' _ => u' = Nat.iter (length l) f u)
      (fun _ => True).
Proof.
  intro Hbody. induction l as [|x l IH]; intros u s; simpl for_each.
  - apply spec_ret. reflexivity.
  - eapply spec_bind; [apply Hbody | | intros; exact I].
    cbn beta. intros u1 s1 ->.
    eapply spec_weaken; [apply IH | | intros; exact I].
    cbn beta. intros u' _ ->. simpl length.
    rewrite Nat.iter_succ_r. reflexivity.
Qed.

Lemma for_range_iter {S : Type} (body : nat -> S -> S) (f : S -> S) (n : nat) :
  (forall i st, body i st = f st) ->
  forall acc, for_range n body acc = Nat.iter n f acc.
Proof.
  intro Hbody. unfold for_range. generalize 0 as start.
  induction n as [|n IH]; intros start acc; [reflexivity|].
  cbn [seq fold_left]. rewrite IH, Hbody. symmetry. apply Nat.iter_succ_r.
Qed.

Lemma iter_same {S : Type} (f g : S -> S) (n : nat) :
  (forall x, f x = g x) -> forall x, Nat.iter n f x = Nat.iter n g x.
Proof.
  intro Hfg. induction n as [|n IH]; intro x; simpl; [reflexivity|].
  rewrite IH. apply Hfg.
Qed.

Lemma TGV_linearize_linearized Ref u0 fx fy w h view :
  TGV_linearize kernels cfg Ref u0 fx fy w h view
  = linearized kernels cfg Ref u0 fx fy w h view.
Proof.
  destruct view as [Src [Rrel Trel]]. unfold TGV_linearize, linearized.
  cbn [fst snd].
  destruct (TGV2_transform_coordinates kernels u0 (K cfg) Rrel Trel (invK cfg) w h)
    as [[x y] XYZ].
  cbn [fst snd].
  destruct (TGV2_calculate_derivativeF kernels XYZ
              (TGV2_calculate_coordinate_derivatives kernels (invK cfg) Rrel w h)
              fx fy w h) as [dfx dfy].
  reflexivity.
Qed.

Lemma TGV_updateR_all_views_updated u u0 sigma lambda w h lin :
  TGV_updateR_all kernels u u0 sigma lambda w h lin (set_value fzero w h)
  = views_updated kernels u u0 sigma lambda w h lin.
Proof.
  unfold TGV_updateR_all, views_updated. apply fold_left_same.
  intros [done prodsum] [[It Iu] r]. cbn [fst snd].
  destruct (TGV2_updateR kernels r prodsum u u0 It Iu sigma lambda w h).
  reflexivity.
Qed.

Lemma TGV_iteration_update T u0 lambda alpha0 alpha1 tau sigma w h i st :
  TGV_iteration kernels T u0 lambda alpha0 alpha1 tau sigma w h i st
  = TGV_update kernels T u0 lambda alpha0 alpha1 tau sigma w h st.
Proof.
  destruct st as [[[[[[u u1x] u1y] [[ubar u1xbar] u1ybar]] P] q] lin].
  unfold TGV_iteration, TGV_update. cbn [fst snd].
  rewrite TGV_updateR_all_views_updated.
  destruct (views_updated kernels u u0 sigma lambda w h lin) as [lin' prodsum].
  cbn [fst snd].
  match goal with
  | |- (let (_, _) := ?x in _) = _ => destruct x as [us' ubars']
  end.
  reflexivity.
Qed.

(** The warp of the code is the warp described. *)
Lemma TGV_warp_warped T Ref views niters lambda alpha0 alpha1 tau sigma fx fy w h u :
  TGV_warp kernels cfg T Ref views niters lambda alpha0 alpha1 tau sigma fx fy w h u
  = warped kernels cfg T Ref views niters lambda alpha0 alpha1 tau sigma fx fy w h u.
Proof.
  unfold TGV_warp, warped. cbv zeta.
  rewrite (for_range_iter
             (TGV_iteration kernels T u lambda alpha0 alpha1 tau sigma w h)
             (TGV_update kernels T u lambda alpha0 alpha1 tau sigma w h) niters)
    by (intros; apply TGV_iteration_update).
  rewrite (map_ext _ _ (TGV_linearize_linearized Ref u fx fy w h)).
  match goal with
  | |- (let (_, _) := ?x in _) = _ =>
      destruct x as [[[[[[u' u1x] u1y] ubars] P] q] lin]
  end.
  reflexivity.
Qed.

Lemma TGV_exports niters warps lambda alpha0 alpha1 tau sigma beta gamma s :
  spec (TGV kernels cfg niters warps lambda alpha0 alpha1 tau sigma beta gamma) s
    (fun b s' =>
       b = true ->
       depthmapTGV (obj s')
       = TGV_depthmap kernels cfg niters warps lambda alpha0 alpha1 tau sigma
           beta gamma)
    (fun _ => True).
Proof.
  unfold TGV.
  eapply spec_try_catch with (E0 := fun _ => True).
  2: { intros s' _. eapply spec_weaken; [apply handler_spec | |]; cbn beta.
       - intros b s2 (-> & _). discriminate.
       - intros; exact I. }
  run cudaDevInit_spec. intros r s1 _.
  destruct r as [|dev].
  { eapply spec_weaken; [apply handler_spec | |]; cbn beta.
    - intros b s2 (-> & _). discriminate.
    - intros; exact I. }
  run assign_spec. intros _ s2 _.
  run assign_spec. intros _ s3 _.
  run Images_new_spec. intros _ s4 _.
  run cuda_spec. intros _ s5 _.
  run copyFrom_spec. intros Ref s6 (-> & _).
  run upload_views_value. intros views s7 ->.
  eapply spec_bind; [| |intros; exact I].
  { apply (for_each_iter
             (TGV_warp kernels cfg
                (Anisotropic_diffusion_tensor kernels
                   (element_scale (data (image (HostRef cfg)))
                      (fdiv (of_int 1) (of_int 255)) (ref_width cfg) (ref_height cfg))
                   beta gamma (ref_width cfg) (ref_height cfg))
                (element_scale (data (image (HostRef cfg)))
                   (fdiv (of_int 1) (of_int 255)) (ref_width cfg) (ref_height cfg))
                (map (TGV_view cfg (ref_width cfg) (ref_height cfg))
                   (seq 0 (Z.to_nat (nimgs cfg))))
                niters lambda alpha0 alpha1 tau sigma
                (to_double (m00 (K cfg))) (to_double (m11 (K cfg)))
                (ref_width cfg) (ref_height cfg))).
    intros l u sa.
    run cuda_spec. intros _ sb _.
    run cuda_spec. intros _ sc _.
    apply spec_ret. reflexivity. }
  cbn beta. intros u s8 ->. rewrite length_seq.
  match goal with
  | |- context [Nat.iter ?n (TGV_warp ?k ?c ?T ?Ref ?views ?ni ?l ?a0 ?a1 ?ta ?si
                               ?fx ?fy ?w ?h) ?u] =>
      rewrite (@iter_same _
                 (TGV_warp k c T Ref views ni l a0 a1 ta si fx fy w h)
                 (warped k c T Ref views ni l a0 a1 ta si fx fy w h) n
                 (TGV_warp_warped T Ref views ni l a0 a1 ta si fx fy w h) u)
  end.
  run cuda_spec. intros _ s9 _.
  run assign_spec. intros _ s10 (Ho10 & _).
  run assign_spec. intros _ s11 (Ho11 & _).
  apply spec_ret. intros _. rewrite Ho11, Ho10. reflexivity.
Qed.

Lemma TGVdenoiseFromSparse_exports depth niters alpha0 alpha1 tau sigma theta beta
    gamma s :
  spec (TGVdenoiseFromSparse kernels cfg depth niters alpha0 alpha1 tau sigma theta
          beta gamma) s
    (fun b s' =>
       b = true ->
       depthmapTGV (obj s')
       = sparse_depthmap kernels cfg depth (depthmap (obj s)) niters
           alpha0 alpha1 tau sigma theta beta gamma)
    (fun _ => True).
Proof.
  unfold TGVdenoiseFromSparse.
  eapply spec_try_catch with (E0 := fun _ => True).
  2: { intros s' _. eapply spec_weaken; [apply handler_spec | |]; cbn beta.
       - intros b s2 (-> & _). discriminate.
       - intros; exact I. }
  run cudaDevInit_spec. intros r s1 [Ho1 _].
  destruct r as [|dev].
  { eapply spec_weaken; [apply handler_spec | |]; cbn beta.
    - intros b s2 (-> & _). discriminate.
    - intros; exact I. }
  run assign_spec. intros _ s2 (Ho2 & _).
  run Images_new_spec. intros _ s3 (Ho3 & _).
  run cuda_spec. intros _ s4 (Ho4 & _).
  run cuda_spec. intros _ s5 (Ho5 & _).
  run assign_spec. intros _ s6 (Ho6 & _).
  run copyFrom_spec. intros Ds s7 (-> & Ho7 & _).
  run member_spec. intros raw s8 [-> ->].
  assert (Hraw : depthmap (obj s7) = depthmap (obj s)).
  { rewrite Ho7, Ho6, Ho5, Ho4, Ho3, Ho2, Ho1. reflexivity. }
  rewrite Hraw.
  run copyFrom_spec. intros ubar s9 (-> & _).
  run cuda_spec. intros _ s10 _.
  run copyFrom_spec. intros ref s11 (-> & _).
  unfold sparse_depthmap. cbv zeta.
  match goal with
  | |- context [for_range ?n ?f ?a] => destruct (for_range n f a) as [[[d1 bars] p1] q1]
  end.
  run cuda_spec. intros _ s12 _.
  run assign_spec. intros _ s13 (Ho13 & _).
  run assign_spec. intros _ s14 (Ho14 & _).
  apply spec_ret. intros _. rewrite Ho14, Ho13. reflexivity.
Qed.

Lemma set_value_repeat (v : F) (w h : nat) : set_value v w h = repeat v (w * h).
Proof.
  unfold set_value, per_pixel. generalize 0 as start.
  induction (w * h) as [|k IH]; intro start; simpl; [reflexivity|].
  rewrite IH. reflexivity.
Qed.

Lemma iter_fixed {S : Type} (f : S -> S) (k : nat) (u : S) :
  (forall x, f x = x) -> Nat.iter k f u = u.
Proof.
  intro Hf. induction k as [|k IH]; simpl; [reflexivity|]. rewrite IH. apply Hf.
Qed.

(** X18: a run of [TGV] that returns [true] exports the constant depth map 1
    warped [warps] times, where a warp linearizes each of the views used
    around the current map, starts the other variables from zero and applies
    [niters] updates (the two dual variables, the auxiliary variable of every
    view with the products summed from zero, then the primal variables):
    [TGV_depthmap], written with [linearized], [views_updated], [TGV_update]
    and [warped] and not with the loops of the code.  The state the run starts
    from, the raw depth map of [RunAlgorithm] included, plays no part in
    it, and with [warps = 0] or [niters = 0] every pixel of [depthmapTGV]
    is 1. *)
Theorem TGV_refines_the_constant_map
    niters warps lambda alpha0 alpha1 tau sigma beta gamma s s' :
  TGV kernels cfg niters warps lambda alpha0 alpha1 tau sigma beta gamma s
  = (Ok true, s') ->
  depthmapTGV (obj s')
  = TGV_depthmap kernels cfg niters warps lambda alpha0 alpha1 tau sigma beta gamma
  /\ (warps = 0 \/ niters = 0 ->
      depthmapTGV (obj s')
      = mkImage (ref_width cfg) (ref_height cfg)
          (repeat fone (ref_width cfg * ref_height cfg))).
Proof.
  intro Hrun.
  pose proof (TGV_exports niters warps lambda alpha0 alpha1 tau sigma beta gamma s) as H.
  unfold spec in H. rewrite Hrun in H. specialize (H eq_refl).
  split; [exact H|].
  intro Hzero. rewrite H. unfold TGV_depthmap. cbv zeta. f_equal.
  rewrite set_value_repeat.
  destruct Hzero as [-> | ->]; [reflexivity|].
  apply iter_fixed. intro u. reflexivity.
Qed.
End RefinementSpec.

Section SparseZeroIterations.
Local Existing Instance Exact.arith.
Local Existing Instance Exact.widen.

Lemma rescale_exact (b : Qc) (v : Exact.xnum) :
  b <> 0%Qc ->
  fmul (fmul v (fdiv (of_int 1) (Some b))) (Some b) = v.
Proof.
  intro Hb. destruct v as [c|]; [|reflexivity].
  cbv [fmul fdiv of_int Exact.arith Exact.lift2 Exact.xdiv Exact.of_Z].
  destruct (Qc_eq_dec b 0) as [Hz|_]; [contradiction|].
  f_equal. change (Q2Qc (inject_Z 1)) with 1%Qc. field. exact Hb.
Qed.

(** X19: in exact arithmetic, with [zfar] other than zero and a raw depth
    map of the size of the reference image, [TGVdenoiseFromSparse] with
    [niters = 0] exports the raw depth map of the engine unchanged: the sparse
    depth it is handed only enters the iterations.  The raw depth map is read
    whether or not [depthavailable] is set. *)
Theorem TGVdenoiseFromSparse_zero_iterations_exact
    (kernels : Kernels Exact.xnum Exact.xnum) (cfg : Settings Exact.xnum)
    (depth : CamImage Exact.xnum)
    (alpha0 alpha1 tau sigma theta beta gamma : Exact.xnum)
    (s s' : machine Exact.xnum) (b : Qc) :
  zfar cfg = Some b ->
  b <> 0%Qc ->
  width (depthmap (obj s)) = ref_width cfg ->
  height (depthmap (obj s)) = ref_height cfg ->
  length (data (depthmap (obj s))) = ref_width cfg * ref_height cfg ->
  TGVdenoiseFromSparse kernels cfg depth 0 alpha0 alpha1 tau sigma theta beta gamma s
  = (Ok true, s') ->
  depthmapTGV (obj s') = depthmap (obj s).
Proof.
  intros Hfar Hb Hw Hh Hlen Hrun.
  pose proof (TGVdenoiseFromSparse_exports kernels cfg depth 0 alpha0 alpha1 tau sigma
                theta beta gamma s) as H.
  unfold spec in H. rewrite Hrun in H. specialize (H eq_refl). rewrite H.
  unfold sparse_depthmap. cbv zeta. cbn [for_range seq fold_left fst].
  destruct (depthmap (obj s)) as [w h pixels]. cbn [width height data] in *.
  subst w h. f_equal.
  unfold element_scale at 1. apply per_pixel_same; [exact Hlen|].
  intros p Hp.
  unfold element_scale. rewrite px_per_pixel by exact Hp.
  rewrite Hfar. apply rescale_exact. exact Hb.
Qed.
End SparseZeroIterations.

Lemma TGV_refines_the_constant_map_witness :
  let run :=
    TGV (AF := IEEE.binary32) (W := IEEE.widen) SampleRefine.stepping32
      Sample.scenario32 2 2
      (SampleDenoise.f64 1 1) (SampleDenoise.f64 1 1) (SampleDenoise.f64 1 1)
      (SampleDenoise.f64 1 50) (SampleDenoise.f64 8 1)
      (SampleDenoise.f64 4 1) (SampleDenoise.f64 1 2) Sample.start32 in
  depthmapTGV (obj (snd run))
  = mkImage 2 1 [IEEE.of_Z 24 128 5; IEEE.of_Z 24 128 5].
Proof.
  cbv zeta.
  refine (eq_trans
            (proj1 (TGV_refines_the_constant_map (AF := IEEE.binary32)
                      (W := IEEE.widen) SampleRefine.stepping32 Sample.scenario32 2 2
                      (SampleDenoise.f64 1 1) (SampleDenoise.f64 1 1)
                      (SampleDenoise.f64 1 1) (SampleDenoise.f64 1 50)
                      (SampleDenoise.f64 8 1) (SampleDenoise.f64 4 1)
                      (SampleDenoise.f64 1 2) Sample.start32 _ _)) _).
  - vm_compute. reflexivity.
  - vm_compute. reflexivity.
Defined.

Lemma TGVdenoiseFromSparse_zero_iterations_exact_witness :
  let run :=
    TGVdenoiseFromSparse (AF := Exact.arith)
      SampleDenoise.kernelsQ SampleDenoise.settingsQ
      (mkImage 1 1 [Sample.xq 3 10]) 0
      (Sample.xq 1 1) (Sample.xq 1 1) (Sample.xq 1 50) (Sample.xq 8 1)
      (Sample.xq 1 1) (Sample.xq 4 1) (Sample.xq 1 2) SampleDenoise.startQ in
  depthmapTGV (obj (snd run)) = depthmap (obj SampleDenoise.startQ).
Proof.
  cbv zeta.
  apply (TGVdenoiseFromSparse_zero_iterations_exact
           SampleDenoise.kernelsQ SampleDenoise.settingsQ
           (mkImage 1 1 [Sample.xq 3 10])
           (Sample.xq 1 1) (Sample.xq 1 1) (Sample.xq 1 50) (Sample.xq 8 1)
           (Sample.xq 1 1) (Sample.xq 4 1) (Sample.xq 1 2) SampleDenoise.startQ
           _ (SamplePose.q 1 1)).
  - reflexivity.
  - intro H. discriminate H.
  - reflexivity.
  - reflexivity.
  - reflexivity.
  - vm_compute. reflexivity.
Defined.

(** ** Memory management *)

Section MemoryLayout.

Import Memory.
Local Open Scope Z_scope.

Lemma size_t_small z : 0 <= z <= SIZE_MAX -> size_t z = z.
Proof. intros Hz. unfold size_t. apply Z.mod_small. lia. Qed.

Lemma In_upto i n : In i (upto n) <-> 0 <= i < n.
Proof.
  unfold upto. rewrite in_map_iff. split.
  - intros [k [<- Hk]]. apply in_seq in Hk. lia.
  - intros Hi. exists (Z.to_nat i). split; [lia|]. apply in_seq. lia.
Qed.

Lemma row_offset i n r m : 0 <= i < n -> 0 <= r < m -> 0 <= i * m + r < n * m.
Proof. intros Hi Hr. nia. Qed.

(** What a [Malloc] that returns has done: one request, to the allocator of
    the kind, whose block the pointer holds; the pitches are those of rows
    without padding. *)
Lemma Malloc_returns sizeofT memT rt len s v :
  Malloc sizeofT memT rt len s = Some v ->
  let r := match memT with
           | Standard => new_array len
           | Device => cudaMalloc (size_t (len * sizeofT))
           | Managed => cudaMallocManaged (size_t (len * sizeofT))
           | Host => cudaMallocHost (size_t (len * sizeofT))
           end in
  v = mkStore (Some (mkBlock r (served sizeofT rt r))) (pitch s) (spitch s)
              (r :: issued s).
Proof.
  destruct memT; unfold Malloc, andthen, when, memT_is, allocate; cbn;
    destruct (grants rt _); intros Hv; inversion Hv; reflexivity.
Qed.

Lemma Malloc2D_returns sizeofT memT rt w h s v :
  Malloc2D sizeofT memT rt w h s = Some v ->
  let P := size_t (w * sizeofT) in
  let r := match memT with
           | Standard => new_array (size_t (w * h))
           | Device => cudaMallocPitch P h
           | Managed => cudaMallocManaged (size_t (P * h))
           | Host => cudaMallocHost (size_t (P * h))
           end in
  v = mkStore (Some (mkBlock r (served sizeofT rt r))) P (spitch s) (r :: issued s).
Proof.
  destruct memT; unfold Malloc2D, andthen, when, memT_is, allocate, set_pitch; cbn;
    destruct (grants rt _); intros Hv; inversion Hv; reflexivity.
Qed.

Lemma Malloc3D_returns sizeofT memT rt w h d s v :
  Malloc3D sizeofT memT rt w h d s = Some v ->
  let P := size_t (w * sizeofT) in
  let r := match memT with
           | Standard => new_array (size_t (size_t (w * h) * d))
           | Device => cudaMallocPitch P (size_t (h * d))
           | Managed => cudaMallocManaged (size_t (size_t (P * h) * d))
           | Host => cudaMallocHost (size_t (size_t (P * h) * d))
           end in
  v = mkStore (Some (mkBlock r (served sizeofT rt r))) P (size_t (h * P))
              (r :: issued s).
Proof.
  destruct memT; unfold Malloc3D, andthen, when, memT_is, allocate, set_pitch, set_spitch;
    cbn; destruct (grants rt _); intros Hv; inversion Hv; reflexivity.
Qed.

(** The sizes of a volume that is not empty, when the bytes of its elements
    fit a [size_t]. *)
Lemma volume_sizes sizeofT w h d :
  0 < sizeofT -> 0 < w -> 0 < h -> 0 < d ->
  w * sizeofT * h * d <= SIZE_MAX ->
  size_t (w * sizeofT) = w * sizeofT
  /\ size_t (h * d) = h * d
  /\ size_t (w * h) = w * h
  /\ size_t (w * h * d) = w * h * d
  /\ size_t (w * sizeofT * h) = w * sizeofT * h
  /\ size_t (w * sizeofT * h * d) = w * sizeofT * h * d
  /\ size_t (h * (w * sizeofT)) = h * (w * sizeofT).
Proof.
  intros Hs Hw Hh Hd Hfit.
  assert (H1 : w * sizeofT <= w * sizeofT * h) by nia.
  assert (H2 : w * sizeofT * h <= w * sizeofT * h * d) by nia.
  assert (H3 : w * h <= w * sizeofT * h) by nia.
  assert (H4 : w * h * d <= w * sizeofT * h * d) by nia.
  assert (H5 : h * d <= w * h * d) by nia.
  assert (H6 : 0 <= w * h) by nia.
  assert (H7 : 0 <= h * d) by nia.
  assert (H8 : 0 <= w * sizeofT) by nia.
  assert (H9 : 0 <= w * h * d) by nia.
  assert (H10 : 0 <= w * sizeofT * h) by nia.
  assert (H11 : h * (w * sizeofT) = w * sizeofT * h) by ring.
  repeat split; apply size_t_small; lia.
Qed.

(** The bytes of an element, in a layout of rows of [w] elements and slices
    of [h] rows without padding, lie in the first [d * h * w * sizeofT]. *)
Lemma tight_offset sizeofT w h d x y z c :
  0 <= x < w -> 0 <= y < h -> 0 <= z < d -> 0 <= c < sizeofT ->
  0 <= z * (h * (w * sizeofT)) + y * (w * sizeofT) + x * sizeofT + c
    < d * (h * (w * sizeofT)).
Proof.
  intros Hx Hy Hz Hc.
  pose proof (@row_offset _ _ _ _ Hx Hc) as H1.
  pose proof (@row_offset _ _ _ _ Hy H1) as H2.
  pose proof (@row_offset _ _ _ _ Hz H2) as H3.
  lia.
Qed.

(** X20: a volume of [w] x [h] x [d] elements whose bytes fit a [size_t],
    allocated by the 3D [Malloc] of any kind on a runtime whose pitch is at
    least the width asked: when the call returns, one request was made, the
    pointer holds its block, and every byte of every element, at
    [z * spitch + y * pitch + x * sizeof(T)], lies inside the block, although
    the pitch reported is [w * sizeof(T)] and not, for device memory, the
    pitch of [cudaMallocPitch]. *)
Theorem Malloc3D_volume_in_bounds sizeofT memT rt w h d s v :
  0 < sizeofT -> 0 <= w -> 0 <= h -> 0 <= d ->
  w * sizeofT * h * d <= SIZE_MAX ->
  (forall width, width <= row_pitch rt width) ->
  Malloc3D sizeofT memT rt w h d s = Some v ->
  exists b,
    ptr v = Some b /\ issued v = origin b :: issued s
    /\ forall x y z c,
         0 <= x < w -> 0 <= y < h -> 0 <= z < d -> 0 <= c < sizeofT ->
         pitch v = w * sizeofT
         /\ 0 <= element_offset sizeofT v x y z c < bytes b.
Proof.
  intros Hs Hw Hh Hd Hfit Hpitch Hv.
  apply Malloc3D_returns in Hv. cbv zeta in Hv. subst v.
  eexists. split; [reflexivity|]. split; [reflexivity|].
  intros x y z c Hx Hy Hz Hc. unfold element_offset. cbn [pitch spitch bytes].
  destruct (@volume_sizes sizeofT w h d Hs) as (E1 & E2 & E3 & E4 & E5 & E6 & E7);
    try lia.
  rewrite E1, E7. split; [reflexivity|].
  pose proof (@tight_offset _ _ _ _ _ _ _ _ Hx Hy Hz Hc) as Hin.
  destruct memT; cbn [served row_pitch];
    rewrite ?E1, ?E2, ?E3, ?E4, ?E5, ?E6.
  - lia.
  - replace (w * h * d * sizeofT) with (d * (h * (w * sizeofT))) by ring. lia.
  - lia.
  - specialize (Hpitch (w * sizeofT)).
    assert (d * (h * (w * sizeofT)) <= row_pitch rt (w * sizeofT) * (h * d)) by nia.
    lia.
Qed.

(** X21: the same for an image of [w] x [h] elements allocated by the 2D
    [Malloc]: every byte of every element, at [y * pitch + x * sizeof(T)],
    lies inside the block, and the slice pitch of the caller is left as it
    was. *)
Theorem Malloc2D_image_in_bounds sizeofT memT rt w h s v :
  0 < sizeofT -> 0 <= w -> 0 <= h ->
  w * sizeofT * h <= SIZE_MAX ->
  (forall width, width <= row_pitch rt width) ->
  Malloc2D sizeofT memT rt w h s = Some v ->
  exists b,
    ptr v = Some b /\ issued v = origin b :: issued s /\ spitch v = spitch s
    /\ forall x y c,
         0 <= x < w -> 0 <= y < h -> 0 <= c < sizeofT ->
         pitch v = w * sizeofT
         /\ 0 <= y * pitch v + x * sizeofT + c < bytes b.
Proof.
  intros Hs Hw Hh Hfit Hpitch Hv.
  apply Malloc2D_returns in Hv. cbv zeta in Hv. subst v.
  eexists. split; [reflexivity|]. split; [reflexivity|]. split; [reflexivity|].
  intros x y c Hx Hy Hc. cbn [pitch spitch bytes].
  destruct (@volume_sizes sizeofT w h 1 Hs) as (E1 & E2 & E3 & E4 & E5 & E6 & E7);
    try lia.
  rewrite Z.mul_1_r in *.
  rewrite E1. split; [reflexivity|].
  pose proof (@row_offset _ _ _ _ Hx Hc) as H1.
  pose proof (@row_offset _ _ _ _ Hy H1) as H2.
  destruct memT; cbn [served row_pitch]; rewrite ?E1, ?E3, ?E5.
  - lia.
  - replace (w * h * sizeofT) with (h * (w * sizeofT)) by ring. lia.
  - lia.
  - specialize (Hpitch (w * sizeofT)).
    assert (h * (w * sizeofT) <= row_pitch rt (w * sizeofT) * h) by nia.
    lia.
Qed.

(** X22: memory obtained by a [Malloc] of a kind, of whatever dimension, is
    released by [CleanUp] of the same kind with the call that matches the
    allocator ([delete[]] for [new T[]], [cudaFreeHost] for [cudaMallocHost],
    [cudaFree] for [cudaMalloc], [cudaMallocPitch] and [cudaMallocManaged]);
    the pointer of the caller still holds the released block afterwards. *)
Theorem CleanUp_matches_Malloc sizeofT memT rt s v v' :
  (exists len, Malloc sizeofT memT rt len s = Some v)
  \/ (exists w h, Malloc2D sizeofT memT rt w h s = Some v)
  \/ (exists w h d, Malloc3D sizeofT memT rt w h d s = Some v) ->
  CleanUp memT rt (ptr v) v = Some v' ->
  exists b free,
    ptr v = Some b /\ ptr v' = Some b
    /\ issued v' = free :: origin b :: issued s
    /\ releases free (origin b) = true.
Proof.
  intros Hm Hc.
  assert (Hv : exists r, v = mkStore (Some (mkBlock r (served sizeofT rt r)))
                                     (pitch v) (spitch v) (r :: issued s)
                         /\ r = match memT with
                                | Standard => new_array (match r with new_array n => n | _ => 0 end)
                                | Device => r
                                | Managed => cudaMallocManaged (match r with cudaMallocManaged n => n | _ => 0 end)
                                | Host => cudaMallocHost (match r with cudaMallocHost n => n | _ => 0 end)
                                end
                         /\ (memT = Device ->
                             releases cudaFree r = true)).
  { destruct Hm as [[len Hv] | [[w [h Hv]] | [w [h [d Hv]]]]];
      [apply Malloc_returns in Hv | apply Malloc2D_returns in Hv
       | apply Malloc3D_returns in Hv];
      cbv zeta in Hv; subst v; eexists; (split; [reflexivity|]);
      destruct memT; (split; [reflexivity | intros; try discriminate; reflexivity]). }
  destruct Hv as [r [Ev [Er Hdev]]].
  exists (mkBlock r (served sizeofT rt r)).
  rewrite Ev in Hc |- *. cbn [ptr issued origin].
  destruct memT; unfold CleanUp, memT_is, CHECK_CUDA_ERRORS_AUTO in Hc; cbn in Hc.
  - destruct (grants rt cudaFree); [|discriminate]. inversion Hc; subst v'.
    exists cudaFree. rewrite Er. repeat split.
  - inversion Hc; subst v'. exists delete_array. rewrite Er. repeat split.
  - destruct (grants rt cudaFreeHost); [|discriminate]. inversion Hc; subst v'.
    exists cudaFreeHost. rewrite Er. repeat split.
  - destruct (grants rt cudaFree); [|discriminate]. inversion Hc; subst v'.
    exists cudaFree. repeat split. apply Hdev. reflexivity.
Qed.

(** X23: two volumes of the same [w] x [h] x [d] elements whose bytes fit a
    [size_t], each allocated by a 3D [Malloc] (of any kind, on any runtime),
    and one of the four 3D copies between them with the pitches those calls
    reported: a copy that returns has asked for one [cudaMemcpy2D] of
    [h * d] rows, which moves exactly the bytes of the elements of the
    volume, each from its offset in the source to its offset in the
    destination. *)
Theorem Copy3D_moves_the_volume sizeofT rt copy w h d ms rs s0 vs md rd s1 vd s s' :
  0 < sizeofT -> 0 <= w -> 0 <= h -> 0 <= d ->
  w * sizeofT * h * d <= SIZE_MAX ->
  In copy [Device2DeviceCopy3D sizeofT rt; Device2HostCopy3D sizeofT rt;
           Host2DeviceCopy3D sizeofT rt; Host2HostCopy3D sizeofT rt] ->
  Malloc3D sizeofT ms rs w h d s0 = Some vs ->
  Malloc3D sizeofT md rd w h d s1 = Some vd ->
  copy (pitch vd) (pitch vs) w h d s = Some s' ->
  exists r,
    issued s' = r :: issued s
    /\ forall src dst,
         In (src, dst) (moves r) <->
         exists x y z c,
           (0 <= x < w /\ 0 <= y < h /\ 0 <= z < d /\ 0 <= c < sizeofT)
           /\ src = element_offset sizeofT vs x y z c
           /\ dst = element_offset sizeofT vd x y z c.
Proof.
  intros Hs Hw Hh Hd Hfit Hcopy Hvs Hvd Hc.
  assert (Hkind : exists kind, copy = Copy3D sizeofT rt kind).
  { destruct Hcopy as [<- | [<- | [<- | [<- | []]]]]; eexists; reflexivity. }
  destruct Hkind as [kind ->].
  apply Malloc3D_returns in Hvs. apply Malloc3D_returns in Hvd.
  cbv zeta in Hvs, Hvd.
  unfold Copy3D, CHECK_CUDA_ERRORS_AUTO in Hc.
  destruct (grants rt _); [|discriminate]. inversion Hc; subst s'; clear Hc.
  eexists. split; [reflexivity|].
  intros src dst. cbn [moves].
  rewrite in_flat_map.
  assert (Hoff : forall v P, pitch v = P -> spitch v = size_t (h * P) ->
                 forall x y z c, element_offset sizeofT v x y z c
                                 = z * size_t (h * P) + y * P + x * sizeofT + c).
  { intros v P E1 E2 x y z c. unfold element_offset. rewrite E1, E2. reflexivity. }
  assert (Es : forall x y z c, element_offset sizeofT vs x y z c
               = z * size_t (h * size_t (w * sizeofT)) + y * size_t (w * sizeofT)
                 + x * sizeofT + c).
  { apply Hoff; subst vs; reflexivity. }
  assert (Ed : forall x y z c, element_offset sizeofT vd x y z c
               = z * size_t (h * size_t (w * sizeofT)) + y * size_t (w * sizeofT)
                 + x * sizeofT + c).
  { apply Hoff; subst vd; reflexivity. }
  assert (Eps : pitch vs = size_t (w * sizeofT)) by (subst vs; reflexivity).
  assert (Epd : pitch vd = size_t (w * sizeofT)) by (subst vd; reflexivity).
  rewrite Eps, Epd. clear Hvs Hvd Hoff Eps Epd.
  split.
  - intros [row [Hrow Hin]]. apply in_map_iff in Hin.
    destruct Hin as [col [Heq Hcol]]. apply In_upto in Hrow, Hcol.
    inversion Heq; subst src dst; clear Heq.
    assert (Hw' : 0 < w).
    { destruct (Z.eq_dec w 0) as [->|]; [|lia].
      rewrite Z.mul_0_l in Hcol. unfold size_t in Hcol. rewrite Z.mod_0_l in Hcol; lia. }
    assert (Hhd : h * d <> 0).
    { intros E0. rewrite E0 in Hrow. unfold size_t in Hrow. rewrite Z.mod_0_l in Hrow; lia. }
    assert (Hh' : 0 < h) by nia. assert (Hd' : 0 < d) by nia.
    destruct (@volume_sizes _ _ _ _ Hs Hw' Hh' Hd' Hfit) as (E1 & E2 & E3 & E4 & E5 & E6 & E7).
    rewrite E1 in *. rewrite E2 in Hrow.
    exists (col / sizeofT), (row mod h), (row / h), (col mod sizeofT).
    rewrite Es, Ed, E7.
    pose proof (Z.div_mod row h ltac:(lia)) as Dr.
    pose proof (Z.mod_pos_bound row h Hh') as Br.
    pose proof (Z.div_mod col sizeofT ltac:(lia)) as Dc.
    pose proof (Z.mod_pos_bound col sizeofT Hs) as Bc.
    assert (0 <= row / h < d).
    { split; [apply Z.div_pos; lia|]. apply Z.div_lt_upper_bound; lia. }
    assert (0 <= col / sizeofT < w).
    { split; [apply Z.div_pos; lia|]. apply Z.div_lt_upper_bound; lia. }
    split; [lia|].
    assert (Hr : row * (w * sizeofT)
                 = row / h * (h * (w * sizeofT)) + row mod h * (w * sizeofT)).
    { rewrite Dr at 1. ring. }
    split; rewrite Hr; lia.
  - intros (x & y & z & c & (Hx & Hy & Hz & Hcc) & Hsrc & Hdst).
    rewrite Es in Hsrc. rewrite Ed in Hdst.
    destruct (@volume_sizes sizeofT w h d Hs) as (E1 & E2 & E3 & E4 & E5 & E6 & E7);
      try lia.
    rewrite E1 in *. rewrite E7 in *. rewrite E2.
    exists (z * h + y). split.
    + apply In_upto. pose proof (@row_offset _ _ _ _ Hz Hy). lia.
    + apply in_map_iff. exists (x * sizeofT + c). split.
      * subst src dst. f_equal; ring.
      * apply In_upto. pose proof (@row_offset _ _ _ _ Hx Hcc). lia.
Qed.

End MemoryLayout.

Section MemoryWitnesses.

Import Memory.
Local Open Scope Z_scope.

Lemma padding_pitch width : width <= row_pitch padding width.
Proof.
  cbn [row_pitch padding].
  pose proof (Z.div_mod (width + 511) 512 ltac:(lia)).
  pose proof (Z.mod_pos_bound (width + 511) 512 ltac:(lia)).
  lia.
Qed.

Lemma Malloc3D_volume_in_bounds_witness :
  exists b,
    ptr (mkStore (Some (mkBlock (cudaMallocPitch 12 4) 2048)) 12 24 [cudaMallocPitch 12 4])
      = Some b
    /\ issued (mkStore (Some (mkBlock (cudaMallocPitch 12 4) 2048)) 12 24
                       [cudaMallocPitch 12 4])
       = origin b :: issued fresh
    /\ forall x y z c,
         0 <= x < 3 -> 0 <= y < 2 -> 0 <= z < 2 -> 0 <= c < 4 ->
         pitch (mkStore (Some (mkBlock (cudaMallocPitch 12 4) 2048)) 12 24
                        [cudaMallocPitch 12 4]) = 3 * 4
         /\ 0 <= element_offset 4
                   (mkStore (Some (mkBlock (cudaMallocPitch 12 4) 2048)) 12 24
                            [cudaMallocPitch 12 4]) x y z c
              < bytes b.
Proof.
  apply (@Malloc3D_volume_in_bounds 4 Device padding 3 2 2 fresh);
    [lia | lia | lia | lia | vm_compute; discriminate | exact padding_pitch
     | vm_compute; reflexivity].
Defined.

Lemma Malloc2D_image_in_bounds_witness :
  exists b,
    ptr (mkStore (Some (mkBlock (cudaMallocHost 24) 24)) 12 0 [cudaMallocHost 24]) = Some b
    /\ issued (mkStore (Some (mkBlock (cudaMallocHost 24) 24)) 12 0 [cudaMallocHost 24])
       = origin b :: issued fresh
    /\ spitch (mkStore (Some (mkBlock (cudaMallocHost 24) 24)) 12 0 [cudaMallocHost 24])
       = spitch fresh
    /\ forall x y c,
         0 <= x < 3 -> 0 <= y < 2 -> 0 <= c < 4 ->
         pitch (mkStore (Some (mkBlock (cudaMallocHost 24) 24)) 12 0 [cudaMallocHost 24])
           = 3 * 4
         /\ 0 <= y * pitch (mkStore (Some (mkBlock (cudaMallocHost 24) 24)) 12 0
                                    [cudaMallocHost 24]) + x * 4 + c
              < bytes b.
Proof.
  apply (@Malloc2D_image_in_bounds 4 Host padding 3 2 fresh);
    [lia | lia | lia | vm_compute; discriminate | exact padding_pitch
     | vm_compute; reflexivity].
Defined.

Lemma CleanUp_matches_Malloc_witness :
  exists b free,
    ptr (mkStore (Some (mkBlock (new_array 5) 20)) 0 0 [new_array 5]) = Some b
    /\ ptr (mkStore (Some (mkBlock (new_array 5) 20)) 0 0 [delete_array; new_array 5])
       = Some b
    /\ issued (mkStore (Some (mkBlock (new_array 5) 20)) 0 0 [delete_array; new_array 5])
       = free :: origin b :: issued fresh
    /\ releases free (origin b) = true.
Proof.
  apply (@CleanUp_matches_Malloc 4 Standard exhausted fresh);
    [left; exists 5; vm_compute; reflexivity | vm_compute; reflexivity].
Defined.

Lemma Copy3D_moves_the_volume_witness :
  exists r,
    issued (mkStore None 0 0 [cudaMemcpy2D 12 12 12 4 cudaMemcpyHostToDevice])
      = r :: issued fresh
    /\ forall src dst,
         In (src, dst) (moves r) <->
         exists x y z c,
           (0 <= x < 3 /\ 0 <= y < 2 /\ 0 <= z < 2 /\ 0 <= c < 4)
           /\ src = element_offset 4
                      (mkStore (Some (mkBlock (cudaMallocHost 48) 48)) 12 24
                               [cudaMallocHost 48]) x y z c
           /\ dst = element_offset 4
                      (mkStore (Some (mkBlock (cudaMallocPitch 12 4) 2048)) 12 24
                               [cudaMallocPitch 12 4]) x y z c.
Proof.
  apply (@Copy3D_moves_the_volume 4 padding (Host2DeviceCopy3D 4 padding) 3 2 2
           Host padding fresh _ Device padding fresh _ fresh);
    [lia | lia | lia | lia | vm_compute; discriminate
     | right; right; left; reflexivity
     | vm_compute; reflexivity | vm_compute; reflexivity | vm_compute; reflexivity].
Defined.

End MemoryWitnesses.

Section MemoryCopies.

Import Memory.
Local Open Scope Z_scope.

(** The block of an image that is not empty holds its rows without padding. *)
Lemma Malloc2D_block sizeofT memT rt w h s v :
  0 < sizeofT -> 0 < w -> 0 < h ->
  w * sizeofT * h <= SIZE_MAX ->
  (forall width, width <= row_pitch rt width) ->
  Malloc2D sizeofT memT rt w h s = Some v ->
  exists b, ptr v = Some b /\ pitch v = w * sizeofT /\ h * (w * sizeofT) <= bytes b.
Proof.
  intros Hs Hw Hh Hfit Hpitch Hv.
  apply Malloc2D_returns in Hv. cbv zeta in Hv. subst v.
  eexists. split; [reflexivity|]. cbn [pitch bytes].
  destruct (@volume_sizes sizeofT w h 1 Hs) as (E1 & E2 & E3 & E4 & E5 & E6 & E7);
    try lia.
  rewrite Z.mul_1_r in *.
  rewrite E1. split; [reflexivity|].
  destruct memT; cbn [served row_pitch]; rewrite ?E1, ?E3, ?E5.
  - lia.
  - replace (w * h * sizeofT) with (h * (w * sizeofT)) by ring. lia.
  - lia.
  - specialize (Hpitch (w * sizeofT)). nia.
Qed.

(** X24: two images of the same [w] x [h] elements whose bytes fit a
    [size_t], each allocated by a 2D [Malloc] (of any kind, on a runtime
    whose pitch is at least the width asked), and one of the four 2D copies
    between them with the pitches those calls reported: a copy that returns
    has asked for one [cudaMemcpy2D], which moves exactly the bytes of the
    elements of the image, each from its offset in the source to its offset
    in the destination, and so reads and writes inside the two blocks only. *)
Theorem Copy2D_stays_in_the_blocks sizeofT rt copy w h ms rs s0 vs md rd s1 vd s s' :
  0 < sizeofT -> 0 <= w -> 0 <= h ->
  w * sizeofT * h <= SIZE_MAX ->
  (forall width, width <= row_pitch rs width) ->
  (forall width, width <= row_pitch rd width) ->
  In copy [Device2DeviceCopy2D sizeofT rt; Device2HostCopy2D sizeofT rt;
           Host2DeviceCopy2D sizeofT rt; Host2HostCopy2D sizeofT rt] ->
  Malloc2D sizeofT ms rs w h s0 = Some vs ->
  Malloc2D sizeofT md rd w h s1 = Some vd ->
  copy (pitch vd) (pitch vs) w h s = Some s' ->
  exists r bs bd,
    issued s' = r :: issued s /\ ptr vs = Some bs /\ ptr vd = Some bd
    /\ (forall src dst,
          In (src, dst) (moves r) <->
          exists x y c,
            (0 <= x < w /\ 0 <= y < h /\ 0 <= c < sizeofT)
            /\ src = y * pitch vs + x * sizeofT + c
            /\ dst = y * pitch vd + x * sizeofT + c)
    /\ (forall src dst,
          In (src, dst) (moves r) -> 0 <= src < bytes bs /\ 0 <= dst < bytes bd).
Proof.
  intros Hs Hw Hh Hfit Hps Hpd Hcopy Hvs Hvd Hc.
  assert (Hkind : exists kind, copy = Copy2D sizeofT rt kind).
  { destruct Hcopy as [<- | [<- | [<- | [<- | []]]]]; eexists; reflexivity. }
  destruct Hkind as [kind ->].
  unfold Copy2D, CHECK_CUDA_ERRORS_AUTO in Hc.
  destruct (grants rt _); [|discriminate]. inversion Hc; subst s'; clear Hc.
  assert (Hbs : exists b, ptr vs = Some b) by
    (apply Malloc2D_returns in Hvs; cbv zeta in Hvs; subst vs; eexists; reflexivity).
  assert (Hbd : exists b, ptr vd = Some b) by
    (apply Malloc2D_returns in Hvd; cbv zeta in Hvd; subst vd; eexists; reflexivity).
  destruct Hbs as [bs Hbs]. destruct Hbd as [bd Hbd].
  exists (cudaMemcpy2D (pitch vd) (pitch vs) (size_t (w * sizeofT)) h kind), bs, bd.
  split; [reflexivity|]. split; [exact Hbs|]. split; [exact Hbd|].
  assert (Hmoves : forall src dst,
            In (src, dst)
               (moves (cudaMemcpy2D (pitch vd) (pitch vs) (size_t (w * sizeofT)) h kind)) ->
            0 < w /\ 0 < h /\
            exists row col, 0 <= row < h /\ 0 <= col < w * sizeofT
                            /\ src = row * pitch vs + col /\ dst = row * pitch vd + col).
  { intros src dst Hin. cbn [moves] in Hin. apply in_flat_map in Hin.
    destruct Hin as [row [Hrow Hin]]. apply in_map_iff in Hin.
    destruct Hin as [col [Heq Hcol]]. apply In_upto in Hrow, Hcol.
    inversion Heq; subst src dst; clear Heq.
    assert (Hw' : 0 < w).
    { destruct (Z.eq_dec w 0) as [->|]; [|lia].
      rewrite Z.mul_0_l in Hcol. unfold size_t in Hcol. rewrite Z.mod_0_l in Hcol; lia. }
    assert (Hh' : 0 < h) by lia.
    destruct (@volume_sizes sizeofT w h 1 Hs) as (E1 & _); try lia.
    rewrite E1 in Hcol.
    split; [exact Hw'|]. split; [exact Hh'|].
    exists row, col. repeat split; lia. }
  split.
  - intros src dst. split.
    + intros Hin. destruct (Hmoves _ _ Hin) as (Hw' & Hh' & row & col & Hrow & Hcol & -> & ->).
      exists (col / sizeofT), row, (col mod sizeofT).
      pose proof (Z.div_mod col sizeofT ltac:(lia)) as Dc.
      pose proof (Z.mod_pos_bound col sizeofT Hs) as Bc.
      assert (0 <= col / sizeofT < w).
      { split; [apply Z.div_pos; lia|]. apply Z.div_lt_upper_bound; lia. }
      split; [lia|]. split; lia.
    + intros (x & y & c & (Hx & Hy & Hcc) & -> & ->).
      cbn [moves]. apply in_flat_map. exists y. split; [apply In_upto; lia|].
      apply in_map_iff. exists (x * sizeofT + c). split.
      * f_equal; ring.
      * apply In_upto.
        destruct (@volume_sizes sizeofT w h 1 Hs) as (E1 & _); try lia.
        rewrite E1. pose proof (@row_offset _ _ _ _ Hx Hcc). lia.
  - intros src dst Hin.
    destruct (Hmoves _ _ Hin) as (Hw' & Hh' & row & col & Hrow & Hcol & -> & ->).
    destruct (@Malloc2D_block _ _ _ _ _ _ _ Hs Hw' Hh' Hfit Hps Hvs) as (bs' & Hbs' & Eps & Hsize_s).
    destruct (@Malloc2D_block _ _ _ _ _ _ _ Hs Hw' Hh' Hfit Hpd Hvd) as (bd' & Hbd' & Epd & Hsize_d).
    rewrite Hbs in Hbs'. inversion Hbs'; subst bs'.
    rewrite Hbd in Hbd'. inversion Hbd'; subst bd'.
    rewrite Eps, Epd.
    pose proof (@row_offset _ _ _ _ Hrow Hcol). lia.
Qed.

End MemoryCopies.

Section MemoryCopyWitness.

Import Memory.
Local Open Scope Z_scope.

Lemma Copy2D_stays_in_the_blocks_witness :
  exists r bs bd,
    issued (mkStore None 0 0 [cudaMemcpy2D 12 12 12 2 cudaMemcpyDeviceToHost])
      = r :: issued fresh
    /\ ptr (mkStore (Some (mkBlock (cudaMallocPitch 12 2) 1024)) 12 0 [cudaMallocPitch 12 2])
       = Some bs
    /\ ptr (mkStore (Some (mkBlock (new_array 6) 24)) 12 0 [new_array 6]) = Some bd
    /\ (forall src dst,
          In (src, dst) (moves r) <->
          exists x y c,
            (0 <= x < 3 /\ 0 <= y < 2 /\ 0 <= c < 4)
            /\ src = y * pitch (mkStore (Some (mkBlock (cudaMallocPitch 12 2) 1024)) 12 0
                                        [cudaMallocPitch 12 2]) + x * 4 + c
            /\ dst = y * pitch (mkStore (Some (mkBlock (new_array 6) 24)) 12 0 [new_array 6])
                     + x * 4 + c)
    /\ (forall src dst,
          In (src, dst) (moves r) -> 0 <= src < bytes bs /\ 0 <= dst < bytes bd).
Proof.
  apply (@Copy2D_stays_in_the_blocks 4 padding (Device2HostCopy2D 4 padding) 3 2
           Device padding fresh _ Standard padding fresh _ fresh);
    [lia | lia | lia | vm_compute; discriminate | exact padding_pitch | exact padding_pitch
     | right; left; reflexivity
     | vm_compute; reflexivity | vm_compute; reflexivity | vm_compute; reflexivity].
Defined.

End MemoryCopyWitness.
